(** * pelican-flickrtag: the cache-and-substitution pass of [plugin.py]

    A shallow embedding of [src/pelican_flickrtag/plugin.py].  Python
    byte strings are [string]; dictionaries are [gmap]; sets are [gset];
    code that may raise returns a [result]; the pass itself runs in a small
    state-and-exception monad over a [world] that holds the generator object,
    the file system, the log and the calls made to the remote service. *)

From Stdlib Require Import ZArith List Ascii String Lia Bool.
From stdpp Require Import gmap strings list fin_maps pretty.

Local Open Scope string_scope.
#[local] Arguments String.append !_ _ /.

(** ** Python string operations used by the plugin *)

Module PyStr.

(** [s.startswith(p)] *)
Fixpoint startswith (p s : string) : bool :=
  match p, s with
  | "", _ => true
  | String a p', String b s' => if Ascii.eqb a b then startswith p' s' else false
  | String _ _, "" => false
  end.

(** [s[n:]] *)
Fixpoint drop (n : nat) (s : string) : string :=
  match n, s with
  | 0, _ => s
  | S n', String _ s' => drop n' s'
  | S _, "" => ""
  end.

(** [c in s] for a single character *)
Fixpoint has_char (c : ascii) (s : string) : bool :=
  match s with
  | "" => false
  | String a s' => Ascii.eqb c a || has_char c s'
  end.

(** [old in s[i:]] for some [i]: [old] occurs somewhere in [s] *)
Fixpoint contains (old s : string) : bool :=
  startswith old s ||
  match s with
  | "" => false
  | String _ s' => contains old s'
  end.

(** [s.replace("", new)]: [new] goes before every character and at the end *)
Fixpoint intersperse (new s : string) : string :=
  match s with
  | "" => new
  | String c s' => new +:+ String c (intersperse new s')
  end.

(** The scan of [s.replace(old, new)] for a non-empty [old]: leftmost
    occurrences, not overlapping, from left to right.  The fuel bounds the
    number of positions visited; [String.length s] is always enough. *)
Fixpoint replace_from (fuel : nat) (old new s : string) : string :=
  match fuel with
  | 0 => s
  | S fuel' =>
      match s with
      | "" => ""
      | String c s' =>
          if startswith old s
          then new +:+ replace_from fuel' old new (drop (String.length old) s)
          else String c (replace_from fuel' old new s')
      end
  end.

(** [s.replace(old, new)] *)
Definition replace (old new s : string) : string :=
  match old with
  | "" => intersperse new s
  | String _ _ => replace_from (String.length s) old new s
  end.

(** [t] occurs in [s] as a substring *)
Definition occurs (t s : string) : Prop :=
  ∃ pre post, s = pre +:+ t +:+ post.

End PyStr.

(** ** The tag pattern [flickr_regex] and [findall] *)

(** [[0-9]] *)
Definition is_digit (c : ascii) : bool :=
  (48 <=? nat_of_ascii c)%nat && (nat_of_ascii c <=? 57)%nat.

Fixpoint all_digits (s : string) : bool :=
  match s with
  | "" => true
  | String c s' => is_digit c && all_digits s'
  end.

(** The longest run of digits at the start of [s], and what follows it. *)
Fixpoint span_digits (s : string) : string * string :=
  match s with
  | "" => ("", "")
  | String c s' =>
      if is_digit c
      then let '(d, r) := span_digits s' in (String c d, r)
      else ("", s)
  end.

Definition tag_open : string := "[flickr:id=".

(** The literal text of a tag, group 1 of the pattern, for identifier [d]. *)
Definition tag (d : string) : string := tag_open +:+ d +:+ "]".

(** One attempt of [\[flickr:id\=([0-9]+)\]] at the start of [s]: the
    identifier (group 2) and the text after the match.  [[0-9]+] is greedy and
    ["]"] is no digit, so backtracking over shorter runs cannot succeed where
    the longest run fails. *)
Definition match_at (s : string) : option (string * string) :=
  if PyStr.startswith tag_open s then
    match span_digits (PyStr.drop (String.length tag_open) s) with
    | (String c d, String "]" r) => Some (String c d, r)
    | _ => None
    end
  else None.

(** [flickr_regex.findall(s)]: the pairs (group 1, group 2) of the leftmost
    non-overlapping matches. *)
Fixpoint findall_from (fuel : nat) (s : string) : list (string * string) :=
  match fuel with
  | 0 => []
  | S fuel' =>
      match s with
      | "" => []
      | String _ s' =>
          match match_at s with
          | Some (d, r) => (tag d, d) :: findall_from fuel' r
          | None => findall_from fuel' s'
          end
      end
  end.

Definition findall (s : string) : list (string * string) :=
  findall_from (String.length s) s.

(** ** Python values, exceptions and results *)

Inductive pyval :=
| PyNone
| PyBool (b : bool)
| PyInt (z : Z)
| PyStr (s : string).

#[global] Instance pyval_eq_dec : EqDecision pyval.
Proof. solve_decision. Defined.

(** [bool(v)], as the [if] statement sees a value *)
Definition truthy (v : pyval) : bool :=
  match v with
  | PyNone => false
  | PyBool b => b
  | PyInt z => negb (z =? 0)%Z
  | PyStr s => negb (String.eqb s "")
  end.

(** [a == b]; [True == 1] and [False == 0] hold in Python *)
Definition py_eq (a b : pyval) : bool :=
  match a, b with
  | PyBool x, PyInt z | PyInt z, PyBool x => (z =? Z.b2z x)%Z
  | _, _ => bool_decide (a = b)
  end.

(** [str(v)], which is also how jinja2 prints [{{ v }}] *)
Definition py_str (v : pyval) : string :=
  match v with
  | PyNone => "None"
  | PyBool true => "True"
  | PyBool false => "False"
  | PyInt z => pretty z
  | PyStr s => s
  end.

Inductive exn :=
| IOError
| EOFError
| TypeError
| KeyError
| IndexError
| AttributeError
| UnpicklingError
| RemoteError          (* a failure of the remote service or of the network *)
| KeyboardInterrupt.   (* not a subclass of [Exception] *)

#[global] Instance exn_eq_dec : EqDecision exn.
Proof. solve_decision. Defined.

(** [isinstance(e, Exception)] *)
Definition is_Exception (e : exn) : bool :=
  match e with
  | KeyboardInterrupt => false
  | _ => true
  end.

Inductive result (A : Type) :=
| Ok (a : A)
| Raise (e : exn).
Arguments Ok {A} a.
Arguments Raise {A} e.

#[global] Instance result_ret : MRet result := λ A a, Ok a.
#[global] Instance result_bind : MBind result := λ A B f r,
  match r with
  | Ok a => f a
  | Raise e => Raise e
  end.

(** [d[k]] on a dictionary *)
Definition getitem {V} (d : gmap string V) (k : string) : result V :=
  match d !! k with
  | Some v => Ok v
  | None => Raise KeyError
  end.

(** [d.get(k)] *)
Definition dict_get (d : gmap string pyval) (k : string) : pyval :=
  default PyNone (d !! k).

(** ** The remote client's photo object

    [api.Photo(id=id)] only stores the identifier; every attribute or method
    used below triggers the remote call and may raise.  A photo is the record of
    what each of them yields. *)

Record photo := {
  photo_title : result pyval;            (* photo.title *)
  photo_url : result pyval;              (* photo.url *)
  getMedium640 : result pyval;           (* photo.getMedium640() *)
  getMedium : result pyval;              (* photo.getMedium() *)
  getSizes : result (list (gmap string pyval))   (* photo.getSizes() *)
}.

(** [v.replace(old, new)]: only strings have the method *)
Definition str_replace (v : pyval) (old new : string) : result pyval :=
  match v with
  | PyStr s => Ok (PyStr (PyStr.replace old new s))
  | _ => Raise AttributeError
  end.

Definition url_for_alias (p : photo) (alias : pyval) : result pyval :=
  url ← (if py_eq alias (PyStr "Medium 640") then getMedium640 p else getMedium p);
  url ← str_replace url "http:" "";
  url ← str_replace url "https:" "";
  mret url.

(** [[s for s in sizes if s['label'] == alias]]: every element is asked for its
    label, also after a first one was kept *)
Fixpoint with_label (sizes : list (gmap string pyval)) (alias : pyval)
  : result (list (gmap string pyval)) :=
  match sizes with
  | [] => Ok []
  | s :: rest =>
      l ← getitem s "label";
      kept ← with_label rest alias;
      mret (if py_eq l alias then s :: kept else kept)
  end.

Definition size_for_alias (sizes : list (gmap string pyval)) (alias : pyval)
  : result (gmap string pyval) :=
  let alias :=
    if negb (py_eq alias (PyStr "Medium 640") || py_eq alias (PyStr "Medium"))
    then PyStr "Medium" else alias in
  kept ← with_label sizes alias;
  match kept with
  | s :: _ => Ok s
  | [] => Raise IndexError
  end.

(** ** Resolving one identifier: the [try]/[except] of the fetch loop *)

(** The placeholder record of the [except] branch; [ctx] is
    [generator.context]. *)
Definition placeholder (ctx : gmap string pyval) : gmap string pyval :=
  {[ "title" := PyStr "Placeholder";
     "raw_url" := dict_get ctx "FLICKR_TAG_PLACE_HOLDER_PICT";
     "url" := dict_get ctx "FLICKR_TAG_PLACE_HOLDER_LINK" ]}.

(** The three values of the dictionary literal, in the order Python
    evaluates them. *)
Definition base_fields (p : photo) (size_alias : pyval)
  : result (pyval * pyval * pyval) :=
  title ← photo_title p;
  raw_url ← url_for_alias p size_alias;
  url ← photo_url p;
  mret (title, raw_url, url).

(** The selected size entry, when dimensions are asked for. *)
Definition lookup_size (p : photo) (size_alias : pyval)
  : result (gmap string pyval) :=
  sizes ← getSizes p;
  size_for_alias sizes size_alias.

(** The body of the [try]: it returns [photo_mapping] as the body left it,
    and whether the body completed or raised. *)
Definition try_block (p : photo) (id : string)
    (include_dimensions size_alias : pyval)
    (photo_mapping : gmap string (gmap string pyval))
  : gmap string (gmap string pyval) * result unit :=
  match base_fields p size_alias with
  | Raise e => (photo_mapping, Raise e)
  | Ok (title, raw_url, url) =>
      let pm1 :=
        <[id := {[ "title" := title; "raw_url" := raw_url; "url" := url ]}]>
          photo_mapping in
      if truthy include_dimensions then
        match lookup_size p size_alias with
        | Raise e => (pm1, Raise e)
        | Ok size =>
            match getitem size "width" with
            | Raise e => (pm1, Raise e)
            | Ok w =>
                let pm2 := alter (insert "width" w) id pm1 in
                match getitem size "height" with
                | Raise e => (pm2, Raise e)
                | Ok h => (alter (insert "height" h) id pm2, Ok tt)
                end
            end
        end
      else (pm1, Ok tt)
  end.

(** [try: ... except: photo_mapping[id] = {placeholder}]; the bare [except]
    takes every exception. *)
Definition resolve (ctx : gmap string pyval) (p : photo) (id : string)
    (include_dimensions size_alias : pyval)
    (photo_mapping : gmap string (gmap string pyval))
  : gmap string (gmap string pyval) :=
  match try_block p id include_dimensions size_alias photo_mapping with
  | (pm, Ok _) => pm
  | (pm, Raise _) => <[id := placeholder ctx]> pm
  end.

(** ** The generator, its surroundings, and the monad of the pass *)

Record item := { _content : string }.

(** A template object: [render] may depend on state outside the context it
    is given (a counter, a random filter), kept here as the number of
    renderings made before. *)
Definition template : Type := nat → gmap string pyval → string.

Inductive level := INFO | WARNING | ERROR.

Record world := {
  flickr_api_client : option (string → photo);   (* None, or [api.Photo] *)
  context : gmap string pyval;                   (* generator.context *)
  articles : list item;                          (* generator.articles *)
  pages : list item;                             (* generator.pages *)
  get_template : pyval → result template;        (* generator.get_template *)
  fs : gmap string string;                       (* files, by path *)
  unwritable : gset string;                      (* paths [open(.., 'w')] refuses *)
  writes : list (string * string);               (* files written, oldest first *)
  log : list (level * string);                   (* log records, oldest first *)
  photo_calls : list string;                     (* [api.Photo(id=..)], oldest first *)
  renders : nat                                  (* template renderings so far *)
}.

Definition with_items (article : bool) (l : list item) (w : world) : world :=
  {| flickr_api_client := flickr_api_client w; context := context w;
     articles := if article then l else articles w;
     pages := if article then pages w else l;
     get_template := get_template w; fs := fs w; unwritable := unwritable w;
     writes := writes w; log := log w; photo_calls := photo_calls w;
     renders := renders w |}.

Definition with_file (path data : string) (w : world) : world :=
  {| flickr_api_client := flickr_api_client w; context := context w;
     articles := articles w; pages := pages w;
     get_template := get_template w; fs := <[path := data]> (fs w);
     unwritable := unwritable w; writes := writes w ++ [(path, data)];
     log := log w; photo_calls := photo_calls w; renders := renders w |}.

Definition with_log (l : list (level * string)) (w : world) : world :=
  {| flickr_api_client := flickr_api_client w; context := context w;
     articles := articles w; pages := pages w;
     get_template := get_template w; fs := fs w; unwritable := unwritable w;
     writes := writes w; log := l; photo_calls := photo_calls w;
     renders := renders w |}.

Definition with_photo_calls (l : list string) (w : world) : world :=
  {| flickr_api_client := flickr_api_client w; context := context w;
     articles := articles w; pages := pages w;
     get_template := get_template w; fs := fs w; unwritable := unwritable w;
     writes := writes w; log := log w; photo_calls := l;
     renders := renders w |}.

Definition with_renders (n : nat) (w : world) : world :=
  {| flickr_api_client := flickr_api_client w; context := context w;
     articles := articles w; pages := pages w;
     get_template := get_template w; fs := fs w; unwritable := unwritable w;
     writes := writes w; log := log w; photo_calls := photo_calls w;
     renders := n |}.

Inductive outcome (A : Type) :=
| Normal (a : A) (w : world)
| Raised (e : exn) (w : world).
Arguments Normal {A} a w.
Arguments Raised {A} e w.

Definition M (A : Type) : Type := world → outcome A.

#[global] Instance M_ret : MRet M := λ A a w, Normal a w.
#[global] Instance M_bind : MBind M := λ A B f m w,
  match m w with
  | Normal a w' => f a w'
  | Raised e w' => Raised e w'
  end.

Definition get_world : M world := λ w, Normal w w.
Definition logger (lv : level) (msg : string) : M unit :=
  λ w, Normal tt (with_log (log w ++ [(lv, msg)]) w).
Definition raise {A} (e : exn) : M A := λ w, Raised e w.
Definition lift {A} (r : result A) : M A :=
  match r with
  | Ok a => mret a
  | Raise e => raise e
  end.

(** [try: body except (classes): handler], the handler taking the exception *)
Definition try_except {A} (body : M A) (caught : exn → bool) (handler : M A)
  : M A :=
  λ w, match body w with
       | Raised e w' => if caught e then handler w' else Raised e w'
       | r => r
       end.

(** ** The built-in template

    [Template(default_template).render(context)], written out: a variable that
    the context lacks prints as the empty string, any other value as [str]
    prints it (autoescaping is off), and [{% if %}] tests truthiness. *)

Definition dq : string := String (ascii_of_nat 34) "".
Definition nl : string := String (ascii_of_nat 10) "".

Definition jinja_var (ctx : gmap string pyval) (k : string) : string :=
  match ctx !! k with
  | Some v => py_str v
  | None => ""
  end.

Definition jinja_test (ctx : gmap string pyval) (k : string) : bool :=
  match ctx !! k with
  | Some v => truthy v
  | None => false
  end.

Definition default_template : template := λ _ ctx,
  "<span class=" +:+ dq +:+ "caption-container" +:+ dq +:+ ">" +:+ nl +:+
  "    <a class=" +:+ dq +:+ "caption" +:+ dq +:+ " href=" +:+ dq +:+
    jinja_var ctx "url" +:+ dq +:+ " target=" +:+ dq +:+ "_blank" +:+ dq +:+
    ">" +:+ nl +:+
  "        <img src=" +:+ dq +:+ jinja_var ctx "raw_url" +:+ dq +:+ nl +:+
  "            alt=" +:+ dq +:+ jinja_var ctx "title" +:+ dq +:+ nl +:+
  "            title=" +:+ dq +:+ jinja_var ctx "title" +:+ dq +:+ nl +:+
  "            class=" +:+ dq +:+ "img-polaroid" +:+ dq +:+ nl +:+
  "            " +:+
  (if jinja_test ctx "FLICKR_TAG_INCLUDE_DIMENSIONS" then
     nl +:+
     "                width=" +:+ dq +:+ jinja_var ctx "width" +:+ dq +:+ nl +:+
     "                height=" +:+ dq +:+ jinja_var ctx "height" +:+ dq +:+ nl +:+
     "            "
   else "") +:+
  " />" +:+ nl +:+
  "    </a>" +:+ nl +:+
  "    <span class=" +:+ dq +:+ "caption-text muted" +:+ dq +:+ ">" +:+
    jinja_var ctx "title" +:+ "</span>" +:+ nl +:+
  "</spam>".

(** ** The serializer

    [pickle] is a library of Python, not of this repository: the pass is
    stated over any pair of functions for [pickle.dumps] and what
    [pickle.load] makes of a file's contents. *)

Class Pickle := {
  pickle_dumps : gmap string (gmap string pyval) → string;
  pickle_load : string → result (gmap string (gmap string pyval))
}.

(** ** The pass *)

Section pass.
Context `{Pickle}.

(** The two nested [for] loops that fill [photo_ids]. *)
Definition scan_ids (item_list : list item) : gset string :=
  fold_left
    (λ photo_ids it,
       fold_left (λ ids (m : string * string), ids ∪ {[ m.2 ]})
                 (findall (_content it)) photo_ids)
    item_list ∅.

(** Lines 94-102: the scan reads the item list of the kind and leaves
    the world as it is. *)
Definition scan_items (article : bool) : M (gset string) := λ w,
  Normal (scan_ids (if article then articles w else pages w)) w.

(** [open(tmp_file, 'r')] and reading it whole *)
Definition open_read (path : pyval) : M string := λ w,
  match path with
  | PyStr p =>
      match fs w !! p with
      | Some data => Normal data w
      | None => Raised IOError w
      end
  | _ => Raised TypeError w
  end.

(** [with open(tmp_file, 'w') as f: pickle.dump(photo_mapping, f)] *)
Definition dump_cache (path : pyval)
    (photo_mapping : gmap string (gmap string pyval)) : M unit := λ w,
  match path with
  | PyStr p =>
      if bool_decide (p ∈ unwritable w) then Raised IOError w
      else Normal tt (with_file p (pickle_dumps photo_mapping) w)
  | _ => Raised TypeError w
  end.

Definition load_caught (e : exn) : bool :=
  bool_decide (e = IOError) || bool_decide (e = EOFError).

(** Lines 106-114: the mapping the pass starts from and the identifiers
    to fetch.  The order in which Python walks a set is not fixed;
    [elements] stands for one such order. *)
Definition load_cache (tmp_file : pyval) (photo_ids : gset string)
  : M (gmap string (gmap string pyval) * list string) :=
  loaded ← try_except
              (data ← open_read tmp_file;
               photo_mapping ← lift (pickle_load data);
               mret (Some photo_mapping))
              load_caught
              (mret None);
  match loaded with
  | None => mret (∅, elements photo_ids)
  | Some photo_mapping =>
      let cached_ids := dom photo_mapping in
      mret (photo_mapping, elements (photo_ids ∖ cached_ids))
  end.

(** [api.Photo(id=id)] *)
Definition new_photo (api : string → photo) (id : string) : M photo :=
  λ w, Normal (api id) (with_photo_calls (photo_calls w ++ [id]) w).

(** Lines 118-140 *)
Fixpoint fetch_loop (api : string → photo)
    (include_dimensions size_alias : pyval) (photo_ids : list string)
    (photo_mapping : gmap string (gmap string pyval))
  : M (gmap string (gmap string pyval)) :=
  match photo_ids with
  | [] => mret photo_mapping
  | id :: rest =>
      _ ← logger INFO ("[flickrtag]: Fetching photo information for " +:+ id);
      p ← new_photo api id;
      w ← get_world;
      fetch_loop api include_dimensions size_alias rest
        (resolve (context w) p id include_dimensions size_alias photo_mapping)
  end.

(** Lines 116-145 *)
Definition fetch_and_store (api : string → photo)
    (tmp_file include_dimensions size_alias : pyval)
    (photo_ids : list string)
    (photo_mapping : gmap string (gmap string pyval))
  : M (gmap string (gmap string pyval)) :=
  match photo_ids with
  | [] =>
      _ ← logger INFO "[flickrtag]: Found pickled photo mapping";
      mret photo_mapping
  | _ :: _ =>
      _ ← logger INFO "[flickrtag]: Fetching photo information from Flickr...";
      photo_mapping ← fetch_loop api include_dimensions size_alias
                        photo_ids photo_mapping;
      _ ← dump_cache tmp_file photo_mapping;
      mret photo_mapping
  end.

(** Lines 147-157 *)
Definition choose_template : M template :=
  w ← get_world;
  let template_name := dict_get (context w) "FLICKR_TAG_TEMPLATE_NAME" in
  if bool_decide (template_name = PyNone) then mret default_template
  else
    try_except (lift (get_template w template_name)) is_Exception
      (_ ← logger ERROR ("[flickrtag]: Unable to find the custom template "
                          +:+ py_str template_name);
       mret default_template).

(** [template.render(context)] *)
Definition render (tpl : template) (ctx : gmap string pyval) : M string :=
  λ w, Normal (tpl (renders w) ctx) (with_renders (S (renders w)) w).

(** Lines 166-178: one match of the inner loop, on the current body *)
Definition substitute_match (tpl : template)
    (photo_mapping : gmap string (gmap string pyval))
    (content : string) (m : string * string) : M string :=
  let fid := m.2 in
  match photo_mapping !! fid with
  | None =>
      _ ← logger ERROR "[flickrtag]: Could not find info for a photo!";
      mret content
  | Some rec =>
      w ← get_world;
      (* context = generator.context.copy(); context.update(rec) *)
      let ctx := rec ∪ context w in
      replacement ← render tpl ctx;
      mret (PyStr.replace m.1 replacement content)
  end.

Fixpoint substitute_matches (tpl : template)
    (photo_mapping : gmap string (gmap string pyval))
    (content : string) (ms : list (string * string)) : M string :=
  match ms with
  | [] => mret content
  | m :: rest =>
      content ← substitute_match tpl photo_mapping content m;
      substitute_matches tpl photo_mapping content rest
  end.

(** Lines 164-178: the matches are those of the body before the loop. *)
Fixpoint substitute_items (tpl : template)
    (photo_mapping : gmap string (gmap string pyval))
    (item_list : list item) : M (list item) :=
  match item_list with
  | [] => mret []
  | it :: rest =>
      content ← substitute_matches tpl photo_mapping (_content it)
                  (findall (_content it));
      rest ← substitute_items tpl photo_mapping rest;
      mret ({| _content := content |} :: rest)
  end.

Definition set_items (article : bool) (l : list item) : M unit :=
  λ w, Normal tt (with_items article l w).

(** Lines 106-145: load, fetch what is missing, store. *)
Definition cache_phase (api : string → photo)
    (tmp_file include_dimensions size_alias : pyval)
    (photo_ids : gset string) : M (gmap string (gmap string pyval)) :=
  '(photo_mapping, photo_ids) ← load_cache tmp_file photo_ids;
  fetch_and_store api tmp_file include_dimensions size_alias
    photo_ids photo_mapping.

(** Lines 147-178: choose the template and substitute in every item. *)
Definition substitute_phase (ct_type : string) (article : bool)
    (item_list : list item)
    (photo_mapping : gmap string (gmap string pyval)) : M unit :=
  tpl ← choose_template;
  _ ← logger INFO ("[flickrtag]: Inserting photo information into "
                    +:+ ct_type +:+ "s...");
  items ← substitute_items tpl photo_mapping item_list;
  set_items article items.

Definition generic_replace (ct_type : string) : M unit :=
  let ct_type :=
    if negb (String.eqb ct_type "article" || String.eqb ct_type "page")
    then "article" else ct_type in
  w ← get_world;
  match flickr_api_client w with
  | None => logger ERROR "[flickrtag]: Unable to get the Flickr API object"
  | Some api =>
      let tmp_file := dict_get (context w) "FLICKR_TAG_CACHE_LOCATION" in
      let include_dimensions :=
        dict_get (context w) "FLICKR_TAG_INCLUDE_DIMENSIONS" in
      let size_alias := dict_get (context w) "FLICKR_TAG_IMAGE_SIZE" in
      _ ← logger INFO ("[flickrtag]: Parsing " +:+ ct_type
                        +:+ "s for photo ids...");
      let article := String.eqb ct_type "article" in
      let item_list := if article then articles w else pages w in
      photo_ids ← scan_items article;
      _ ← logger INFO ("[flickrtag]: Found " +:+ pretty (size photo_ids)
                        +:+ " photo ids in the " +:+ ct_type +:+ "s");
      photo_mapping ← cache_phase api tmp_file include_dimensions
                        size_alias photo_ids;
      substitute_phase ct_type article item_list photo_mapping
  end.

Definition replace_article_tags : M unit := generic_replace "article".
Definition replace_page_tags : M unit := generic_replace "page".

End pass.

(** ** A serializer to run the pass with

    [pickle] writes values that depend on the identity of the objects it is
    given (its memo), which an embedding of values does not have.  The runs
    and the round trip below use a text format in its manner: every value
    carries a mark of its type, texts and keys their length, a dictionary is
    closed by a brace and the whole by a full stop.  As with [pickle.load],
    reading stops at the stop mark, input that ends before it is an
    [EOFError], and anything else that cannot be read an
    [UnpicklingError]. *)

Module TextPickle.

Fixpoint take (n : nat) (s : string) : string :=
  match n, s with
  | S n', String c s' => String c (take n' s')
  | _, _ => ""
  end.

Fixpoint nat_of_digits (acc : nat) (d : string) : nat :=
  match d with
  | "" => acc
  | String c d' => nat_of_digits (10 * acc + (nat_of_ascii c - 48)) d'
  end.

Definition put_str (s : string) : string :=
  pretty (String.length s) +:+ ":" +:+ s.

Definition put_val (v : pyval) : string :=
  match v with
  | PyNone => "N"
  | PyBool true => "T"
  | PyBool false => "F"
  | PyInt z =>
      (if (z <? 0)%Z then "I-" else "I+") +:+ pretty (Z.abs_nat z) +:+ ";"
  | PyStr s => "S" +:+ put_str s
  end.

Definition put_field : string * pyval → string → string :=
  λ '(k, v) acc, put_str k +:+ put_val v +:+ acc.

Definition put_record (r : gmap string pyval) : string :=
  "{" +:+ fold_right put_field "}" (map_to_list r).

Definition put_entry : string * gmap string pyval → string → string :=
  λ '(k, r) acc, put_str k +:+ put_record r +:+ acc.

Definition dumps (m : gmap string (gmap string pyval)) : string :=
  "{" +:+ fold_right put_entry "}." (map_to_list m).

(** What a reader makes of the start of its input: a value and the rest,
    input that ends too early, or input that is not of the format. *)
Inductive parsed (A : Type) :=
| Got (a : A) (rest : string)
| Short
| Bad.
Arguments Got {A} a rest.
Arguments Short {A}.
Arguments Bad {A}.

Definition and_then {A B} (x : parsed A) (k : A → string → parsed B)
  : parsed B :=
  match x with
  | Got a rest => k a rest
  | Short => Short
  | Bad => Bad
  end.

(** A character that must come next. *)
Definition expect {A} (c : ascii) (s : string) (k : string → parsed A)
  : parsed A :=
  match s with
  | "" => Short
  | String x r => if Ascii.eqb x c then k r else Bad
  end.

Definition get_nat (s : string) : parsed nat :=
  match span_digits s with
  | (_, "") => Short
  | ("", _) => Bad
  | (d, r) => Got (nat_of_digits 0 d) r
  end.

Definition get_str (s : string) : parsed string :=
  and_then (get_nat s) (λ n r,
    expect ":" r (λ r',
      if (n <=? String.length r')%nat then Got (take n r') (PyStr.drop n r')
      else Short)).

Definition get_val (s : string) : parsed pyval :=
  match s with
  | "" => Short
  | String c r =>
      if Ascii.eqb c "N" then Got PyNone r
      else if Ascii.eqb c "T" then Got (PyBool true) r
      else if Ascii.eqb c "F" then Got (PyBool false) r
      else if Ascii.eqb c "S" then
        and_then (get_str r) (λ x r', Got (PyStr x) r')
      else if Ascii.eqb c "I" then
        match r with
        | "" => Short
        | String sign r1 =>
            if Ascii.eqb sign "-" then
              and_then (get_nat r1) (λ n r2,
                expect ";" r2 (Got (PyInt (- Z.of_nat n))))
            else if Ascii.eqb sign "+" then
              and_then (get_nat r1) (λ n r2,
                expect ";" r2 (Got (PyInt (Z.of_nat n))))
            else Bad
        end
      else Bad
  end.

Fixpoint get_fields (fuel : nat) (s : string)
  : parsed (list (string * pyval)) :=
  match fuel with
  | 0 => Bad
  | S fuel' =>
      match s with
      | "" => Short
      | String c r =>
          if Ascii.eqb c "}" then Got [] r
          else
            and_then (get_str s) (λ k r1,
              and_then (get_val r1) (λ v r2,
                and_then (get_fields fuel' r2) (λ l r3,
                  Got ((k, v) :: l) r3)))
      end
  end.

Definition get_record (s : string) : parsed (gmap string pyval) :=
  expect "{" s (λ r,
    and_then (get_fields (String.length s) r) (λ l r',
      Got (list_to_map l) r')).

Fixpoint get_entries (fuel : nat) (s : string)
  : parsed (list (string * gmap string pyval)) :=
  match fuel with
  | 0 => Bad
  | S fuel' =>
      match s with
      | "" => Short
      | String c r =>
          if Ascii.eqb c "}" then Got [] r
          else
            and_then (get_str s) (λ k r1,
              and_then (get_record r1) (λ v r2,
                and_then (get_entries fuel' r2) (λ l r3,
                  Got ((k, v) :: l) r3)))
      end
  end.

Definition load (s : string) : result (gmap string (gmap string pyval)) :=
  match
    expect "{" s (λ r,
      and_then (get_entries (String.length s) r) (λ l r',
        expect "." r' (λ _, Got (list_to_map l) "")))
  with
  | Got m _ => Ok m
  | Short => Raise EOFError
  | Bad => Raise UnpicklingError
  end.

#[global] Instance pickle : Pickle :=
  {| pickle_dumps := dumps; pickle_load := load |}.

End TextPickle.

(** ** Reference functions for the statements *)

(** One pass over [s] from left to right that puts fragment [f !! d] in the
    place of every tag [d] that has one and copies everything else. *)
Fixpoint subst_pass_from (fuel : nat) (f : gmap string string) (s : string)
  : string :=
  match fuel with
  | 0 => s
  | S fuel' =>
      match s with
      | "" => ""
      | String c s' =>
          match match_at s with
          | Some (d, r) =>
              match f !! d with
              | Some frag => frag +:+ subst_pass_from fuel' f r
              | None => tag d +:+ subst_pass_from fuel' f r
              end
          | None => String c (subst_pass_from fuel' f s')
          end
      end
  end.

Definition subst_pass (f : gmap string string) (s : string) : string :=
  subst_pass_from (String.length s) f s.

(** The fragment each identifier ends up with when the matches [ids] are
    walked in order, [n] renderings having been made before: every match whose
    identifier is in the mapping costs one rendering, and the first rendering
    for an identifier is the one that is kept. *)
Fixpoint first_renders (tpl : template) (ctx : gmap string pyval)
    (photo_mapping : gmap string (gmap string pyval))
    (n : nat) (ids : list string) (f : gmap string string)
  : gmap string string :=
  match ids with
  | [] => f
  | d :: rest =>
      match photo_mapping !! d with
      | None => first_renders tpl ctx photo_mapping n rest f
      | Some rec =>
          first_renders tpl ctx photo_mapping (S n) rest
            (f ∪ {[ d := tpl n (rec ∪ ctx) ]})
      end
  end.



(** The characters a tag is made of. *)
Definition tag_char (c : ascii) : bool :=
  PyStr.has_char c "[flickr:id=]" || is_digit c.

(** A fragment that cannot be taken for part of a tag: it starts with a
    character no tag contains and has no opening bracket. *)
Definition good_fragment (frag : string) : bool :=
  match frag with
  | "" => false
  | String c _ => negb (tag_char c) && negb (PyStr.has_char "[" frag)
  end.

Definition good_fragments (f : gmap string string) : Prop :=
  map_Forall (λ _ frag, good_fragment frag = true) f.

(** The shape of what [findall] returns: the tag of a non-empty run of
    digits, and that run. *)
Definition tag_match (m : string * string) : Prop :=
  m.1 = tag m.2 ∧ all_digits m.2 = true ∧ m.2 ≠ "".

(** The matches whose identifier has a record, and those whose identifier
    has none. *)
Definition found_matches (photo_mapping : gmap string (gmap string pyval))
    (ms : list (string * string)) : list (string * string) :=
  List.filter
    (λ m : string * string, bool_decide (is_Some (photo_mapping !! m.2))) ms.

Definition lost_matches (photo_mapping : gmap string (gmap string pyval))
    (ms : list (string * string)) : list (string * string) :=
  List.filter
    (λ m : string * string, bool_decide (photo_mapping !! m.2 = None)) ms.

Definition world_of {A} (o : outcome A) : world :=
  match o with
  | Normal _ w => w
  | Raised _ w => w
  end.

(** The text of a tag after its opening bracket. *)
Definition tag_inner (d : string) : string := "flickr:id=" +:+ d +:+ "]".

(** Every character is one a tag has after its opening bracket. *)
Fixpoint inner_chars (t : string) : bool :=
  match t with
  | "" => true
  | String c t' => tag_char c && negb (Ascii.eqb "[" c) && inner_chars t'
  end.

(** What a stretch of the pass adds to the world: log records, calls to the
    remote service, renderings. *)
Definition touch (l : list (level * string)) (calls : list string) (n : nat)
    (w : world) : world :=
  with_renders (renders w + n)
    (with_photo_calls (photo_calls w ++ calls) (with_log (log w ++ l) w)).

(** The body an item ends with, as a function: the inner loop of the
    substitution without its log. *)
Fixpoint replace_loop (tpl : template) (ctx : gmap string pyval)
    (photo_mapping : gmap string (gmap string pyval))
    (n : nat) (content : string) (ms : list (string * string)) : string :=
  match ms with
  | [] => content
  | m :: rest =>
      match photo_mapping !! m.2 with
      | None => replace_loop tpl ctx photo_mapping n content rest
      | Some rec =>
          replace_loop tpl ctx photo_mapping (S n)
            (PyStr.replace m.1 (tpl n (rec ∪ ctx)) content) rest
      end
  end.

Definition lost_message : level * string :=
  (ERROR, "[flickrtag]: Could not find info for a photo!").

(** The record an identifier ends with after [resolve]: the real one, with
    the two dimensions when they are asked for, or the placeholder. *)
Definition resolved_record (ctx : gmap string pyval) (p : photo)
    (include_dimensions size_alias : pyval) : gmap string pyval :=
  match base_fields p size_alias with
  | Raise _ => placeholder ctx
  | Ok (title, raw_url, url) =>
      let rec : gmap string pyval :=
        {[ "title" := title; "raw_url" := raw_url; "url" := url ]} in
      if truthy include_dimensions then
        match lookup_size p size_alias with
        | Raise _ => placeholder ctx
        | Ok size =>
            match size !! "width", size !! "height" with
            | Some w, Some h => <["height" := h]> (<["width" := w]> rec)
            | _, _ => placeholder ctx
            end
        end
      else rec
  end.

(** The mapping after the fetch loop over [ids], without its log. *)
Definition resolve_all (api : string → photo) (ctx : gmap string pyval)
    (include_dimensions size_alias : pyval) (ids : list string)
    (photo_mapping : gmap string (gmap string pyval))
  : gmap string (gmap string pyval) :=
  fold_left
    (λ pm id, resolve ctx (api id) id include_dimensions size_alias pm)
    ids photo_mapping.

Definition fetch_message (id : string) : level * string :=
  (INFO, "[flickrtag]: Fetching photo information for " +:+ id).

(** ** What the pass is compared with *)

Section pass_reference.
Context `{Pickle}.

(** What [open] and [pickle.load] make of the cache path. *)
Definition read_cache (files : gmap string string) (tmp_file : pyval)
  : result (gmap string (gmap string pyval)) :=
  match tmp_file with
  | PyStr p =>
      match files !! p with
      | Some data => pickle_load data
      | None => Raise IOError
      end
  | _ => Raise TypeError
  end.

Definition cache_location (w : world) : pyval :=
  dict_get (context w) "FLICKR_TAG_CACHE_LOCATION".

(** The mapping the pass starts from: the loaded one, the empty one after
    a load failure that is caught, none when the failure is not caught. *)
Definition start_mapping (w : world)
  : option (gmap string (gmap string pyval)) :=
  match read_cache (fs w) (cache_location w) with
  | Ok pm => Some pm
  | Raise e => if load_caught e then Some ∅ else None
  end.

(** The items of the kind: pages for ['page'], articles for anything
    else. *)
Definition kind_items (ct_type : string) (w : world) : list item :=
  if String.eqb ct_type "page" then pages w else articles w.

(** [missing = referenced_ids - keys(loaded_mapping)] *)
Definition missing (ct_type : string) (w : world)
    (loaded : gmap string (gmap string pyval)) : gset string :=
  scan_ids (kind_items ct_type w) ∖ dom loaded.

Definition include_dimensions_of (w : world) : pyval :=
  dict_get (context w) "FLICKR_TAG_INCLUDE_DIMENSIONS".
Definition size_alias_of (w : world) : pyval :=
  dict_get (context w) "FLICKR_TAG_IMAGE_SIZE".

(** The mapping in memory after the cache phase. *)
Definition fetched_mapping (api : string → photo) (ct_type : string)
    (w : world) (loaded : gmap string (gmap string pyval))
  : gmap string (gmap string pyval) :=
  resolve_all api (context w) (include_dimensions_of w) (size_alias_of w)
    (elements (missing ct_type w loaded)) loaded.

(** The parts of the world the substitution has no business with. *)
Definition store_kept (w w' : world) : Prop :=
  fs w' = fs w ∧ writes w' = writes w ∧ photo_calls w' = photo_calls w
  ∧ context w' = context w ∧ unwritable w' = unwritable w.

End pass_reference.

(** ** Concrete runs *)

(** A photo the remote service fails on. *)
Definition dead_photo : photo :=
  {| photo_title := Raise RemoteError; photo_url := Raise RemoteError;
     getMedium640 := Raise RemoteError; getMedium := Raise RemoteError;
     getSizes := Raise RemoteError |}.

(** A custom template whose output changes after its first rendering. *)
Definition two_faced_template : template :=
  λ n _, if (n =? 0)%nat then "<first>" else "<later>".

Definition twice_body : string := "[flickr:id=1] and [flickr:id=1]".


Definition stale_mapping : gmap string (gmap string pyval) :=
  {[ "1" := {[ "title" := PyStr "A" ]};
     "9" := {[ "title" := PyStr "Sunset [HDR]" ]} ]}.

Definition twice_mapping : gmap string (gmap string pyval) :=
  {[ "1" := {[ "title" := PyStr "A" ]} ]}.

(** A generator with one article that names photo 1 twice, a cache file
    that holds a record for it, and a custom template. *)
Definition twice_world : world :=
  {| flickr_api_client := Some (λ _, dead_photo);
     context := {[ "FLICKR_TAG_CACHE_LOCATION" := PyStr "/tmp/cache";
                   "FLICKR_TAG_TEMPLATE_NAME" := PyStr "photo.html" ]};
     articles := [ {| _content := twice_body |} ];
     pages := [];
     get_template := λ _, Ok two_faced_template;
     fs := {[ "/tmp/cache" := TextPickle.dumps twice_mapping ]};
     unwritable := ∅; writes := []; log := []; photo_calls := [];
     renders := 0 |}.

Definition placeholder_context : gmap string pyval :=
  {[ "FLICKR_TAG_PLACE_HOLDER_PICT" := PyStr "//example.org/missing.png";
     "FLICKR_TAG_PLACE_HOLDER_LINK" := PyStr "https://github.com/haum/pelican-flickrtag" ]}.

(** A photo whose title, address and image resolve and whose only size
    entry is labelled ["Large"]. *)
Definition large_only_photo : photo :=
  {| photo_title := Ok (PyStr "Sunset");
     photo_url := Ok (PyStr "//flickr/1");
     getMedium640 := Ok (PyStr "https://img/1.jpg");
     getMedium := Ok (PyStr "https://img/1_m.jpg");
     getSizes := Ok [ {[ "label" := PyStr "Large"; "width" := PyInt 1024;
                         "height" := PyInt 768 ]} ] |}.

(** A photo whose image address names another address in its query. *)
Definition redirect_photo : photo :=
  {| photo_title := Ok (PyStr "Sunset");
     photo_url := Ok (PyStr "//flickr/1");
     getMedium640 := Ok (PyStr "https://example.org/r?u=http://x.org/a.jpg");
     getMedium := Ok (PyStr "https://example.org/r?u=http://x.org/a.jpg");
     getSizes := Ok [] |}.

(** The photo of the example in the specification. *)
Definition sunset_photo : photo :=
  {| photo_title := Ok (PyStr "Sunset");
     photo_url := Ok (PyStr "//flickr/1");
     getMedium640 := Ok (PyStr "https://img/1.jpg");
     getMedium := Ok (PyStr "https://img/1_m.jpg");
     getSizes := Ok [ {[ "label" := PyStr "Medium 640"; "width" := PyInt 640;
                         "height" := PyInt 480 ]} ] |}.

Definition sunset_context : gmap string pyval :=
  {[ "FLICKR_TAG_CACHE_LOCATION" := PyStr "/tmp/cache";
     "FLICKR_TAG_INCLUDE_DIMENSIONS" := PyBool false;
     "FLICKR_TAG_IMAGE_SIZE" := PyStr "Medium 640";
     "FLICKR_TAG_PLACE_HOLDER_PICT" := PyStr "//example.org/missing.png";
     "FLICKR_TAG_PLACE_HOLDER_LINK" :=
       PyStr "https://github.com/haum/pelican-flickrtag" ]}.

(** One article that names one photo, no cache file yet. *)
Definition sunset_world : world :=
  {| flickr_api_client := Some (λ _, sunset_photo);
     context := sunset_context;
     articles := [ {| _content := "See [flickr:id=12345] here" |} ];
     pages := [];
     get_template := λ _, Raise IOError;
     fs := ∅; unwritable := ∅; writes := []; log := []; photo_calls := [];
     renders := 0 |}.

(** The same with a cache file that holds no pickle. *)
Definition corrupt_world : world :=
  {| flickr_api_client := Some (λ _, sunset_photo);
     context := sunset_context;
     articles := [ {| _content := "See [flickr:id=12345] here" |} ];
     pages := [];
     get_template := λ _, Raise IOError;
     fs := {[ "/tmp/cache" := "garbage" ]};
     unwritable := ∅; writes := []; log := []; photo_calls := [];
     renders := 0 |}.

(** A remote service that fails on photo 1 and answers for the others. *)
Definition mixed_api (id : string) : photo :=
  if String.eqb id "1" then dead_photo else sunset_photo.

Definition mixed_world : world :=
  {| flickr_api_client := Some mixed_api;
     context := sunset_context;
     articles := [ {| _content := "[flickr:id=1] then [flickr:id=2]" |} ];
     pages := [];
     get_template := λ _, Raise IOError;
     fs := ∅; unwritable := ∅; writes := []; log := []; photo_calls := [];
     renders := 0 |}.

(** ** [setup_flickr]

    The hook of generator initialization.  It acts on [generator.settings],
    on the attributes of the client module (set with [setattr]) and on the
    generator's [flickr_api_client] attribute, and it logs. *)

Record setup_state := {
  settings : gmap string pyval;          (* generator.settings *)
  api_attrs : gmap string pyval;         (* attributes of the client module *)
  client_attached : bool;                (* generator.flickr_api_client is set *)
  setup_log : list (level * string)      (* log records, oldest first *)
}.

(** [d.setdefault(k, v)] *)
Definition setdefault (k : string) (v : pyval) (d : gmap string pyval)
  : gmap string pyval :=
  match d !! k with
  | Some _ => d
  | None => <[k := v]> d
  end.

(** One turn of the loop over [('TOKEN', 'KEY', 'SECRET')] *)
Definition setup_credential (st : setup_state) (key : string) : setup_state :=
  match getitem (settings st) ("FLICKR_API_" +:+ key) with
  | Ok value =>
      {| settings := settings st;
         api_attrs := <["API_" +:+ key := value]> (api_attrs st);
         client_attached := client_attached st;
         setup_log := setup_log st |}
  | Raise _ =>
      {| settings := settings st;
         api_attrs := api_attrs st;
         client_attached := client_attached st;
         setup_log :=
           setup_log st ++
           [(WARNING, "[flickrtag]: FLICKR_API_" +:+ key
                      +:+ " is not defined in the configuration")] |}
  end.

Definition default_link : pyval :=
  PyStr "https://github.com/haum/pelican-flickrtag".
Definition default_cache_location : pyval :=
  PyStr "/tmp/com.chrisstreeter.flickrtag-images.cache".

Definition setup_flickr (st : setup_state) : setup_state :=
  let st := fold_left setup_credential ["TOKEN"; "KEY"; "SECRET"] st in
  (* generator.flickr_api_client = api_client *)
  let attached := true in
  let log1 :=
    match getitem (settings st) "FLICKR_TAG_PLACE_HOLDER_PICT" with
    | Ok _ => setup_log st
    | Raise _ =>
        (setup_log st ++
         [(ERROR, "[flickrtag]: FLICKR_TAG_PLACE_HOLDER_PICT variable is mandatory in your config")])%list
    end in
  let '(settings1, log2) :=
    match getitem (settings st) "FLICKR_TAG_PLACE_HOLDER_LINK" with
    | Ok _ => (settings st, log1)
    | Raise _ =>
        (setdefault "FLICKR_TAG_PLACE_HOLDER_LINK" default_link (settings st),
         (log1 ++
          [(WARNING, "[flickrtag]: FLICKR_TAG_PLACE_HOLDER_LINK is set to default")])%list)
    end in
  let settings2 :=
    setdefault "FLICKR_TAG_CACHE_LOCATION" default_cache_location settings1 in
  let settings3 :=
    setdefault "FLICKR_TAG_INCLUDE_DIMENSIONS" (PyBool false) settings2 in
  let settings4 :=
    setdefault "FLICKR_TAG_IMAGE_SIZE" (PyStr "Medium 640") settings3 in
  {| settings := settings4; api_attrs := api_attrs st;
     client_attached := attached; setup_log := log2 |}.

(** The four settings [setup_flickr] gives a default to, with the
    default. *)
Definition setup_defaults : list (string * pyval) :=
  [ ("FLICKR_TAG_PLACE_HOLDER_LINK", default_link);
    ("FLICKR_TAG_CACHE_LOCATION", default_cache_location);
    ("FLICKR_TAG_INCLUDE_DIMENSIONS", PyBool false);
    ("FLICKR_TAG_IMAGE_SIZE", PyStr "Medium 640") ].

(** Settings with a key and a placeholder picture, nothing else. *)
Definition bare_setup : setup_state :=
  {| settings := {[ "FLICKR_API_KEY" := PyStr "k";
                    "FLICKR_TAG_PLACE_HOLDER_PICT" := PyStr "//p.png";
                    "FLICKR_TAG_IMAGE_SIZE" := PyStr "Medium" ]};
     api_attrs := ∅; client_attached := false; setup_log := [] |}.

Definition credential_warning (key : string) : level * string :=
  (WARNING, "[flickrtag]: FLICKR_API_" +:+ key
            +:+ " is not defined in the configuration").

Definition link_warning : level * string :=
  (WARNING, "[flickrtag]: FLICKR_TAG_PLACE_HOLDER_LINK is set to default").

(** ** Reference definitions for the other properties *)

(** The alias [size_for_alias] looks for: anything but ["Medium 640"] and
    ["Medium"] counts as ["Medium"]. *)
Definition effective_alias (alias : pyval) : pyval :=
  if negb (py_eq alias (PyStr "Medium 640") || py_eq alias (PyStr "Medium"))
  then PyStr "Medium" else alias.

(** The variant [url_for_alias] asks the photo for. *)
Definition variant_url (p : photo) (alias : pyval) : result pyval :=
  if bool_decide (alias = PyStr "Medium 640") then getMedium640 p
  else getMedium p.

Definition is_str (v : pyval) : bool :=
  match v with
  | PyStr _ => true
  | _ => false
  end.

(** Two size entries, the wanted one second. *)
Definition two_sizes : list (gmap string pyval) :=
  [ {[ "label" := PyStr "Square"; "width" := PyInt 75; "height" := PyInt 75 ]};
    {[ "label" := PyStr "Medium"; "width" := PyInt 500;
       "height" := PyInt 375 ]} ].

(** The kind the pass works on: ['article'] unless it is ['page']. *)
Definition norm_kind (ct_type : string) : string :=
  if negb (String.eqb ct_type "article" || String.eqb ct_type "page")
  then "article" else ct_type.

Definition is_article (ct_type : string) : bool :=
  String.eqb (norm_kind ct_type) "article".

(** The items after the loop over them, as a function: each body goes
    through [replace_loop] with the matches it had, and the renderings are
    counted on from one item to the next. *)
Fixpoint substituted (tpl : template) (ctx : gmap string pyval)
    (photo_mapping : gmap string (gmap string pyval)) (n : nat)
    (items : list item) : list item :=
  match items with
  | [] => []
  | it :: rest =>
      let ms := findall (_content it) in
      {| _content := replace_loop tpl ctx photo_mapping n (_content it) ms |}
      :: substituted tpl ctx photo_mapping
           (n + length (found_matches photo_mapping ms)) rest
  end.

(** The matches of all items, in order. *)
Fixpoint all_matches (items : list item) : list (string * string) :=
  match items with
  | [] => []
  | it :: rest => (findall (_content it) ++ all_matches rest)%list
  end.

(** The template the pass works with: the custom one when it is named and
    found, the built-in one when none is named or loading it raises an
    [Exception]; the exception when loading raises something else. *)
Definition chosen_template (w : world) : result template :=
  let name := dict_get (context w) "FLICKR_TAG_TEMPLATE_NAME" in
  if bool_decide (name = PyNone) then Ok default_template
  else match get_template w name with
       | Ok t => Ok t
       | Raise e => if is_Exception e then Ok default_template else Raise e
       end.

Definition template_message (w : world) : level * string :=
  (ERROR, "[flickrtag]: Unable to find the custom template "
          +:+ py_str (dict_get (context w) "FLICKR_TAG_TEMPLATE_NAME")).

Definition template_log (w : world) : list (level * string) :=
  let name := dict_get (context w) "FLICKR_TAG_TEMPLATE_NAME" in
  if bool_decide (name = PyNone) then []
  else match get_template w name with
       | Ok _ => []
       | Raise e => if is_Exception e then [template_message w] else []
       end.

(** A log record that is not the error of a match without a record. *)
Definition not_lost (r : level * string) : Prop := r ≠ lost_message.

(** A world with the article of [sunset_world] and a cache path that
    cannot be written. *)
Definition readonly_world : world :=
  {| flickr_api_client := Some (λ _, sunset_photo);
     context := sunset_context;
     articles := [ {| _content := "See [flickr:id=12345] here" |} ];
     pages := [];
     get_template := λ _, Raise IOError;
     fs := ∅; unwritable := {[ "/tmp/cache" ]}; writes := []; log := [];
     photo_calls := []; renders := 0 |}.

(** A world whose context names no cache location. *)
Definition pathless_world : world :=
  {| flickr_api_client := Some (λ _, sunset_photo);
     context := ∅;
     articles := [ {| _content := "See [flickr:id=12345] here" |} ];
     pages := [];
     get_template := λ _, Raise IOError;
     fs := ∅; unwritable := ∅; writes := []; log := [];
     photo_calls := []; renders := 0 |}.

(** A world whose items hold no tag. *)
Definition plain_world : world :=
  {| flickr_api_client := Some (λ _, sunset_photo);
     context := sunset_context;
     articles := [ {| _content := "Nothing [to] see here" |} ];
     pages := [ {| _content := "About" |} ];
     get_template := λ _, Raise IOError;
     fs := ∅; unwritable := ∅; writes := []; log := [];
     photo_calls := []; renders := 0 |}.

(** The items and the context are those of [w]. *)
Definition items_kept (w w' : world) : Prop :=
  articles w' = articles w ∧ pages w' = pages w ∧ context w' = context w.

(** The fragment of each record under a template whose output does not
    depend on the renderings made before. *)
Definition record_fragments (tpl : template) (ctx : gmap string pyval)
    (photo_mapping : gmap string (gmap string pyval)) : gmap string string :=
  (λ rec, tpl 0 (rec ∪ ctx)) <$> photo_mapping.

Definition sunset_record : gmap string pyval :=
  {[ "title" := PyStr "Sunset"; "raw_url" := PyStr "//img/1.jpg";
     "url" := PyStr "//flickr/1" ]}.

(** * Facts *)

(** ** Strings *)

Module PyStrFacts.
Import PyStr.

Lemma str_app_nil_r (s : string) : s +:+ "" = s.
Proof. induction s as [|c s IH]; simpl; [done | by rewrite IH]. Qed.

Lemma str_app_assoc (a b c : string) : (a +:+ b) +:+ c = a +:+ b +:+ c.
Proof. induction a as [|x a IH]; simpl; [done | by rewrite IH]. Qed.

Lemma str_length_app (a b : string) :
  String.length (a +:+ b) = String.length a + String.length b.
Proof. induction a as [|x a IH]; simpl; [done | by rewrite IH]. Qed.

Lemma startswith_spec (p s : string) :
  startswith p s = true ↔ ∃ r, s = p +:+ r.
Proof.
  revert s. induction p as [|a p IH]; intros s; simpl.
  - split; [intros _; by exists s | done].
  - destruct s as [|b s].
    + split; [done | intros [r Hr]; discriminate].
    + destruct (Ascii.eqb_spec a b) as [->|Hne].
      * rewrite IH. split; intros [r Hr]; exists r; [by rewrite Hr | by injection Hr].
      * split; [done | intros [r Hr]; injection Hr; intros; congruence].
Qed.

Lemma startswith_app (p s : string) : startswith p (p +:+ s) = true.
Proof. apply startswith_spec. by exists s. Qed.

Lemma drop_app (p s : string) : drop (String.length p) (p +:+ s) = s.
Proof. induction p as [|a p IH]; simpl; [by destruct s | done]. Qed.

Lemma length_drop (n : nat) (s : string) :
  String.length (drop n s) = String.length s - n.
Proof.
  revert s. induction n as [|n IH]; intros [|c s]; simpl; done.
Qed.

(** Enough fuel is as good as any other amount that is enough. *)
Lemma replace_from_fuel (old new : string) (f1 f2 : nat) (s : string) :
  old ≠ "" → (String.length s ≤ f1)%nat → (String.length s ≤ f2)%nat →
  replace_from f1 old new s = replace_from f2 old new s.
Proof.
  intros Hold. revert f2 s.
  induction f1 as [|f1 IH]; intros f2 s H1 H2.
  - destruct s; simpl in *; [by destruct f2 | lia].
  - destruct f2 as [|f2].
    + destruct s; simpl in *; [done | lia].
    + destruct s as [|c s]; [done |].
      cbn [replace_from]. destruct (startswith old (String c s)).
      * f_equal. apply IH.
        -- rewrite length_drop. destruct old; [done |]. simpl in *. lia.
        -- rewrite length_drop. destruct old; [done |]. simpl in *. lia.
      * f_equal. apply IH; simpl in *; lia.
Qed.

Lemma replace_nil (old new : string) : old ≠ "" → replace old new "" = "".
Proof. destruct old; [done |]. done. Qed.

(** The defining equation of [replace] on a non-empty string. *)
Lemma replace_cons (old new : string) (c : ascii) (s : string) :
  old ≠ "" →
  replace old new (String c s) =
    if startswith old (String c s)
    then new +:+ replace old new (drop (String.length old) (String c s))
    else String c (replace old new s).
Proof.
  intros Hold. destruct old as [|a old]; [done |].
  unfold replace. cbn [String.length replace_from].
  destruct (startswith (String a old) (String c s)).
  - f_equal. apply replace_from_fuel; [done | | done].
    cbn [String.length drop]. rewrite length_drop. lia.
  - done.
Qed.

End PyStrFacts.

(** ** The tag pattern *)

Section tag_facts.
Import PyStr PyStrFacts.

Lemma digit_not_bracket (c : ascii) :
  is_digit c = true → Ascii.eqb "[" c = false.
Proof.
  intros Hd. destruct c as [[] [] [] [] [] [] [] []];
    vm_compute in Hd |- *; congruence.
Qed.

Lemma digit_tag_char (c : ascii) : is_digit c = true → tag_char c = true.
Proof. intros Hd. unfold tag_char. rewrite Hd. apply orb_true_r. Qed.

Lemma has_char_app (c : ascii) (a b : string) :
  has_char c (a +:+ b) = has_char c a || has_char c b.
Proof.
  induction a as [|x a IH]; simpl; [done |]. by rewrite IH, orb_assoc.
Qed.

Lemma all_digits_no_bracket (d : string) :
  all_digits d = true → has_char "[" d = false.
Proof.
  induction d as [|c d IH]; cbn [all_digits has_char]; [done |].
  intros [Hc Hd]%andb_true_iff. by rewrite digit_not_bracket, IH.
Qed.

Lemma span_digits_spec (s d r : string) :
  span_digits s = (d, r) →
  s = d +:+ r ∧ all_digits d = true ∧
  match r with
  | "" => True
  | String c _ => is_digit c = false
  end.
Proof.
  revert d r. induction s as [|c s IH]; intros d r; simpl.
  - intros [= <- <-]. done.
  - destruct (is_digit c) eqn:Hc.
    + destruct (span_digits s) as [d' r'] eqn:Hs. intros [= <- <-].
      destruct (IH d' r' eq_refl) as (-> & Hd & Hr).
      simpl. by rewrite Hc, Hd.
    + intros [= <- <-]. simpl. by rewrite Hc.
Qed.

Lemma span_digits_app (d r : string) :
  all_digits d = true →
  match r with
  | "" => True
  | String c _ => is_digit c = false
  end →
  span_digits (d +:+ r) = (d, r).
Proof.
  induction d as [|c d IH]; simpl.
  - intros _ Hr. destruct r as [|c r]; simpl; [done | by rewrite Hr].
  - intros [Hc Hd]%andb_true_iff Hr. by rewrite Hc, IH.
Qed.

(** A successful attempt consumed exactly the tag of its identifier. *)
Lemma match_at_spec (s d r : string) :
  match_at s = Some (d, r) →
  s = tag d +:+ r ∧ all_digits d = true ∧ d ≠ "".
Proof.
  unfold match_at.
  destruct (startswith tag_open s) eqn:Hp; [| done].
  apply startswith_spec in Hp as [r0 ->]. rewrite drop_app.
  destruct (span_digits r0) as [d0 r1] eqn:Hs.
  apply span_digits_spec in Hs as (-> & Hd & _).
  destruct d0 as [|c d0]; [done |].
  destruct r1 as [|b r1]; [done |].
  destruct (Ascii.eqb_spec b "]") as [-> | Hne].
  - intros [= <- <-]. split; [| done].
    unfold tag. by rewrite !str_app_assoc.
  - intros Hm. exfalso.
    destruct b as [[] [] [] [] [] [] [] []]; try discriminate Hm.
    by apply Hne.
Qed.

(** An attempt at a tag succeeds with its identifier. *)
Lemma match_at_tag (d r : string) :
  all_digits d = true → d ≠ "" → match_at (tag d +:+ r) = Some (d, r).
Proof.
  intros Hd Hne. unfold match_at, tag.
  rewrite !str_app_assoc, startswith_app, drop_app.
  change ("]" +:+ r) with (String "]" r).
  rewrite (span_digits_app d (String "]" r) Hd eq_refl).
  by destruct d.
Qed.

Lemma match_at_shorter (s d r : string) :
  match_at s = Some (d, r) → (String.length r < String.length s)%nat.
Proof.
  intros (-> & _ & _)%match_at_spec. unfold tag.
  rewrite !str_length_app. simpl. lia.
Qed.

Lemma match_at_bracket (c : ascii) (s : string) :
  Ascii.eqb "[" c = false → match_at (String c s) = None.
Proof.
  intros Hc. unfold match_at, tag_open. cbn [startswith]. by rewrite Hc.
Qed.

Lemma findall_from_fuel (f1 f2 : nat) (s : string) :
  (String.length s ≤ f1)%nat → (String.length s ≤ f2)%nat →
  findall_from f1 s = findall_from f2 s.
Proof.
  revert f2 s. induction f1 as [|f1 IH]; intros f2 s H1 H2.
  - destruct s; simpl in *; [by destruct f2 | lia].
  - destruct f2 as [|f2]; [destruct s; simpl in *; [done | lia] |].
    destruct s as [|c s]; [done |]. cbn [findall_from].
    destruct (match_at (String c s)) as [[d r]|] eqn:Hm.
    + apply match_at_shorter in Hm. f_equal. apply IH; simpl in *; lia.
    + apply IH; simpl in *; lia.
Qed.

(** The defining equation of [findall]. *)
Lemma findall_cons (c : ascii) (s : string) :
  findall (String c s) =
    match match_at (String c s) with
    | Some (d, r) => (tag d, d) :: findall r
    | None => findall s
    end.
Proof.
  unfold findall. cbn [String.length findall_from].
  destruct (match_at (String c s)) as [[d r]|] eqn:Hm; [| done].
  apply match_at_shorter in Hm. f_equal.
  apply findall_from_fuel; simpl in *; lia.
Qed.

Lemma subst_pass_from_fuel (f : gmap string string) (f1 f2 : nat) (s : string) :
  (String.length s ≤ f1)%nat → (String.length s ≤ f2)%nat →
  subst_pass_from f1 f s = subst_pass_from f2 f s.
Proof.
  revert f2 s. induction f1 as [|f1 IH]; intros f2 s H1 H2.
  - destruct s; simpl in *; [by destruct f2 | lia].
  - destruct f2 as [|f2]; [destruct s; simpl in *; [done | lia] |].
    destruct s as [|c s]; [done |]. cbn [subst_pass_from].
    destruct (match_at (String c s)) as [[d r]|] eqn:Hm.
    + apply match_at_shorter in Hm.
      destruct (f !! d); f_equal; apply IH; simpl in *; lia.
    + f_equal. apply IH; simpl in *; lia.
Qed.

(** The defining equation of [subst_pass]. *)
Lemma subst_pass_cons (f : gmap string string) (c : ascii) (s : string) :
  subst_pass f (String c s) =
    match match_at (String c s) with
    | Some (d, r) =>
        match f !! d with
        | Some frag => frag +:+ subst_pass f r
        | None => tag d +:+ subst_pass f r
        end
    | None => String c (subst_pass f s)
    end.
Proof.
  unfold subst_pass. cbn [String.length subst_pass_from].
  destruct (match_at (String c s)) as [[d r]|] eqn:Hm; [| done].
  apply match_at_shorter in Hm.
  destruct (f !! d); f_equal; apply subst_pass_from_fuel; simpl in *; lia.
Qed.

(** [replace] copies a stretch without an opening bracket when the text
    looked for starts with one. *)
Lemma replace_skip (o new u x : string) :
  has_char "[" u = false →
  replace (String "[" o) new (u +:+ x) = u +:+ replace (String "[" o) new x.
Proof.
  induction u as [|c u IH]; cbn [has_char String.append]; [done |].
  intros [Hc Hu]%orb_false_iff.
  rewrite replace_cons by done.
  cbn [startswith]. rewrite Hc. by rewrite IH.
Qed.

End tag_facts.

(** ** Replacing tags one identifier at a time *)

Section replace_facts.
Import PyStr PyStrFacts.

Lemma tag_unfold (d : string) : tag d = String "[" (tag_inner d).
Proof. done. Qed.

Lemma tag_ne_nil (d : string) : tag d ≠ "".
Proof. done. Qed.

Lemma inner_chars_app (a b : string) :
  inner_chars (a +:+ b) = inner_chars a && inner_chars b.
Proof.
  induction a as [|c a IH]; cbn [inner_chars String.append]; [done |].
  by rewrite IH, andb_assoc.
Qed.

Lemma inner_chars_digits (d : string) :
  all_digits d = true → inner_chars d = true.
Proof.
  induction d as [|c d IH]; cbn [inner_chars all_digits]; [done |].
  intros [Hc Hd]%andb_true_iff.
  by rewrite digit_tag_char, digit_not_bracket, IH.
Qed.

Lemma inner_chars_tag (d : string) :
  all_digits d = true → inner_chars (tag_inner d) = true.
Proof.
  intros Hd. unfold tag_inner.
  rewrite !inner_chars_app, (inner_chars_digits d Hd). by vm_compute.
Qed.

Lemma inner_no_bracket (t : string) :
  inner_chars t = true → has_char "[" t = false.
Proof.
  induction t as [|c t IH]; cbn [inner_chars has_char]; [done |].
  intros [[_ Hc%negb_true_iff]%andb_true_iff Ht]%andb_true_iff.
  by rewrite Hc, IH.
Qed.

Lemma replace_app_old (old new x : string) :
  old ≠ "" → replace old new (old +:+ x) = new +:+ replace old new x.
Proof.
  intros Hold. destruct old as [|a o]; [done |].
  cbn [String.append]. rewrite replace_cons by done.
  change (String a (o +:+ x)) with (String a o +:+ x).
  by rewrite startswith_app, drop_app.
Qed.

(** Two tags that start at the same place carry the same identifier. *)
Lemma tag_prefix_inj (d d' x : string) :
  all_digits d = true → d ≠ "" → all_digits d' = true → d' ≠ "" →
  startswith (tag d) (tag d' +:+ x) = true → d = d'.
Proof.
  intros Hd Hne Hd' Hne' [r Hr]%startswith_spec.
  pose proof (match_at_tag d' x Hd' Hne') as H1.
  rewrite Hr, (match_at_tag d r Hd Hne) in H1. congruence.
Qed.

(** [replace] walks over the tag of another identifier. *)
Lemma replace_other_tag (d d' new x : string) :
  all_digits d = true → d ≠ "" → all_digits d' = true → d' ≠ "" →
  d ≠ d' →
  replace (tag d) new (tag d' +:+ x) = tag d' +:+ replace (tag d) new x.
Proof.
  intros Hd Hne Hd' Hne' Hdd.
  destruct (startswith (tag d) (tag d' +:+ x)) eqn:Hp.
  { by apply tag_prefix_inj in Hp. }
  rewrite (tag_unfold d') in Hp |- *. cbn [String.append] in Hp |- *.
  rewrite replace_cons, Hp by apply tag_ne_nil. f_equal.
  rewrite (tag_unfold d). apply replace_skip.
  by apply inner_no_bracket, inner_chars_tag.
Qed.

Lemma good_fragment_inv (frag : string) :
  good_fragment frag = true →
  ∃ c r, frag = String c r ∧ tag_char c = false ∧ has_char "[" frag = false.
Proof.
  destruct frag as [|c r]; [done |]. cbn [good_fragment].
  intros [H1%negb_true_iff H2%negb_true_iff]%andb_true_iff. eauto.
Qed.

(** A stretch of tag characters found at the start of the substituted text
    was at the start of the text before. *)
Lemma startswith_subst_pass (f : gmap string string) (t s : string) :
  good_fragments f → inner_chars t = true →
  startswith t (subst_pass f s) = true → startswith t s = true.
Proof.
  intros Hf. revert s. induction t as [|a t IH]; intros s Ht; [done |].
  cbn [inner_chars] in Ht.
  apply andb_true_iff in Ht as [[Ha Hb%negb_true_iff]%andb_true_iff Ht].
  destruct s as [|c s]; [done |]. rewrite subst_pass_cons.
  destruct (match_at (String c s)) as [[d r]|] eqn:Hm.
  - destruct (f !! d) as [frag|] eqn:Hfd.
    + apply Hf, good_fragment_inv in Hfd as (x & fr & -> & Hx & _).
      cbn [String.append startswith].
      destruct (Ascii.eqb_spec a x) as [->|]; [congruence | done].
    + rewrite tag_unfold. cbn [String.append startswith].
      rewrite Ascii.eqb_sym, Hb. done.
  - cbn [startswith]. destruct (Ascii.eqb a c); [apply IH, Ht | done].
Qed.

(** Where the pattern fails, no tag starts after the substitution
    either. *)
Lemma no_tag_after_subst (f : gmap string string) (d : string) (c : ascii)
    (s : string) :
  good_fragments f → all_digits d = true → d ≠ "" →
  match_at (String c s) = None →
  startswith (tag d) (String c (subst_pass f s)) = false.
Proof.
  intros Hf Hd Hne Hm.
  destruct (startswith (tag d) (String c (subst_pass f s))) eqn:Hp; [| done].
  exfalso. rewrite tag_unfold in Hp. cbn [startswith] in Hp.
  destruct (Ascii.eqb_spec "[" c) as [<-|]; [| done].
  apply startswith_subst_pass in Hp; [| done | by apply inner_chars_tag].
  apply startswith_spec in Hp as [r ->].
  change (String "[" (tag_inner d +:+ r)) with (tag d +:+ r) in Hm.
  by rewrite match_at_tag in Hm.
Qed.

(** One [replace] of the loop, seen on the single pass: the identifier
    gets the fragment unless it already has one. *)
Lemma replace_subst_pass (f : gmap string string) (d frag s : string) :
  good_fragments f → all_digits d = true → d ≠ "" →
  replace (tag d) frag (subst_pass f s)
  = subst_pass (f ∪ {[ d := frag ]}) s.
Proof.
  intros Hf Hd Hne.
  remember (String.length s) as n eqn:Hn. revert s Hn.
  induction n as [n IH] using lt_wf_ind. intros s ->.
  destruct s as [|c s]; [done |].
  rewrite !subst_pass_cons.
  destruct (match_at (String c s)) as [[d' r]|] eqn:Hm.
  - pose proof (match_at_shorter _ _ _ Hm) as Hlt.
    apply match_at_spec in Hm as (Hs & Hd' & Hne').
    destruct (f !! d') as [frag'|] eqn:Hfd.
    + rewrite (lookup_union_Some_l _ _ _ _ Hfd).
      pose proof (Hf _ _ Hfd) as (x & fr & -> & _ & Hb)%good_fragment_inv.
      rewrite (tag_unfold d), replace_skip by done.
      rewrite <- tag_unfold. f_equal. by eapply IH.
    + destruct (decide (d' = d)) as [->|Hdd].
      * rewrite lookup_union_r, lookup_singleton_eq by done.
        rewrite replace_app_old by apply tag_ne_nil.
        f_equal. by eapply IH.
      * rewrite lookup_union_r, lookup_singleton_ne by done.
        rewrite replace_other_tag by done.
        f_equal. by eapply IH.
  - rewrite replace_cons by apply tag_ne_nil.
    rewrite no_tag_after_subst by done.
    f_equal. eapply IH; [| done]. simpl. lia.
Qed.

End replace_facts.

(** ** The loop over the matches of one body *)

Section loop_facts.
Import PyStr PyStrFacts.

Lemma findall_tag_match (s : string) : Forall tag_match (findall s).
Proof.
  remember (String.length s) as n eqn:Hn. revert s Hn.
  induction n as [n IH] using lt_wf_ind. intros s ->.
  destruct s as [|c s]; [by constructor |].
  rewrite findall_cons.
  destruct (match_at (String c s)) as [[d r]|] eqn:Hm.
  - pose proof (match_at_shorter _ _ _ Hm) as Hlt.
    apply match_at_spec in Hm as (_ & Hd & Hne).
    constructor; [done | by eapply IH].
  - eapply IH; [| done]. simpl. lia.
Qed.

Lemma subst_pass_empty (s : string) : subst_pass ∅ s = s.
Proof.
  remember (String.length s) as n eqn:Hn. revert s Hn.
  induction n as [n IH] using lt_wf_ind. intros s ->.
  destruct s as [|c s]; [done |].
  rewrite subst_pass_cons.
  destruct (match_at (String c s)) as [[d r]|] eqn:Hm.
  - pose proof (match_at_shorter _ _ _ Hm) as Hlt.
    apply match_at_spec in Hm as (Hs & _ & _).
    rewrite lookup_empty, Hs. f_equal. by eapply IH.
  - f_equal. eapply IH; [| done]. simpl. lia.
Qed.

(** The loop of [replace] calls is the single pass with the fragments of
    the first renderings. *)
Lemma replace_loop_subst_pass (tpl : template) (ctx : gmap string pyval)
    (pm : gmap string (gmap string pyval)) (ms : list (string * string))
    (n : nat) (f : gmap string string) (body : string) :
  (∀ k d rec, pm !! d = Some rec → good_fragment (tpl k (rec ∪ ctx)) = true) →
  Forall tag_match ms → good_fragments f →
  replace_loop tpl ctx pm n (subst_pass f body) ms
  = subst_pass (first_renders tpl ctx pm n ms.*2 f) body.
Proof.
  intros Htpl Hms. revert n f.
  induction Hms as [|[full d] ms (Hfull & Hd & Hne) Hms IH]; intros n f Hf;
    [done |].
  simpl in Hfull, Hd, Hne. subst full.
  cbn [replace_loop first_renders fmap list_fmap snd fst].
  destruct (pm !! d) as [rec|] eqn:Hrec; [| by apply IH].
  rewrite replace_subst_pass by done. apply IH.
  intros d' frag [Hl | [_ Hl]]%lookup_union_Some_raw; [by eapply Hf |].
  apply lookup_singleton_Some in Hl as [_ <-]. by eapply Htpl.
Qed.



End loop_facts.

(** ** Running the monad *)

Section run_facts.

Lemma bind_run {A B} (m : M A) (k : A → M B) (w : world) :
  (m ≫= k) w =
    match m w with
    | Normal a w' => k a w'
    | Raised e w' => Raised e w'
    end.
Proof. done. Qed.

Lemma touch_nil (w : world) : touch [] [] 0 w = w.
Proof.
  destruct w. unfold touch, with_renders, with_photo_calls, with_log.
  simpl. by rewrite !app_nil_r, Nat.add_0_r.
Qed.

Lemma touch_touch l1 c1 n1 l2 c2 n2 (w : world) :
  touch l2 c2 n2 (touch l1 c1 n1 w) = touch (l1 ++ l2) (c1 ++ c2) (n1 + n2) w.
Proof.
  unfold touch, with_renders, with_photo_calls, with_log. simpl.
  by rewrite !app_assoc, Nat.add_assoc.
Qed.

Lemma logger_run (lv : level) (msg : string) (w : world) :
  logger lv msg w = Normal tt (touch [(lv, msg)] [] 0 w).
Proof.
  destruct w. unfold logger, touch, with_renders, with_photo_calls, with_log.
  simpl. by rewrite !app_nil_r, Nat.add_0_r.
Qed.

Lemma render_run (tpl : template) (ctx : gmap string pyval) (w : world) :
  render tpl ctx w = Normal (tpl (renders w) ctx) (touch [] [] 1 w).
Proof.
  destruct w. unfold render, touch, with_renders, with_photo_calls, with_log.
  simpl. by rewrite !app_nil_r, Nat.add_1_r.
Qed.

Lemma new_photo_run (api : string → photo) (id : string) (w : world) :
  new_photo api id w = Normal (api id) (touch [] [id] 0 w).
Proof.
  destruct w.
  unfold new_photo, touch, with_renders, with_photo_calls, with_log.
  simpl. by rewrite !app_nil_r, Nat.add_0_r.
Qed.

(** The inner loop of the substitution: the body it leaves, the error
    records of the matches without a record, one rendering for each of the
    others; it does not raise. *)
Lemma substitute_matches_run (tpl : template)
    (pm : gmap string (gmap string pyval)) (ms : list (string * string))
    (content : string) (w : world) :
  substitute_matches tpl pm content ms w
  = Normal (replace_loop tpl (context w) pm (renders w) content ms)
      (touch (const lost_message <$> lost_matches pm ms) []
             (length (found_matches pm ms)) w).
Proof.
  revert content w. induction ms as [|m ms IH]; intros content w.
  - simpl. by rewrite touch_nil.
  - cbn [substitute_matches replace_loop lost_matches found_matches
           List.filter].
    rewrite bind_run. unfold substitute_match.
    destruct (pm !! m.2) as [rec|] eqn:Hrec.
    + rewrite bind_run. cbn [get_world]. rewrite bind_run, render_run.
      cbn [mret M_ret]. rewrite IH, touch_touch.
      rewrite (bool_decide_true (is_Some (Some rec))) by (by eexists).
      rewrite (bool_decide_false (Some rec = None)) by done.
      cbn [length]. do 2 f_equal. simpl. f_equal. lia.
    + rewrite bind_run, logger_run. cbn [mret M_ret].
      rewrite IH, touch_touch.
      rewrite (bool_decide_false (is_Some None)) by (by intros [? ?]).
      rewrite (bool_decide_true (None = None)) by done.
      simpl. do 2 f_equal. lia.
Qed.

End run_facts.

(** ** Occurrences of tags *)

Section occurrence_facts.
Import PyStr PyStrFacts.

Lemma startswith_app_l (t p q : string) :
  startswith t p = true → startswith t (p +:+ q) = true.
Proof.
  intros [r ->]%startswith_spec. rewrite str_app_assoc. apply startswith_app.
Qed.

(** A prefix of [p +:+ q] is a prefix of [p] or runs over into [q]. *)
Lemma startswith_split (t p q : string) :
  startswith t (p +:+ q) = true →
  startswith t p = true ∨
  ∃ t2, t2 ≠ "" ∧ t = p +:+ t2 ∧ startswith t2 q = true.
Proof.
  revert t. induction p as [|a p IH]; intros t.
  - destruct t as [|b t]; [by left |]. right. by exists (String b t).
  - destruct t as [|b t]; [by left |]. cbn [String.append startswith].
    destruct (Ascii.eqb_spec b a) as [->|]; [| done].
    intros [Hl | (t2 & Hne & -> & Ht2)]%IH; [by left |].
    right. by exists t2.
Qed.

(** No tag runs from before another tag into it. *)
Lemma no_straddle (b d pre t2 post : string) :
  all_digits b = true → pre ≠ "" → t2 ≠ "" →
  tag b = pre +:+ t2 → startswith t2 (tag d +:+ post) = true → False.
Proof.
  intros Hb Hpre Ht2 Heq Hp.
  destruct t2 as [|x t2]; [done |]. destruct pre as [|y pre]; [done |].
  rewrite (tag_unfold d) in Hp. cbn [String.append startswith] in Hp.
  destruct (Ascii.eqb_spec x "[") as [->|]; [| done].
  rewrite tag_unfold in Heq. cbn [String.append] in Heq.
  injection Heq as _ Hin.
  pose proof (inner_no_bracket _ (inner_chars_tag b Hb)) as Hnb.
  rewrite Hin, has_char_app in Hnb. cbn [has_char] in Hnb.
  rewrite Ascii.eqb_refl, orb_true_r in Hnb. done.
Qed.

(** A tag that starts a text in which another tag occurs lies before that
    occurrence, or is it. *)
Lemma tag_before_tag (b d pre post : string) :
  all_digits b = true → pre ≠ "" →
  startswith (tag b) (pre +:+ tag d +:+ post) = true →
  ∃ pre', pre = tag b +:+ pre'.
Proof.
  intros Hb Hpre [Hl | (t2 & Hne & Heq & Ht2)]%startswith_split.
  - by apply startswith_spec in Hl.
  - exfalso. exact (no_straddle b d pre t2 post Hb Hpre Hne Heq Ht2).
Qed.

(** [replace] for one tag works on both sides of the tag of another
    identifier and leaves that tag in place. *)
Lemma replace_around_tag (b d new pre post : string) :
  all_digits b = true → b ≠ "" → all_digits d = true → d ≠ "" → b ≠ d →
  replace (tag b) new (pre +:+ tag d +:+ post)
  = replace (tag b) new pre +:+ tag d +:+ replace (tag b) new post.
Proof.
  intros Hb Hbne Hd Hdne Hbd.
  remember (String.length pre) as n eqn:Hn. revert pre Hn.
  induction n as [n IH] using lt_wf_ind. intros pre ->.
  destruct pre as [|c pre].
  - cbn [String.append]. rewrite replace_nil by apply tag_ne_nil.
    by apply replace_other_tag.
  - destruct (startswith (tag b) (String c pre +:+ tag d +:+ post)) eqn:Hp.
    + apply tag_before_tag in Hp as [pre' Hpre]; [| done..].
      rewrite Hpre, str_app_assoc, !replace_app_old by apply tag_ne_nil.
      rewrite str_app_assoc. f_equal. eapply IH; [| done].
      rewrite Hpre, tag_unfold, str_length_app. simpl. lia.
    + cbn [String.append] in Hp |- *.
      rewrite replace_cons, Hp by apply tag_ne_nil.
      rewrite (replace_cons _ _ c pre) by apply tag_ne_nil.
      destruct (startswith (tag b) (String c pre)) eqn:Hp'.
      { apply (startswith_app_l _ _ (tag d +:+ post)) in Hp'.
        cbn [String.append] in Hp'. congruence. }
      cbn [String.append]. f_equal. eapply IH; [| done]. simpl. lia.
Qed.

(** The loop of [replace] calls works on both sides of a tag whose
    identifier has no record. *)
Lemma replace_loop_around_lost (tpl : template) (ctx : gmap string pyval)
    (pm : gmap string (gmap string pyval)) (ms : list (string * string))
    (n : nat) (d pre post : string) :
  Forall tag_match ms → all_digits d = true → d ≠ "" → pm !! d = None →
  replace_loop tpl ctx pm n (pre +:+ tag d +:+ post) ms
  = replace_loop tpl ctx pm n pre ms +:+ tag d
    +:+ replace_loop tpl ctx pm n post ms.
Proof.
  intros Hms Hd Hne Hlost. revert n pre post.
  induction Hms as [|[full b] ms (Hfull & Hb & Hbne) Hms IH];
    intros n pre post; [done |].
  simpl in Hfull, Hb, Hbne. subst full. cbn [replace_loop snd fst].
  destruct (pm !! b) as [rec|] eqn:Hrec; [| apply IH].
  rewrite replace_around_tag by (done || congruence). apply IH.
Qed.

(** Every occurrence of a tag is a match. *)
Lemma findall_complete (d pre post : string) :
  all_digits d = true → d ≠ "" →
  (tag d, d) ∈ findall (pre +:+ tag d +:+ post).
Proof.
  intros Hd Hne.
  remember (String.length pre) as n eqn:Hn. revert pre Hn.
  induction n as [n IH] using lt_wf_ind. intros pre ->.
  destruct pre as [|c pre].
  - cbn [String.append]. rewrite tag_unfold. cbn [String.append].
    rewrite findall_cons.
    change (String "[" (tag_inner d +:+ post)) with (tag d +:+ post).
    rewrite match_at_tag by done. apply list_elem_of_here.
  - cbn [String.append]. rewrite findall_cons.
    destruct (match_at (String c (pre +:+ tag d +:+ post)))
      as [[b r]|] eqn:Hm.
    + apply match_at_spec in Hm as (Hs & Hb & Hbne).
      assert (startswith (tag b) (String c pre +:+ tag d +:+ post) = true)
        as Hp.
      { cbn [String.append]. rewrite Hs. apply startswith_app. }
      apply tag_before_tag in Hp as [pre' Hpre]; [| done..].
      change (String c (pre +:+ tag d +:+ post))
        with (String c pre +:+ tag d +:+ post) in Hs.
      rewrite Hpre, str_app_assoc in Hs. apply (inj (String.app _)) in Hs.
      subst r. apply list_elem_of_further. eapply IH; [| done].
      rewrite Hpre, tag_unfold, str_length_app. simpl. lia.
    + eapply IH; [| done]. simpl. lia.
Qed.

(** Every match is an occurrence of the tag of a non-empty run of
    digits. *)
Lemma findall_sound (s : string) (m : string * string) :
  m ∈ findall s → tag_match m ∧ occurs m.1 s.
Proof.
  intros Hin. split.
  { by eapply (proj1 (Forall_forall _ _) (findall_tag_match s)). }
  remember (String.length s) as n eqn:Hn. revert s Hn Hin.
  induction n as [n IH] using lt_wf_ind. intros s -> Hin.
  destruct s as [|c s]; [by apply elem_of_nil in Hin |].
  rewrite findall_cons in Hin.
  destruct (match_at (String c s)) as [[d r]|] eqn:Hm.
  - pose proof (match_at_shorter _ _ _ Hm) as Hlt.
    apply match_at_spec in Hm as (Hs & _ & _).
    apply elem_of_cons in Hin as [-> | Hin].
    + exists "", r. by rewrite Hs.
    + destruct (IH _ Hlt r eq_refl Hin) as (pre & post & ->).
      exists (tag d +:+ pre), post. by rewrite Hs, !str_app_assoc.
  - destruct (IH (String.length s) ltac:(simpl; lia) s eq_refl Hin)
      as (pre & post & ->).
    by exists (String c pre), post.
Qed.

End occurrence_facts.

(** * The substitution (C5, C6) *)

Section substitution.
Import PyStr PyStrFacts.


(** C6.  For every body in which the tag of an identifier without a record
    occurs, the inner loop of the substitution does not raise, logs one
    error for every match without a record (this occurrence is one of
    them), leaves this occurrence where it is, and goes on with the other
    matches on the text before it and on the text after it. *)
Theorem lost_tag_left_in_place (tpl : template)
    (pm : gmap string (gmap string pyval)) (w : world)
    (d pre post : string) :
  all_digits d = true → d ≠ "" → pm !! d = None →
  let body := pre +:+ tag d +:+ post in
  let ms := findall body in
  substitute_matches tpl pm body ms w
  = Normal
      (replace_loop tpl (context w) pm (renders w) pre ms
       +:+ tag d
       +:+ replace_loop tpl (context w) pm (renders w) post ms)
      (touch (const lost_message <$> lost_matches pm ms) []
             (length (found_matches pm ms)) w)
  ∧ (tag d, d) ∈ lost_matches pm ms
  ∧ lost_message ∈ log
      (touch (const lost_message <$> lost_matches pm ms) []
             (length (found_matches pm ms)) w).
Proof.
  intros Hd Hne Hlost body ms.
  assert ((tag d, d) ∈ lost_matches pm ms) as Hin.
  { unfold lost_matches. apply list_elem_of_In, filter_In. split.
    - apply list_elem_of_In. by apply findall_complete.
    - by apply bool_decide_eq_true. }
  split; [| split; [done |]].
  - rewrite substitute_matches_run. f_equal.
    apply replace_loop_around_lost; [apply findall_tag_match | done..].
  - cbn. apply elem_of_app. right.
    apply list_elem_of_fmap. by exists (tag d, d).
Qed.

End substitution.

(** * The tag scanner (C7) *)

Section scanner.
Import PyStr PyStrFacts.

Lemma elem_of_add_matches (ms : list (string * string)) (acc : gset string)
    (d : string) :
  d ∈ fold_left (λ ids (m : string * string), ids ∪ {[ m.2 ]}) ms acc
  ↔ d ∈ acc ∨ ∃ m, m ∈ ms ∧ m.2 = d.
Proof.
  revert acc. induction ms as [|m ms IH]; intros acc; simpl.
  - split; [by left | intros [? | (m & Hm & _)]; [done |]].
    by apply elem_of_nil in Hm.
  - rewrite IH, elem_of_union, elem_of_singleton. split.
    + intros [[? | ->] | (m' & Hm' & <-)]; [by left | right..].
      * exists m. split; [apply list_elem_of_here | done].
      * exists m'. split; [by apply list_elem_of_further | done].
    + intros [? | (m' & [-> | Hm']%elem_of_cons & <-)];
        [by left; left | by left; right | right; by exists m'].
Qed.

Lemma elem_of_scan_fold (items : list item) (acc : gset string) (d : string) :
  d ∈ fold_left
        (λ photo_ids it,
           fold_left (λ ids (m : string * string), ids ∪ {[ m.2 ]})
                     (findall (_content it)) photo_ids)
        items acc
  ↔ d ∈ acc ∨ ∃ it m, it ∈ items ∧ m ∈ findall (_content it) ∧ m.2 = d.
Proof.
  revert acc. induction items as [|it items IH]; intros acc; simpl.
  - split; [by left | intros [? | (it & m & Hit & _)]; [done |]].
    by apply elem_of_nil in Hit.
  - rewrite IH, elem_of_add_matches. split.
    + intros [[? | (m & Hm & <-)] | (it' & m & Hit & Hm & <-)];
        [by left | right..].
      * exists it, m. split; [apply list_elem_of_here | done].
      * exists it', m. split; [by apply list_elem_of_further | done].
    + intros [? | (it' & m & [-> | Hit]%elem_of_cons & Hm & <-)].
      * by left; left.
      * left; right. by exists m.
      * right. by exists it', m.
Qed.

Lemma elem_of_scan_ids (items : list item) (d : string) :
  d ∈ scan_ids items
  ↔ ∃ it, it ∈ items ∧ (tag d, d) ∈ findall (_content it).
Proof.
  unfold scan_ids. rewrite elem_of_scan_fold. split.
  - intros [Hd | (it & [full d'] & Hit & Hm & <-)];
      [by apply elem_of_empty in Hd |].
    exists it. split; [done |].
    destruct (findall_sound _ _ Hm) as [(Hfull & _) _].
    simpl in Hfull. by subst full.
  - intros (it & Hit & Hm). right. by exists it, (tag d, d).
Qed.

(** C7.  For every list of items the scanner returns the set of the
    identifiers that [findall] matches in some body; these are the
    non-empty runs of digits whose tag occurs in some body.  The set does
    not depend on the order of the items, scanning the same bodies a second
    time adds nothing to it, and the scan leaves the world, and so every
    item, as it was. *)
Theorem scan_ids_spec (items : list item) :
  (∀ d, d ∈ scan_ids items
        ↔ ∃ it, it ∈ items ∧ (tag d, d) ∈ findall (_content it))
  ∧ (∀ d, d ∈ scan_ids items
          ↔ ∃ it, it ∈ items ∧ all_digits d = true ∧ d ≠ ""
                  ∧ occurs (tag d) (_content it))
  ∧ (∀ items', items ≡ₚ items' → scan_ids items' = scan_ids items)
  ∧ scan_ids (items ++ items) = scan_ids items
  ∧ (∀ article w,
       scan_items article w
       = Normal (scan_ids (if article then articles w else pages w)) w).
Proof.
  split; [apply elem_of_scan_ids |]. split; [| split; [| split]].
  - intros d. rewrite elem_of_scan_ids. split.
    + intros (it & Hit & Hm). exists it. split; [done |].
      destruct (findall_sound _ _ Hm) as [(_ & Hd & Hne) Hocc]. done.
    + intros (it & Hit & Hd & Hne & pre & post & Hocc).
      exists it. split; [done |]. rewrite Hocc.
      by apply findall_complete.
  - intros items' Hperm. apply set_eq. intros d.
    rewrite !elem_of_scan_ids. by setoid_rewrite Hperm.
  - apply set_eq. intros d. rewrite !elem_of_scan_ids.
    setoid_rewrite elem_of_app. split.
    + intros (it & [Hit | Hit] & Hm); by exists it.
    + intros (it & Hit & Hm). exists it. split; [by left | done].
  - done.
Qed.

End scanner.

(** * The resolver (C2, C8, C10) *)

Section resolver.
Import PyStr PyStrFacts.

Lemma py_eq_str (v : pyval) (s : string) :
  py_eq v (PyStr s) = bool_decide (v = PyStr s).
Proof. by destruct v. Qed.

Lemma replace_absent (old new s : string) :
  old ≠ "" → contains old s = false → replace old new s = s.
Proof.
  intros Hold. induction s as [|c s IH]; [by rewrite replace_nil |].
  cbn [contains]. intros [Hp Hc]%orb_false_iff.
  by rewrite replace_cons, Hp, IH.
Qed.

(** [resolve] sets the entry of its identifier and no other. *)
Lemma resolve_insert (ctx : gmap string pyval) (p : photo) (id : string)
    (incl alias : pyval) (pm : gmap string (gmap string pyval)) :
  resolve ctx p id incl alias pm
  = <[id := resolved_record ctx p incl alias]> pm.
Proof.
  unfold resolve, try_block, resolved_record.
  destruct (base_fields p alias) as [[[title raw] url]|e]; [| done].
  destruct (truthy incl); [| done].
  destruct (lookup_size p alias) as [size|e];
    [| by rewrite insert_insert_eq].
  unfold getitem.
  destruct (size !! "width") as [wd|]; [| by rewrite insert_insert_eq].
  destruct (size !! "height") as [ht|].
  - by rewrite !alter_insert_eq.
  - by rewrite alter_insert_eq, insert_insert_eq.
Qed.

Lemma try_block_raise_placeholder (ctx : gmap string pyval) (p : photo)
    (id : string) (incl alias : pyval)
    (pm pm' : gmap string (gmap string pyval)) (e : exn) :
  try_block p id incl alias pm = (pm', Raise e) →
  resolved_record ctx p incl alias = placeholder ctx.
Proof.
  unfold try_block, resolved_record.
  destruct (base_fields p alias) as [[[title raw] url]|e']; [| done].
  destruct (truthy incl); [| done].
  destruct (lookup_size p alias) as [size|e']; [| done].
  unfold getitem.
  destruct (size !! "width") as [wd|]; [| done].
  by destruct (size !! "height") as [ht|].
Qed.

Lemma resolve_all_lookup (api : string → photo) (ctx : gmap string pyval)
    (incl alias : pyval) (ids : list string)
    (pm : gmap string (gmap string pyval)) (d : string) :
  resolve_all api ctx incl alias ids pm !! d
  = if bool_decide (d ∈ ids)
    then Some (resolved_record ctx (api d) incl alias)
    else pm !! d.
Proof.
  unfold resolve_all. revert pm.
  induction ids as [|id ids IH]; intros pm; [done |].
  cbn [fold_left]. rewrite IH, resolve_insert.
  destruct (decide (d ∈ ids)) as [Hin | Hin].
  - rewrite !bool_decide_true; [done | by right | done].
  - rewrite (bool_decide_false _ Hin).
    destruct (decide (d = id)) as [->|Hne].
    + rewrite bool_decide_true by left. by rewrite lookup_insert_eq.
    + rewrite bool_decide_false by (by intros [|]%elem_of_cons).
      by rewrite lookup_insert_ne.
Qed.

(** The fetch loop: the mapping it leaves, one log record and one call to
    the remote service for each identifier; it does not raise. *)
Lemma fetch_loop_run (api : string → photo) (incl alias : pyval)
    (ids : list string) (pm : gmap string (gmap string pyval)) (w : world) :
  fetch_loop api incl alias ids pm w
  = Normal (resolve_all api (context w) incl alias ids pm)
      (touch (fetch_message <$> ids) ids 0 w).
Proof.
  revert pm w. induction ids as [|id ids IH]; intros pm w.
  - simpl. by rewrite touch_nil.
  - cbn [fetch_loop]. rewrite bind_run, logger_run, bind_run, new_photo_run.
    rewrite bind_run. cbn [get_world]. rewrite IH, !touch_touch.
    done.
Qed.

End resolver.

Section resolver_claims.
Import PyStr PyStrFacts.

(** C2.  For every identifier whose [try] block raises, whatever the
    exception and wherever it was raised, [resolve] maps the identifier to
    the placeholder record, whose title is ["Placeholder"], whose raw_url
    and url are what the context holds for the placeholder picture and the
    placeholder link, and leaves the other entries alone; the fetch loop
    takes this identifier without raising and goes on with the others. *)
Theorem resolution_failure_gives_placeholder (ctx : gmap string pyval)
    (p : photo) (id : string) (incl alias : pyval)
    (pm pm' : gmap string (gmap string pyval)) (e : exn) :
  try_block p id incl alias pm = (pm', Raise e) →
  resolve ctx p id incl alias pm = <[id := placeholder ctx]> pm
  ∧ placeholder ctx !! "title" = Some (PyStr "Placeholder")
  ∧ placeholder ctx !! "raw_url"
    = Some (dict_get ctx "FLICKR_TAG_PLACE_HOLDER_PICT")
  ∧ placeholder ctx !! "url"
    = Some (dict_get ctx "FLICKR_TAG_PLACE_HOLDER_LINK")
  ∧ dom (placeholder ctx) = {[ "title"; "raw_url"; "url" ]}
  ∧ ∀ api rest w,
      api id = p → context w = ctx →
      fetch_loop api incl alias (id :: rest) pm w
      = Normal
          (resolve_all api ctx incl alias rest (<[id := placeholder ctx]> pm))
          (touch (fetch_message <$> id :: rest) (id :: rest) 0 w).
Proof.
  intros Hraise.
  pose proof (try_block_raise_placeholder ctx _ _ _ _ _ _ _ Hraise) as Hrec.
  split; [by rewrite resolve_insert, Hrec |].
  unfold placeholder at 1 2 3 4.
  split; [by rewrite lookup_insert_eq |].
  split; [by rewrite lookup_insert_ne, lookup_insert_eq |].
  split; [by rewrite !lookup_insert_ne, lookup_singleton_eq |].
  split.
  { rewrite !dom_insert_L, dom_singleton_L. set_solver. }
  intros api rest w Hapi Hctx. rewrite fetch_loop_run, Hctx.
  unfold resolve_all. cbn [fold_left].
  by rewrite Hapi, resolve_insert, Hrec.
Qed.

Lemma with_label_none (sizes : list (gmap string pyval)) (alias : pyval) :
  Forall (λ s, ∃ l, s !! "label" = Some l ∧ py_eq l alias = false) sizes →
  with_label sizes alias = Ok [].
Proof.
  induction 1 as [|s sizes (l & Hl & Hne) _ IH]; [done |].
  cbn [with_label]. unfold getitem. rewrite Hl. cbn.
  rewrite IH. cbn. by rewrite Hne.
Qed.

(** C10.  For every identifier whose title, image address and address
    resolve, when dimensions are asked for and the lookup of the size or of
    its width or height raises, the [try] block has stored the real record
    by then, and [resolve] puts the placeholder record in its place: title,
    raw_url and url of the photo are gone. *)
Theorem dimension_failure_discards_record (ctx : gmap string pyval)
    (p : photo) (id : string) (incl alias title raw url : pyval)
    (pm : gmap string (gmap string pyval)) :
  base_fields p alias = Ok (title, raw, url) →
  truthy incl = true →
  (∀ size, lookup_size p alias = Ok size →
           size !! "width" = None ∨ size !! "height" = None) →
  ∃ pm' e r,
    try_block p id incl alias pm = (pm', Raise e)
    ∧ pm' !! id = Some r
    ∧ r !! "title" = Some title ∧ r !! "raw_url" = Some raw
    ∧ r !! "url" = Some url
    ∧ resolve ctx p id incl alias pm !! id = Some (placeholder ctx)
    ∧ resolve ctx p id incl alias pm = <[id := placeholder ctx]> pm.
Proof.
  intros Hbase Hincl Hsize.
  assert (∃ pm' e r,
    try_block p id incl alias pm = (pm', Raise e)
    ∧ pm' !! id = Some r
    ∧ r !! "title" = Some title ∧ r !! "raw_url" = Some raw
    ∧ r !! "url" = Some url) as (pm' & e & r & Htry & Hr).
  { unfold try_block. rewrite Hbase, Hincl.
    destruct (lookup_size p alias) as [size|e] eqn:Hls.
    - unfold getitem. destruct (Hsize size eq_refl) as [Hw | Hh].
      + rewrite Hw. eexists _, _, _. split; [done |].
        rewrite lookup_insert_eq. split; [done |]. by simplify_map_eq.
      + destruct (size !! "width") as [wd|].
        * rewrite Hh. eexists _, _, _. split; [done |].
          rewrite lookup_alter_eq, lookup_insert_eq. cbn.
          split; [done |]. by simplify_map_eq.
        * eexists _, _, _. split; [done |].
          rewrite lookup_insert_eq. split; [done |]. by simplify_map_eq.
    - eexists _, _, _. split; [done |].
      rewrite lookup_insert_eq. split; [done |]. by simplify_map_eq. }
  exists pm', e, r. split; [done |]. split; [tauto |].
  split; [tauto |]. split; [tauto |]. split; [tauto |].
  pose proof (try_block_raise_placeholder ctx _ _ _ _ _ _ _ Htry) as Hrec.
  rewrite resolve_insert, Hrec. by rewrite lookup_insert_eq.
Qed.

End resolver_claims.

Section url_claims.
Import PyStr PyStrFacts.

Lemma url_for_alias_unfold (p : photo) (alias : pyval) (u : string) :
  (if bool_decide (alias = PyStr "Medium 640")
   then getMedium640 p else getMedium p) = Ok (PyStr u) →
  url_for_alias p alias
  = Ok (PyStr (replace "https:" "" (replace "http:" "" u))).
Proof.
  intros Hv. unfold url_for_alias. rewrite py_eq_str, Hv. done.
Qed.

(** C8, amended.  For every photo and alias, the image address is taken
    from the "Medium 640" variant exactly when the alias equals
    ["Medium 640"] and from the "Medium" variant otherwise, and what is
    returned is that address with every ["http:"] removed and then every
    ["https:"] removed; when the address is ["http:"] or ["https:"]
    followed by a rest in which neither of the two occurs, what is returned
    is that rest, unchanged. *)
Theorem url_for_alias_strips_scheme (p : photo) (alias : pyval)
    (u rest : string) :
  (if bool_decide (alias = PyStr "Medium 640")
   then getMedium640 p else getMedium p) = Ok (PyStr u) →
  url_for_alias p alias
  = Ok (PyStr (replace "https:" "" (replace "http:" "" u)))
  ∧ (u = "http:" +:+ rest ∨ u = "https:" +:+ rest →
     contains "http:" rest = false → contains "https:" rest = false →
     url_for_alias p alias = Ok (PyStr rest)).
Proof.
  intros Hv. split; [by apply url_for_alias_unfold |].
  intros Hu Hhttp Hhttps. rewrite (url_for_alias_unfold _ _ _ Hv).
  do 2 f_equal. destruct Hu as [-> | ->].
  - rewrite replace_app_old by done. cbn [String.append].
    rewrite (replace_absent "http:" "" rest) by done.
    by apply replace_absent.
  - rewrite (replace_absent "http:" "" ("https:" +:+ rest)).
    + rewrite replace_app_old by done. cbn [String.append].
      by apply replace_absent.
    + done.
    + cbn. by rewrite Hhttp.
Qed.

End url_claims.

(** * The pass as a whole *)

Section pass_facts.
Context `{Pickle}.

Lemma touch_store_kept l n (w : world) : store_kept w (touch l [] n w).
Proof. unfold store_kept, touch. simpl. by rewrite app_nil_r. Qed.

Lemma store_kept_refl (w : world) : store_kept w w.
Proof. done. Qed.

Lemma store_kept_trans (w1 w2 w3 : world) :
  store_kept w1 w2 → store_kept w2 w3 → store_kept w1 w3.
Proof.
  unfold store_kept. intros (-> & -> & -> & -> & ->) (-> & -> & -> & -> & ->).
  done.
Qed.

(** The loop over the items does not raise; it adds log records and
    renderings to the world and nothing else. *)
Lemma substitute_items_run (tpl : template)
    (pm : gmap string (gmap string pyval)) (items : list item) (w : world) :
  ∃ items' l k,
    substitute_items tpl pm items w = Normal items' (touch l [] k w)
    ∧ length items' = length items.
Proof.
  revert w. induction items as [|it items IH]; intros w.
  - exists [], [], 0. simpl. by rewrite touch_nil.
  - cbn [substitute_items]. rewrite bind_run, substitute_matches_run.
    destruct (IH (touch (const lost_message <$>
                           lost_matches pm (findall (_content it))) []
                        (length (found_matches pm (findall (_content it))))
                        w)) as (items' & l & k & Hrun & Hlen).
    rewrite bind_run, Hrun, touch_touch. cbn [mret M_ret].
    eexists _, _, _. split; [done |]. simpl. by rewrite Hlen.
Qed.

Lemma choose_template_run (w : world) :
  ∃ l, world_of (choose_template w) = touch l [] 0 w.
Proof.
  unfold choose_template. rewrite bind_run. cbn [get_world].
  case_bool_decide.
  - exists []. by rewrite touch_nil.
  - unfold try_except, lift.
    destruct (get_template w _) as [tpl|e].
    + exists []. by rewrite touch_nil.
    + cbn [raise]. destruct (is_Exception e).
      * rewrite bind_run, logger_run. by eexists.
      * exists []. by rewrite touch_nil.
Qed.

Lemma substitute_phase_store (ct_type : string) (article : bool)
    (items : list item) (pm : gmap string (gmap string pyval)) (w : world) :
  store_kept w (world_of (substitute_phase ct_type article items pm w)).
Proof.
  unfold substitute_phase. rewrite bind_run.
  destruct (choose_template_run w) as [l Hl].
  destruct (choose_template w) as [tpl w1|e w1]; simpl in Hl; subst w1;
    [| apply touch_store_kept].
  rewrite bind_run, logger_run, touch_touch, bind_run.
  match goal with
  | |- context [substitute_items tpl pm items ?w2] =>
      destruct (substitute_items_run tpl pm items w2)
        as (items' & l' & k & -> & _)
  end.
  rewrite touch_touch. unfold set_items. cbn [world_of].
  unfold store_kept, touch. simpl. by rewrite app_nil_r.
Qed.

Lemma load_cache_run (tmp_file : pyval) (ids : gset string) (w : world) :
  load_cache tmp_file ids w =
    match read_cache (fs w) tmp_file with
    | Ok pm => Normal (pm, elements (ids ∖ dom pm)) w
    | Raise e =>
        if load_caught e then Normal (∅, elements ids) w else Raised e w
    end.
Proof.
  unfold load_cache, read_cache, try_except, open_read.
  rewrite bind_run, bind_run.
  destruct tmp_file as [| |z|p]; try done.
  destruct (fs w !! p) as [data|]; [| done].
  rewrite bind_run. unfold lift.
  destruct (pickle_load data) as [pm|e]; [done |].
  cbn [raise]. by destruct (load_caught e).
Qed.

(** After a load that completes, the identifiers to fetch are the
    referenced ones that the starting mapping lacks. *)
Lemma load_cache_start (ids : gset string) (w w1 : world)
    (pm0 : gmap string (gmap string pyval)) :
  start_mapping w = Some pm0 → fs w1 = fs w →
  load_cache (cache_location w) ids w1
  = Normal (pm0, elements (ids ∖ dom pm0)) w1.
Proof.
  unfold start_mapping. intros Hstart Hfs. rewrite load_cache_run, Hfs.
  destruct (read_cache (fs w) (cache_location w)) as [pm|e].
  - by injection Hstart as ->.
  - destruct (load_caught e); [| done]. injection Hstart as <-.
    by rewrite dom_empty_L, difference_empty_L.
Qed.

Lemma kind_items_norm (ct_type : string) (w : world) :
  let ct :=
    if negb (String.eqb ct_type "article" || String.eqb ct_type "page")
    then "article" else ct_type in
  (if String.eqb ct "article" then articles w else pages w)
  = kind_items ct_type w.
Proof.
  unfold kind_items.
  destruct (String.eqb_spec ct_type "article") as [->|Ha]; [done |].
  destruct (String.eqb_spec ct_type "page") as [->|Hp]; [done |].
  done.
Qed.

End pass_facts.

Section pass_store.
Context `{Pickle}.

(** The pass up to the cache phase only writes two log records. *)
Lemma generic_replace_unfold (ct_type : string) (w : world)
    (api : string → photo) :
  flickr_api_client w = Some api →
  ∃ l ct a,
    generic_replace ct_type w =
      match cache_phase api (cache_location w) (include_dimensions_of w)
              (size_alias_of w) (scan_ids (kind_items ct_type w))
              (touch l [] 0 w) with
      | Normal pm w3 => substitute_phase ct a (kind_items ct_type w) pm w3
      | Raised e w3 => Raised e w3
      end.
Proof.
  intros Hapi. unfold generic_replace. rewrite bind_run. cbn [get_world].
  rewrite Hapi, bind_run, logger_run, bind_run. unfold scan_items at 1.
  cbn [touch with_renders with_photo_calls with_log articles pages].
  rewrite (kind_items_norm ct_type w).
  rewrite bind_run, logger_run, touch_touch, bind_run.
  eexists _, _, _. reflexivity.
Qed.

Lemma cache_phase_nothing_missing (api : string → photo)
    (incl alias : pyval) (ids : gset string) (w w1 : world)
    (pm0 : gmap string (gmap string pyval)) :
  start_mapping w = Some pm0 → fs w1 = fs w →
  elements (ids ∖ dom pm0) = [] →
  ∃ l, cache_phase api (cache_location w) incl alias ids w1
       = Normal pm0 (touch l [] 0 w1).
Proof.
  intros Hstart Hfs Hnil. unfold cache_phase.
  rewrite bind_run, (load_cache_start _ _ _ _ Hstart Hfs), Hnil.
  cbn [fetch_and_store]. rewrite bind_run, logger_run. by eexists.
Qed.

Lemma start_mapping_path (w : world)
    (pm0 : gmap string (gmap string pyval)) :
  start_mapping w = Some pm0 → ∃ p, cache_location w = PyStr p.
Proof.
  unfold start_mapping, read_cache.
  destruct (cache_location w) as [| |z|p]; try done. by exists p.
Qed.

Lemma cache_phase_missing (api : string → photo)
    (incl alias : pyval) (ids : gset string) (w w1 : world)
    (pm0 : gmap string (gmap string pyval)) (p : string) :
  start_mapping w = Some pm0 → fs w1 = fs w →
  cache_location w = PyStr p →
  elements (ids ∖ dom pm0) ≠ [] →
  let todo := elements (ids ∖ dom pm0) in
  let pm := resolve_all api (context w1) incl alias todo pm0 in
  ∃ l,
    cache_phase api (cache_location w) incl alias ids w1
    = if bool_decide (p ∈ unwritable w1)
      then Raised IOError (touch l todo 0 w1)
      else Normal pm (with_file p (pickle_dumps pm) (touch l todo 0 w1)).
Proof.
  intros Hstart Hfs Hpath Hne todo pm. unfold cache_phase.
  rewrite bind_run, (load_cache_start _ _ _ _ Hstart Hfs).
  fold todo. fold todo in Hne. unfold fetch_and_store.
  destruct todo as [|id rest] eqn:Htodo; [done |].
  rewrite bind_run, logger_run, bind_run, fetch_loop_run, touch_touch.
  cbn [context touch with_renders with_photo_calls with_log].
  fold pm. rewrite bind_run, Hpath. unfold dump_cache.
  cbn [unwritable touch with_renders with_photo_calls with_log].
  eexists. destruct (bool_decide (p ∈ unwritable w1)); reflexivity.
Qed.

(** Without an API object the pass logs an error and returns. *)
Lemma generic_replace_no_api (ct_type : string) (w : world) :
  flickr_api_client w = None →
  generic_replace ct_type w
  = Normal tt
      (touch [(ERROR, "[flickrtag]: Unable to get the Flickr API object")]
             [] 0 w).
Proof.
  intros Hapi. unfold generic_replace. rewrite bind_run. cbn [get_world].
  by rewrite Hapi, logger_run.
Qed.

(** What a pass that got past its load leaves in the file system and in
    the list of calls to the remote service. *)
Lemma generic_replace_store (ct_type : string) (w : world)
    (api : string → photo) (pm0 : gmap string (gmap string pyval))
    (p : string) :
  flickr_api_client w = Some api →
  start_mapping w = Some pm0 →
  cache_location w = PyStr p →
  let w' := world_of (generic_replace ct_type w) in
  let todo := elements (missing ct_type w pm0) in
  let pm := fetched_mapping api ct_type w pm0 in
  (todo = [] →
     fs w' = fs w ∧ writes w' = writes w ∧ photo_calls w' = photo_calls w
     ∧ context w' = context w)
  ∧ (todo ≠ [] → p ∉ unwritable w →
     fs w' = <[p := pickle_dumps pm]> (fs w)
     ∧ writes w' = (writes w ++ [(p, pickle_dumps pm)])%list
     ∧ photo_calls w' = (photo_calls w ++ todo)%list
     ∧ context w' = context w)
  ∧ (todo ≠ [] → p ∈ unwritable w →
     fs w' = fs w ∧ writes w' = writes w
     ∧ ∃ e, generic_replace ct_type w = Raised e w').
Proof.
  intros Hapi Hstart Hpath w' todo pm.
  destruct (generic_replace_unfold ct_type w api Hapi) as (l & ct & a & Hrun).
  unfold w'. rewrite Hrun. clear w' Hrun.
  split; [| split].
  - intros Hnil.
    destruct (cache_phase_nothing_missing api (include_dimensions_of w)
                (size_alias_of w) (scan_ids (kind_items ct_type w))
                w (touch l [] 0 w) pm0 Hstart eq_refl Hnil) as [l' ->].
    cbv beta iota.
    match goal with
    | |- context [substitute_phase ct a ?items ?m ?w3] =>
        destruct (substitute_phase_store ct a items m w3)
          as (-> & -> & -> & -> & _)
    end.
    unfold touch. simpl. by rewrite !app_nil_r.
  - intros Hne Hw.
    destruct (cache_phase_missing api (include_dimensions_of w)
                (size_alias_of w) (scan_ids (kind_items ct_type w))
                w (touch l [] 0 w) pm0 p Hstart eq_refl Hpath Hne)
      as [l' ->].
    cbn [unwritable touch with_renders with_photo_calls with_log].
    rewrite bool_decide_false by done. cbv beta iota.
    match goal with
    | |- context [substitute_phase ct a ?items ?m ?w3] =>
        destruct (substitute_phase_store ct a items m w3)
          as (-> & -> & -> & -> & _)
    end.
    unfold touch. simpl. by rewrite app_nil_r.
  - intros Hne Hw.
    destruct (cache_phase_missing api (include_dimensions_of w)
                (size_alias_of w) (scan_ids (kind_items ct_type w))
                w (touch l [] 0 w) pm0 p Hstart eq_refl Hpath Hne)
      as [l' ->].
    cbn [unwritable touch with_renders with_photo_calls with_log].
    rewrite bool_decide_true by done.
    split; [done |]. split; [done |]. by eexists.
Qed.

End pass_store.

(** * The cache (C1, C3, C4, C9) *)

Section cache_claims.
Context `{Pickle}.

Lemma fetched_mapping_lookup (api : string → photo) (ct_type : string)
    (w : world) (pm0 : gmap string (gmap string pyval)) (d : string) :
  fetched_mapping api ct_type w pm0 !! d
  = if bool_decide (d ∈ missing ct_type w pm0)
    then Some (resolved_record (context w) (api d)
                 (include_dimensions_of w) (size_alias_of w))
    else pm0 !! d.
Proof.
  unfold fetched_mapping. rewrite resolve_all_lookup.
  destruct (decide (d ∈ missing ct_type w pm0)) as [Hin | Hin].
  - rewrite !bool_decide_true; [done.. |]. by apply elem_of_elements.
  - rewrite !bool_decide_false; [done.. |]. by rewrite elem_of_elements.
Qed.

(** The mapping after the cache phase holds what was loaded and an entry
    for every missing identifier, and nothing else. *)
Lemma fetched_mapping_complete (api : string → photo) (ct_type : string)
    (w : world) (pm0 : gmap string (gmap string pyval)) :
  pm0 ⊆ fetched_mapping api ct_type w pm0
  ∧ dom (fetched_mapping api ct_type w pm0)
    = dom pm0 ∪ missing ct_type w pm0.
Proof.
  split.
  - apply map_subseteq_spec. intros d r Hd.
    rewrite fetched_mapping_lookup, bool_decide_false; [done |].
    unfold missing. intros [_ Hnot]%elem_of_difference.
    apply Hnot, elem_of_dom. by eexists.
  - apply set_eq. intros d.
    rewrite elem_of_union, !elem_of_dom, fetched_mapping_lookup.
    case_bool_decide as Hin.
    + split; [by right | by eexists].
    + split; [by left | by intros [? | ?]].
Qed.

(** C1.  For every run of the pass that has an API object and gets past
    its load, with a cache path that can be written: either no referenced
    identifier is missing from the mapping the pass starts from, and then
    no file is written and the remote service is not called; or some are
    missing, and then the one file written is the cache file, with the
    complete mapping (all that was loaded and an entry for every missing
    identifier) in the place of what it held. *)
Theorem cache_written_iff_missing (ct_type : string) (w : world)
    (api : string → photo) (pm0 : gmap string (gmap string pyval))
    (p : string) :
  flickr_api_client w = Some api →
  start_mapping w = Some pm0 →
  cache_location w = PyStr p →
  p ∉ unwritable w →
  let w' := world_of (generic_replace ct_type w) in
  let pm := fetched_mapping api ct_type w pm0 in
  (missing ct_type w pm0 = ∅
   ∧ writes w' = writes w ∧ fs w' = fs w
   ∧ photo_calls w' = photo_calls w)
  ∨ (missing ct_type w pm0 ≠ ∅
     ∧ writes w' = (writes w ++ [(p, pickle_dumps pm)])%list
     ∧ fs w' = <[p := pickle_dumps pm]> (fs w)
     ∧ pm0 ⊆ pm
     ∧ dom pm = dom pm0 ∪ missing ct_type w pm0).
Proof.
  intros Hapi Hstart Hpath Hw w' pm.
  destruct (generic_replace_store ct_type w api pm0 p Hapi Hstart Hpath)
    as (Hnone & Hsome & _).
  destruct (decide (missing ct_type w pm0 = ∅)) as [Hm | Hm].
  - left. split; [done |].
    destruct Hnone as (? & ? & ? & _); [| done].
    rewrite Hm. apply elements_empty.
  - right. split; [done |].
    destruct Hsome as (? & ? & ? & _); [| done |].
    { by intros ?%elements_empty_inv%leibniz_equiv. }
    destruct (fetched_mapping_complete api ct_type w pm0). done.
Qed.

(** C4.  For every run of the pass that has an API object, gets past its
    load and can write its cache path, when some referenced identifiers
    are missing: the cache file then holds the mapping in memory; that
    mapping has an entry for each missing identifier, which is what
    resolving this identifier alone gives; it is the placeholder when the
    resolution of the identifier raises; and it is the same whatever the
    remote service does for the other identifiers. *)
Theorem missing_ids_resolved_and_persisted (ct_type : string) (w : world)
    (api : string → photo) (pm0 : gmap string (gmap string pyval))
    (p : string) :
  flickr_api_client w = Some api →
  start_mapping w = Some pm0 →
  cache_location w = PyStr p →
  p ∉ unwritable w →
  missing ct_type w pm0 ≠ ∅ →
  let w' := world_of (generic_replace ct_type w) in
  let pm := fetched_mapping api ct_type w pm0 in
  (∃ w2, cache_phase api (cache_location w) (include_dimensions_of w)
           (size_alias_of w) (scan_ids (kind_items ct_type w)) w
         = Normal pm w2)
  ∧ fs w' !! p = Some (pickle_dumps pm)
  ∧ (∀ d, d ∈ missing ct_type w pm0 →
       pm !! d = Some (resolved_record (context w) (api d)
                         (include_dimensions_of w) (size_alias_of w))
       ∧ pm !! d = resolve (context w) (api d) d (include_dimensions_of w)
                     (size_alias_of w) ∅ !! d)
  ∧ (∀ x pmx pmx' e,
       x ∈ missing ct_type w pm0 →
       try_block (api x) x (include_dimensions_of w) (size_alias_of w) pmx
       = (pmx', Raise e) →
       pm !! x = Some (placeholder (context w)))
  ∧ (∀ api' y,
       y ∈ missing ct_type w pm0 → api' y = api y →
       fetched_mapping api' ct_type w pm0 !! y = pm !! y).
Proof.
  intros Hapi Hstart Hpath Hw Hm w' pm.
  destruct (generic_replace_store ct_type w api pm0 p Hapi Hstart Hpath)
    as (_ & Hsome & _).
  assert (elements (missing ct_type w pm0) ≠ []) as Hne.
  { by intros ?%elements_empty_inv%leibniz_equiv. }
  destruct Hsome as (Hfs & _); [done.. |].
  split; [| split; [| split; [| split]]].
  - destruct (cache_phase_missing api (include_dimensions_of w)
                (size_alias_of w) (scan_ids (kind_items ct_type w))
                w w pm0 p Hstart eq_refl Hpath Hne) as [l ->].
    rewrite bool_decide_false by done. by eexists.
  - unfold w'. by rewrite Hfs, lookup_insert_eq.
  - intros d Hd. unfold pm.
    rewrite fetched_mapping_lookup, bool_decide_true by done.
    split; [done |]. by rewrite resolve_insert, lookup_insert_eq.
  - intros x pmx pmx' e Hx Hraise. unfold pm.
    rewrite fetched_mapping_lookup, bool_decide_true by done.
    by rewrite (try_block_raise_placeholder _ _ _ _ _ _ _ _ Hraise).
  - intros api' y Hy Heq. unfold pm.
    rewrite !fetched_mapping_lookup, !bool_decide_true by done.
    by rewrite Heq.
Qed.

End cache_claims.

Section load_claims.
Context `{Pickle}.

Lemma load_caught_iff (e : exn) :
  load_caught e = true ↔ e = IOError ∨ e = EOFError.
Proof.
  destruct e; cbn;
    (split; [intros ?; (by left) || (by right) || done | intros [?|?]; done]).
Qed.

(** A load that raises past the [except] ends the pass. *)
Lemma generic_replace_load_raises (ct_type : string) (w : world)
    (api : string → photo) (e : exn) :
  flickr_api_client w = Some api →
  read_cache (fs w) (cache_location w) = Raise e →
  load_caught e = false →
  ∃ w', generic_replace ct_type w = Raised e w'.
Proof.
  intros Hapi Hread Hcaught.
  destruct (generic_replace_unfold ct_type w api Hapi) as (l & ct & a & ->).
  unfold cache_phase. rewrite bind_run, load_cache_run.
  cbn [fs touch with_renders with_photo_calls with_log].
  rewrite Hread, Hcaught. by eexists.
Qed.

(** C3, amended.  For every state of the cache file at the configured
    path: when the file is absent, or when reading it raises [IOError] or
    [EOFError] (as [pickle.load] does on a file that is empty or cut
    short), the load step does not raise and the pass starts from the empty
    mapping with every referenced identifier to fetch; when reading it
    raises any other exception (as [pickle.load] does on corrupt data), the
    load step raises it, and so does the pass. *)
Theorem load_failure_handling (ct_type : string) (w : world) (p : string)
    (ids : gset string) :
  cache_location w = PyStr p →
  (fs w !! p = None →
     load_cache (PyStr p) ids w = Normal (∅, elements ids) w
     ∧ start_mapping w = Some ∅)
  ∧ (∀ data e,
       fs w !! p = Some data → pickle_load data = Raise e →
       (e = IOError ∨ e = EOFError →
          load_cache (PyStr p) ids w = Normal (∅, elements ids) w
          ∧ start_mapping w = Some ∅)
       ∧ (e ≠ IOError → e ≠ EOFError →
            load_cache (PyStr p) ids w = Raised e w
            ∧ start_mapping w = None
            ∧ ∀ api, flickr_api_client w = Some api →
                     ∃ w', generic_replace ct_type w = Raised e w')).
Proof.
  intros Hpath. split.
  - intros Hnone. unfold start_mapping.
    rewrite load_cache_run, Hpath. cbn [read_cache]. by rewrite Hnone.
  - intros data e Hdata Hload.
    assert (read_cache (fs w) (cache_location w) = Raise e) as Hread.
    { rewrite Hpath. cbn [read_cache]. by rewrite Hdata. }
    split.
    + intros He%load_caught_iff. unfold start_mapping.
      rewrite load_cache_run, <- Hpath, Hread, He. done.
    + intros H1 H2.
      assert (load_caught e = false) as He.
      { destruct (load_caught e) eqn:Hc; [| done].
        apply load_caught_iff in Hc as [|]; done. }
      unfold start_mapping.
      rewrite load_cache_run, <- Hpath, Hread, He.
      split; [done |]. split; [done |].
      intros api Hapi. by eapply generic_replace_load_raises.
Qed.

(** Storing and loading through the cache file, whatever the serializer:
    the store puts the serialization of the whole mapping at the path in the
    place of what was there, and the load that follows gets what the
    serializer reads back from it, nothing added and nothing lost. *)
Lemma dump_then_read (m : gmap string (gmap string pyval)) (p : string)
    (w : world) :
  p ∉ unwritable w →
  dump_cache (PyStr p) m w = Normal tt (with_file p (pickle_dumps m) w)
  ∧ fs (with_file p (pickle_dumps m) w) = <[p := pickle_dumps m]> (fs w)
  ∧ read_cache (fs (with_file p (pickle_dumps m) w)) (PyStr p)
    = pickle_load (pickle_dumps m).
Proof.
  intros Hw. split; [| split; [done |]].
  - unfold dump_cache. by rewrite bool_decide_false.
  - cbn [read_cache fs with_file]. by rewrite lookup_insert_eq.
Qed.

(** The same over two passes: a pass that fetched something leaves a cache
    file from which the next pass starts with the mapping the first one
    ended with. *)
Lemma next_pass_starts_from_persisted (ct_type : string) (w : world)
    (api : string → photo) (pm0 : gmap string (gmap string pyval))
    (p : string) :
  flickr_api_client w = Some api →
  start_mapping w = Some pm0 →
  cache_location w = PyStr p →
  p ∉ unwritable w →
  missing ct_type w pm0 ≠ ∅ →
  let pm := fetched_mapping api ct_type w pm0 in
  pickle_load (pickle_dumps pm) = Ok pm →
  start_mapping (world_of (generic_replace ct_type w)) = Some pm.
Proof.
  intros Hapi Hstart Hpath Hw Hm pm Hrt.
  destruct (generic_replace_store ct_type w api pm0 p Hapi Hstart Hpath)
    as (_ & Hsome & _).
  destruct Hsome as (Hfs & _ & _ & Hctx); [| done |].
  { by intros ?%elements_empty_inv%leibniz_equiv. }
  unfold start_mapping, cache_location. rewrite Hctx, Hfs.
  fold (cache_location w). rewrite Hpath. cbn [read_cache].
  rewrite lookup_insert_eq. fold pm. by rewrite Hrt.
Qed.

End load_claims.

(** * The text serializer reads back what it writes *)

Module TextPickleFacts.
Import PyStr PyStrFacts TextPickle.

Lemma digit_char (x : N) :
  (x < 10)%N →
  is_digit (pretty_N_char x) = true
  ∧ N.of_nat (nat_of_ascii (pretty_N_char x) - 48) = x.
Proof.
  intros Hx.
  assert (x = 0 ∨ x = 1 ∨ x = 2 ∨ x = 3 ∨ x = 4 ∨ x = 5 ∨ x = 6 ∨ x = 7
          ∨ x = 8 ∨ x = 9)%N as Hcases by lia.
  repeat (destruct Hcases as [-> | Hcases]; [by vm_compute |]).
  subst x. by vm_compute.
Qed.

Lemma all_digits_app (a b : string) :
  all_digits (a +:+ b) = all_digits a && all_digits b.
Proof.
  induction a as [|c a IH]; simpl; [done |].
  by rewrite IH, andb_assoc.
Qed.

Lemma nat_of_digits_app (acc : nat) (a b : string) :
  nat_of_digits acc (a +:+ b) = nat_of_digits (nat_of_digits acc a) b.
Proof. revert acc. induction a as [|c a IH]; intros acc; simpl; done. Qed.

(** The digits that [pretty] puts before [s] are a run of digits whose
    value is the number. *)
Lemma pretty_N_go_digits (x : N) (s : string) :
  ∃ d, pretty_N_go x s = d +:+ s
       ∧ all_digits d = true
       ∧ N.of_nat (nat_of_digits 0 d) = x
       ∧ ((0 < x)%N → d ≠ "").
Proof.
  revert s. induction (N.lt_wf_0 x) as [x _ IH]. intros s.
  destruct (decide (x = 0)%N) as [-> | Hx].
  - exists "". rewrite pretty_N_go_0.
    split; [done |]. split; [done |]. split; [done | lia].
  - rewrite pretty_N_go_step by lia.
    destruct (IH (x `div` 10)%N ltac:(apply N.div_lt; lia)
                 (String (pretty_N_char (x `mod` 10)) s))
      as (d & -> & Hd & Hval & _).
    destruct (digit_char (x `mod` 10)%N ltac:(apply N.mod_lt; lia))
      as [Hc Hcv].
    exists (d +:+ String (pretty_N_char (x `mod` 10)) "").
    rewrite str_app_assoc. split; [done |].
    split; [rewrite all_digits_app, Hd; simpl; by rewrite Hc |].
    split.
    + rewrite nat_of_digits_app. cbn [nat_of_digits].
      pose proof (N.div_mod x 10 ltac:(lia)). lia.
    + intros _. by destruct d.
Qed.

Lemma pretty_nat_digits (n : nat) :
  ∃ c d, pretty n = String c d
         ∧ all_digits (String c d) = true
         ∧ nat_of_digits 0 (String c d) = n.
Proof.
  unfold pretty, pretty_nat, pretty, pretty_N.
  destruct (decide (N.of_nat n = 0)%N) as [Hn | Hn].
  - exists "0"%char, "". repeat split. simpl. lia.
  - destruct (pretty_N_go_digits (N.of_nat n) "")
      as (d & -> & Hd & Hval & Hne).
    rewrite str_app_nil_r.
    destruct d as [|c d]; [exfalso; apply Hne; [lia | done] |].
    exists c, d. repeat split; [done | lia].
Qed.

(** A number followed by a character that is no digit is read back. *)
Lemma get_nat_pretty (n : nat) (c : ascii) (r : string) :
  is_digit c = false →
  get_nat (pretty n +:+ String c r) = Got n (String c r).
Proof.
  intros Hc. destruct (pretty_nat_digits n) as (x & d & -> & Hd & Hval).
  unfold get_nat. rewrite span_digits_app by done. by rewrite Hval.
Qed.

Lemma take_app (a b : string) : take (String.length a) (a +:+ b) = a.
Proof. induction a as [|c a IH]; simpl; [by destruct b | by rewrite IH]. Qed.

Lemma get_str_put (k r : string) : get_str (put_str k +:+ r) = Got k r.
Proof.
  unfold get_str, put_str. rewrite !str_app_assoc.
  cbn [String.append]. rewrite get_nat_pretty by done.
  cbn [and_then expect]. rewrite Ascii.eqb_refl.
  rewrite str_length_app.
  destruct (Nat.leb_spec (String.length k)
              (String.length k + String.length r)) as [_ | ?]; [| lia].
  by rewrite take_app, drop_app.
Qed.

Lemma get_val_put (v : pyval) (r : string) :
  get_val (put_val v +:+ r) = Got v r.
Proof.
  destruct v as [| [|] | z | s]; try done.
  - unfold put_val.
    destruct (Z.ltb_spec z 0) as [Hz | Hz];
      rewrite !str_app_assoc; cbn [String.append get_val];
      cbn [Ascii.eqb Bool.eqb andb]; rewrite get_nat_pretty by done;
      cbn [and_then expect]; rewrite Ascii.eqb_refl; do 2 f_equal; lia.
  - unfold put_val. rewrite str_app_assoc. cbn [String.append get_val].
    cbn [Ascii.eqb Bool.eqb andb]. by rewrite get_str_put.
Qed.

(** No key starts with the brace that closes a dictionary. *)
Lemma put_str_head (k r : string) :
  ∃ c t, put_str k +:+ r = String c t ∧ Ascii.eqb c "}" = false.
Proof.
  unfold put_str.
  destruct (pretty_nat_digits (String.length k)) as (c & d & -> & Hd & _).
  exists c. eexists. split; [reflexivity |].
  apply andb_true_iff in Hd as [Hc _].
  destruct (Ascii.eqb_spec c "}") as [-> |]; [done | done].
Qed.

Lemma fold_right_tail_field (l : list (string * pyval)) (a b : string) :
  fold_right put_field a l +:+ b = fold_right put_field (a +:+ b) l.
Proof.
  induction l as [|[k v] l IH]; [done |].
  cbn [fold_right put_field]. by rewrite !str_app_assoc, IH.
Qed.

Lemma get_fields_put (l : list (string * pyval)) (r : string) (fuel : nat) :
  length l < fuel →
  get_fields fuel (fold_right put_field (String "}" r) l) = Got l r.
Proof.
  revert fuel. induction l as [|[k v] l IH]; intros [|fuel] Hlt;
    try (simpl in Hlt; lia).
  - done.
  - cbn [fold_right put_field get_fields].
    destruct (put_str_head k
                (put_val v +:+ fold_right put_field (String "}" r) l))
      as (c & t & Heq & Hc).
    rewrite Heq. rewrite Hc. rewrite <- Heq.
    rewrite get_str_put. cbn [and_then]. rewrite get_val_put.
    cbn [and_then]. rewrite IH by (simpl in Hlt; lia). done.
Qed.

Lemma length_put_str (k r : string) :
  (0 < String.length (put_str k +:+ r))%nat.
Proof.
  destruct (put_str_head k r) as (c & t & -> & _). simpl. lia.
Qed.

Lemma length_fields (l : list (string * pyval)) (t : string) :
  (length l ≤ String.length (fold_right put_field t l))%nat.
Proof.
  induction l as [|[k v] l IH]; [simpl; lia |].
  cbn [fold_right put_field length].
  pose proof (length_put_str k "") as Hk. rewrite str_app_nil_r in Hk.
  rewrite !str_length_app. lia.
Qed.

Lemma get_record_put (rec : gmap string pyval) (r : string) :
  get_record (put_record rec +:+ r) = Got rec r.
Proof.
  unfold get_record, put_record. cbn [String.append expect].
  rewrite Ascii.eqb_refl.
  rewrite (fold_right_tail_field (map_to_list rec)).
  cbn [String.append].
  rewrite get_fields_put.
  - cbn [and_then]. by rewrite list_to_map_to_list.
  - cbn [String.length].
    pose proof (length_fields (map_to_list rec) (String "}" r)). lia.
Qed.

Lemma get_entries_put (l : list (string * gmap string pyval)) (r : string)
    (fuel : nat) :
  length l < fuel →
  get_entries fuel (fold_right put_entry (String "}" r) l) = Got l r.
Proof.
  revert fuel. induction l as [|[k v] l IH]; intros [|fuel] Hlt;
    try (simpl in Hlt; lia).
  - done.
  - cbn [fold_right put_entry get_entries].
    destruct (put_str_head k
                (put_record v +:+ fold_right put_entry (String "}" r) l))
      as (c & t & Heq & Hc).
    rewrite Heq. rewrite Hc. rewrite <- Heq.
    rewrite get_str_put. cbn [and_then]. rewrite get_record_put.
    cbn [and_then]. rewrite IH by (simpl in Hlt; lia). done.
Qed.

Lemma length_entries (l : list (string * gmap string pyval)) (t : string) :
  (length l ≤ String.length (fold_right put_entry t l))%nat.
Proof.
  induction l as [|[k v] l IH]; [simpl; lia |].
  cbn [fold_right put_entry length].
  pose proof (length_put_str k "") as Hk. rewrite str_app_nil_r in Hk.
  rewrite !str_length_app. lia.
Qed.

(** Every mapping is read back as it was written. *)
Lemma load_dumps (m : gmap string (gmap string pyval)) :
  load (dumps m) = Ok m.
Proof.
  unfold load, dumps. cbn [String.append expect].
  rewrite Ascii.eqb_refl.
  change "}." with (String "}" ".").
  rewrite get_entries_put.
  - cbn [and_then expect]. rewrite Ascii.eqb_refl.
    by rewrite list_to_map_to_list.
  - cbn [String.length].
    pose proof (length_entries (map_to_list m) (String "}" ".")). lia.
Qed.

(** A file that lost its end, wherever it was cut, is reported as cut
    short, which the load of the pass takes for an empty cache. *)
Example load_cut_short :
  let data := dumps twice_mapping in
  forallb (λ n, match load (take n data) with
                | Raise EOFError => true
                | _ => false
                end)
          (seq 0 (String.length data)) = true
  ∧ load "{1:1{5:titleS1:A}}" = Raise EOFError
  ∧ load (data +:+ "garbage") = Ok twice_mapping.
Proof. split; [| split]; vm_compute; reflexivity. Qed.

End TextPickleFacts.

(** * The round trip through the cache file (C9) *)

Section round_trip.

(** C9.  For every identifier-to-record mapping and every cache path that
    can be written: storing the mapping and loading it back, with the text
    serializer of this development, yields a mapping equal to the one
    stored, so that nothing of it is to be fetched; and with any
    serializer, the load gets exactly what that serializer reads back from
    its own serialization of the mapping. *)
Theorem cache_round_trip (m : gmap string (gmap string pyval)) (p : string)
    (ids : gset string) (w : world) :
  p ∉ unwritable w →
  (∃ w1,
     dump_cache (H := TextPickle.pickle) (PyStr p) m w = Normal tt w1
     ∧ fs w1 = <[p := TextPickle.dumps m]> (fs w)
     ∧ read_cache (H := TextPickle.pickle) (fs w1) (PyStr p) = Ok m
     ∧ load_cache (H := TextPickle.pickle) (PyStr p) ids w1
       = Normal (m, elements (ids ∖ dom m)) w1)
  ∧ ∀ P : Pickle, ∃ w1,
      dump_cache (H := P) (PyStr p) m w = Normal tt w1
      ∧ fs w1 = <[p := pickle_dumps m]> (fs w)
      ∧ read_cache (H := P) (fs w1) (PyStr p)
        = pickle_load (pickle_dumps m).
Proof.
  intros Hw. split.
  - destruct (dump_then_read (H := TextPickle.pickle) m p w Hw)
      as (Hdump & Hfs & Hread).
    exists (with_file p (TextPickle.dumps m) w).
    change (pickle_dumps m) with (TextPickle.dumps m) in Hdump, Hfs, Hread.
    change (pickle_load (TextPickle.dumps m))
      with (TextPickle.load (TextPickle.dumps m)) in Hread.
    rewrite TextPickleFacts.load_dumps in Hread.
    split; [done |]. split; [done |]. split; [done |].
    by rewrite load_cache_run, Hread.
  - intros P. exists (with_file p (pickle_dumps m) w).
    by apply dump_then_read.
Qed.

End round_trip.

(** * Concrete runs *)

Section runs.
Import PyStr.

Lemma resolution_failure_gives_placeholder_witness :
  try_block dead_photo "1" (PyBool false) (PyStr "Medium 640") ∅
  = (∅, Raise RemoteError)
  ∧ resolve placeholder_context dead_photo "1" (PyBool false)
      (PyStr "Medium 640") ∅
    = <["1" := placeholder placeholder_context]> ∅.
Proof.
  split; [reflexivity |].
  apply (resolution_failure_gives_placeholder placeholder_context dead_photo
           "1" (PyBool false) (PyStr "Medium 640") ∅ ∅ RemoteError).
  reflexivity.
Defined.

Lemma dimension_failure_discards_record_witness :
  base_fields large_only_photo (PyStr "Medium 640")
  = Ok (PyStr "Sunset", PyStr "//img/1.jpg", PyStr "//flickr/1")
  ∧ lookup_size large_only_photo (PyStr "Medium 640") = Raise IndexError
  ∧ ∃ pm' e r,
      try_block large_only_photo "1" (PyBool true) (PyStr "Medium 640") ∅
      = (pm', Raise e)
      ∧ pm' !! "1" = Some r
      ∧ r !! "title" = Some (PyStr "Sunset")
      ∧ r !! "raw_url" = Some (PyStr "//img/1.jpg")
      ∧ r !! "url" = Some (PyStr "//flickr/1")
      ∧ resolve placeholder_context large_only_photo "1" (PyBool true)
          (PyStr "Medium 640") ∅ !! "1"
        = Some (placeholder placeholder_context)
      ∧ resolve placeholder_context large_only_photo "1" (PyBool true)
          (PyStr "Medium 640") ∅
        = <["1" := placeholder placeholder_context]> ∅.
Proof.
  split; [reflexivity |]. split; [reflexivity |].
  apply (dimension_failure_discards_record placeholder_context
           large_only_photo "1" (PyBool true) (PyStr "Medium 640")
           (PyStr "Sunset") (PyStr "//img/1.jpg") (PyStr "//flickr/1") ∅).
  - reflexivity.
  - reflexivity.
  - intros size Hsize. vm_compute in Hsize. discriminate Hsize.
Defined.

Lemma url_for_alias_strips_scheme_witness :
  getMedium640 sunset_photo = Ok (PyStr ("https:" +:+ "//img/1.jpg"))
  ∧ url_for_alias sunset_photo (PyStr "Medium 640")
    = Ok (PyStr "//img/1.jpg").
Proof.
  split; [reflexivity |].
  apply (url_for_alias_strips_scheme sunset_photo (PyStr "Medium 640")
           "https://img/1.jpg" "//img/1.jpg").
  - reflexivity.
  - by right.
  - reflexivity.
  - reflexivity.
Defined.

(** C8 as stated fails: an address that holds ["http:"] after its scheme
    loses that too, so the rest of the address is not unchanged. *)
Lemma url_for_alias_changes_rest :
  getMedium640 redirect_photo
  = Ok (PyStr ("https:" +:+ "//example.org/r?u=http://x.org/a.jpg"))
  ∧ url_for_alias redirect_photo (PyStr "Medium 640")
    = Ok (PyStr "//example.org/r?u=//x.org/a.jpg")
  ∧ url_for_alias redirect_photo (PyStr "Medium 640")
    ≠ Ok (PyStr "//example.org/r?u=http://x.org/a.jpg").
Proof. split; [reflexivity |]. split; [reflexivity | discriminate]. Qed.

Lemma lost_tag_left_in_place_witness :
  substitute_matches default_template ∅ "a [flickr:id=7] b"
    (findall "a [flickr:id=7] b") sunset_world
  = Normal "a [flickr:id=7] b" (touch [lost_message] [] 0 sunset_world).
Proof.
  pose proof (lost_tag_left_in_place default_template ∅ sunset_world
                "7" "a " " b" eq_refl ltac:(discriminate) eq_refl) as [Hrun _].
  exact Hrun.
Defined.



End runs.

Section pass_runs.

Lemma missing_sunset :
  missing "article" sunset_world ∅ ≠ ∅.
Proof. intros Heq. vm_compute in Heq. discriminate Heq. Qed.

Lemma cache_written_iff_missing_witness :
  let w := sunset_world in
  let w' := world_of (generic_replace "article" w) in
  let pm := fetched_mapping (λ _, sunset_photo) "article" w ∅ in
  start_mapping w = Some ∅
  ∧ ((missing "article" w ∅ = ∅
      ∧ writes w' = writes w ∧ fs w' = fs w
      ∧ photo_calls w' = photo_calls w)
     ∨ (missing "article" w ∅ ≠ ∅
        ∧ writes w' = (writes w ++ [("/tmp/cache", pickle_dumps pm)])%list
        ∧ fs w' = <["/tmp/cache" := pickle_dumps pm]> (fs w)
        ∧ ∅ ⊆ pm
        ∧ dom pm = dom (∅ : gmap string (gmap string pyval))
                   ∪ missing "article" w ∅)).
Proof.
  split; [reflexivity |].
  apply (cache_written_iff_missing "article" sunset_world
           (λ _, sunset_photo) ∅ "/tmp/cache").
  - reflexivity.
  - reflexivity.
  - reflexivity.
  - apply not_elem_of_empty.
Defined.

Lemma missing_ids_resolved_and_persisted_witness :
  let w := mixed_world in
  let w' := world_of (generic_replace "article" w) in
  let pm := fetched_mapping mixed_api "article" w ∅ in
  (∃ w2, cache_phase mixed_api (cache_location w) (include_dimensions_of w)
           (size_alias_of w) (scan_ids (kind_items "article" w)) w
         = Normal pm w2)
  ∧ fs w' !! "/tmp/cache" = Some (pickle_dumps pm)
  ∧ (∀ d, d ∈ missing "article" w ∅ →
       pm !! d = Some (resolved_record (context w) (mixed_api d)
                         (include_dimensions_of w) (size_alias_of w))
       ∧ pm !! d = resolve (context w) (mixed_api d) d
                     (include_dimensions_of w) (size_alias_of w) ∅ !! d)
  ∧ (∀ x pmx pmx' e,
       x ∈ missing "article" w ∅ →
       try_block (mixed_api x) x (include_dimensions_of w) (size_alias_of w)
         pmx = (pmx', Raise e) →
       pm !! x = Some (placeholder (context w)))
  ∧ (∀ api' y,
       y ∈ missing "article" w ∅ → api' y = mixed_api y →
       fetched_mapping api' "article" w ∅ !! y = pm !! y).
Proof.
  apply (missing_ids_resolved_and_persisted "article" mixed_world
           mixed_api ∅ "/tmp/cache").
  - reflexivity.
  - reflexivity.
  - reflexivity.
  - apply not_elem_of_empty.
  - intros Heq. vm_compute in Heq. discriminate Heq.
Defined.

(** The run behind it: photo 1 fails and gets the placeholder, photo 2
    gets its record all the same. *)
Example mixed_run :
  fetched_mapping mixed_api "article" mixed_world ∅
  = {[ "1" := placeholder sunset_context;
       "2" := {[ "title" := PyStr "Sunset";
                 "raw_url" := PyStr "//img/1.jpg";
                 "url" := PyStr "//flickr/1" ]} ]}.
Proof. by vm_compute. Qed.

Lemma load_failure_handling_witness :
  cache_location sunset_world = PyStr "/tmp/cache"
  ∧ fs sunset_world !! "/tmp/cache" = None
  ∧ load_cache (PyStr "/tmp/cache") {[ "12345" ]} sunset_world
    = Normal (∅, elements ({[ "12345" ]} : gset string)) sunset_world
  ∧ start_mapping sunset_world = Some ∅.
Proof.
  split; [reflexivity |]. split; [reflexivity |].
  apply (load_failure_handling "article" sunset_world "/tmp/cache"
           {[ "12345" ]}).
  - reflexivity.
  - reflexivity.
Defined.

(** C3 as stated fails: a cache file that holds no pickle makes
    [pickle.load] raise an exception that is neither [IOError] nor
    [EOFError], and the pass ends with it. *)
Lemma corrupt_cache_propagates :
  fs corrupt_world !! "/tmp/cache" = Some "garbage"
  ∧ pickle_load "garbage" = Raise UnpicklingError
  ∧ ∃ w', generic_replace "article" corrupt_world
          = Raised UnpicklingError w'.
Proof.
  split; [reflexivity |]. split; [reflexivity |].
  eexists. vm_compute. reflexivity.
Qed.

Lemma cache_round_trip_witness :
  ∃ w1,
    dump_cache (PyStr "/tmp/cache") stale_mapping sunset_world = Normal tt w1
    ∧ fs w1 = <["/tmp/cache" := TextPickle.dumps stale_mapping]>
                (fs sunset_world)
    ∧ read_cache (fs w1) (PyStr "/tmp/cache") = Ok stale_mapping
    ∧ load_cache (PyStr "/tmp/cache") {[ "1"; "2" ]} w1
      = Normal (stale_mapping,
                elements (({[ "1"; "2" ]} : gset string)
                          ∖ dom stale_mapping)) w1.
Proof.
  pose proof (cache_round_trip stale_mapping "/tmp/cache" {[ "1"; "2" ]}
                sunset_world) as Hrt.
  apply Hrt. apply not_elem_of_empty.
Defined.

(** A pass whose identifiers are all in the cache file: no call to the
    remote service, no file written. *)
Example cached_run :
  missing "article" twice_world twice_mapping = ∅
  ∧ photo_calls (world_of (generic_replace "article" twice_world)) = []
  ∧ writes (world_of (generic_replace "article" twice_world)) = [].
Proof. split; [by vm_compute |]. split; by vm_compute. Qed.

(** The example of the specification: the tag is gone and the fragment
    carries the title and the image address. *)
Example sunset_run :
  match articles (world_of (generic_replace "article" sunset_world)) with
  | [ it ] =>
      PyStr.contains ("alt=" +:+ dq +:+ "Sunset" +:+ dq) (_content it)
      && PyStr.contains ("src=" +:+ dq +:+ "//img/1.jpg" +:+ dq)
                        (_content it)
      && negb (PyStr.contains "[flickr:id=12345]" (_content it))
  | _ => false
  end = true.
Proof. by vm_compute. Qed.

(** The same when the remote service fails: the placeholder is shown. *)
Example placeholder_run :
  match articles (world_of (generic_replace "article" mixed_world)) with
  | [ it ] =>
      PyStr.contains ("alt=" +:+ dq +:+ "Placeholder" +:+ dq) (_content it)
      && PyStr.contains
           ("src=" +:+ dq +:+ "//example.org/missing.png" +:+ dq)
           (_content it)
  | _ => false
  end = true.
Proof. by vm_compute. Qed.

End pass_runs.

Section template_facts.
Import PyStr PyStrFacts.

Lemma good_fragment_intro (frag : string) :
  startswith "<" frag = true → has_char "[" frag = false →
  good_fragment frag = true.
Proof.
  intros [r ->]%startswith_spec Hb. cbn [String.append good_fragment].
  cbn [String.append] in Hb. rewrite Hb. by vm_compute.
Qed.

(** The built-in template gives fragments that cannot be taken for part
    of a tag as long as the values it prints hold no opening bracket. *)
Lemma default_template_good (n : nat) (ctx : gmap string pyval) :
  (∀ k, has_char "[" (jinja_var ctx k) = false) →
  good_fragment (default_template n ctx) = true.
Proof.
  intros Hvars. apply good_fragment_intro; [reflexivity |].
  unfold default_template.
  destruct (jinja_test ctx "FLICKR_TAG_INCLUDE_DIMENSIONS");
    rewrite !has_char_app, !Hvars; by vm_compute.
Qed.

(** Without that condition the single pass is not what the loop does: a
    title that reads like the tag of a later match is replaced in its
    turn, inside the fragment of the earlier match. *)
Example fragment_with_tag_is_rewritten :
  let pm : gmap string (gmap string pyval) :=
    {[ "1" := {[ "title" := PyStr "[flickr:id=2]" ]};
       "2" := {[ "title" := PyStr "B" ]} ]} in
  let tpl : template := λ _ ctx, "<" +:+ jinja_var ctx "title" +:+ ">" in
  let body := "[flickr:id=1] [flickr:id=2]" in
  replace_loop tpl ∅ pm 0 body (findall body) = "<<B>> <B>"
  ∧ subst_pass (first_renders tpl ∅ pm 0 (findall body).*2 ∅) body
    = "<[flickr:id=2]> <B>".
Proof. split; by vm_compute. Qed.

(** Nor when a fragment starts with a character of a tag: with the text
    before it, it makes up the tag of a later match, which is replaced in
    its turn. *)
Example fragment_joining_a_tag_is_rewritten :
  let pm : gmap string (gmap string pyval) :=
    {[ "1" := {[ "title" := PyStr "A" ]};
       "2" := {[ "title" := PyStr "]" ]} ]} in
  let tpl : template := λ _ ctx, jinja_var ctx "title" in
  let body := "[flickr:id=1[flickr:id=2] [flickr:id=1]" in
  (findall body).*2 = ["2"; "1"]
  ∧ replace_loop tpl ∅ pm 0 body (findall body) = "A A"
  ∧ subst_pass (first_renders tpl ∅ pm 0 (findall body).*2 ∅) body
    = "[flickr:id=1] A".
Proof. split; [| split]; vm_compute; reflexivity. Qed.

End template_facts.

(** * [setup_flickr] *)

Section setup_facts.

Lemma lookup_setdefault (k j : string) (v : pyval) (d : gmap string pyval) :
  setdefault k v d !! j
  = if decide (k = j) then Some (default v (d !! k)) else d !! j.
Proof.
  unfold setdefault. destruct (d !! k) as [x|] eqn:Hk.
  - case_decide; [by subst | done].
  - case_decide; [subst; by rewrite lookup_insert_eq |].
    by rewrite lookup_insert_ne.
Qed.

Lemma setdefault_present (k : string) (v : pyval) (d : gmap string pyval)
    (x : pyval) :
  d !! k = Some x → setdefault k v d = d.
Proof. intros Hk. unfold setdefault. by rewrite Hk. Qed.

Lemma setup_credential_settings (st : setup_state) (key : string) :
  settings (setup_credential st key) = settings st.
Proof. unfold setup_credential. by destruct (getitem _ _). Qed.

Lemma setup_credential_attached (st : setup_state) (key : string) :
  client_attached (setup_credential st key) = client_attached st.
Proof. unfold setup_credential. by destruct (getitem _ _). Qed.

Lemma setup_credentials_settings (st : setup_state) (keys : list string) :
  settings (fold_left setup_credential keys st) = settings st.
Proof.
  revert st. induction keys as [|key keys IH]; intros st; [done |].
  simpl. by rewrite IH, setup_credential_settings.
Qed.

(** The settings after [setup_flickr]: four [setdefault] calls. *)
Lemma setup_flickr_settings (st : setup_state) :
  settings (setup_flickr st)
  = setdefault "FLICKR_TAG_IMAGE_SIZE" (PyStr "Medium 640")
      (setdefault "FLICKR_TAG_INCLUDE_DIMENSIONS" (PyBool false)
         (setdefault "FLICKR_TAG_CACHE_LOCATION" default_cache_location
            (setdefault "FLICKR_TAG_PLACE_HOLDER_LINK" default_link
               (settings st)))).
Proof.
  unfold setup_flickr.
  rewrite (setup_credentials_settings st ["TOKEN"; "KEY"; "SECRET"]).
  unfold getitem.
  destruct (settings st !! "FLICKR_TAG_PLACE_HOLDER_LINK") as [v|] eqn:Hl;
    cbn [settings]; [| done].
  by rewrite (setdefault_present "FLICKR_TAG_PLACE_HOLDER_LINK" default_link
                (settings st) v Hl).
Qed.

(** X1.  [setup_flickr] attaches the client, keeps every setting that was
    there with its value, gives the link, the cache location, the dimension
    flag and the image size their default when they are absent, and adds or
    changes nothing else: a missing placeholder picture stays missing. *)
Theorem setup_flickr_keeps_and_defaults (st : setup_state) :
  (∀ k v, settings st !! k = Some v →
          settings (setup_flickr st) !! k = Some v)
  ∧ (∀ k v, (k, v) ∈ setup_defaults → settings st !! k = None →
            settings (setup_flickr st) !! k = Some v)
  ∧ (∀ k, k ∉ setup_defaults.*1 →
          settings (setup_flickr st) !! k = settings st !! k)
  ∧ client_attached (setup_flickr st) = true.
Proof.
  rewrite setup_flickr_settings.
  split; [| split; [| split]];
    [| | | unfold setup_flickr, getitem;
           by destruct (settings _ !! "FLICKR_TAG_PLACE_HOLDER_LINK")].
  - intros k v Hk. rewrite !lookup_setdefault.
    repeat case_decide; subst; by rewrite ?Hk.
  - intros k v Hin Hk. unfold setup_defaults in Hin.
    rewrite !lookup_setdefault.
    repeat (apply elem_of_cons in Hin as [[= -> ->] | Hin];
            [repeat case_decide; try done; by rewrite ?lookup_setdefault, ?Hk |]).
    by apply elem_of_nil in Hin.
  - intros k Hk. rewrite !lookup_setdefault.
    repeat case_decide; try done; subst; exfalso; apply Hk;
      unfold setup_defaults; cbn; set_solver.
Qed.

Lemma setup_credential_attrs (st : setup_state) (key a : string) :
  api_attrs (setup_credential st key) !! a
  = match settings st !! ("FLICKR_API_" +:+ key) with
    | Some v => if decide ("API_" +:+ key = a) then Some v
                else api_attrs st !! a
    | None => api_attrs st !! a
    end.
Proof.
  unfold setup_credential, getitem.
  destruct (settings st !! ("FLICKR_API_" +:+ key)) as [v|]; cbn [api_attrs];
    [| done].
  case_decide as Ha; [by rewrite Ha, lookup_insert_eq |].
  by rewrite lookup_insert_ne.
Qed.

Lemma setup_credential_log (st : setup_state) (key : string) :
  setup_log (setup_credential st key)
  = (setup_log st ++
     match settings st !! ("FLICKR_API_" +:+ key) with
     | Some _ => []
     | None => [credential_warning key]
     end)%list.
Proof.
  unfold setup_credential, getitem.
  destruct (settings st !! ("FLICKR_API_" +:+ key)) as [v|]; cbn [setup_log];
    [by rewrite app_nil_r | done].
Qed.

Lemma setup_flickr_api_attrs (st : setup_state) :
  api_attrs (setup_flickr st)
  = api_attrs (fold_left setup_credential ["TOKEN"; "KEY"; "SECRET"] st).
Proof.
  unfold setup_flickr, getitem.
  by destruct (settings _ !! "FLICKR_TAG_PLACE_HOLDER_LINK").
Qed.

(** The attributes of the client module after [setup_flickr]. *)
Lemma setup_flickr_attr_lookup (st : setup_state) (a : string) :
  api_attrs (setup_flickr st) !! a
  = match settings st !! "FLICKR_API_SECRET" with
    | Some v => if decide ("API_SECRET" = a) then Some v else
        match settings st !! "FLICKR_API_KEY" with
        | Some v => if decide ("API_KEY" = a) then Some v else
            match settings st !! "FLICKR_API_TOKEN" with
            | Some v => if decide ("API_TOKEN" = a) then Some v
                        else api_attrs st !! a
            | None => api_attrs st !! a
            end
        | None =>
            match settings st !! "FLICKR_API_TOKEN" with
            | Some v => if decide ("API_TOKEN" = a) then Some v
                        else api_attrs st !! a
            | None => api_attrs st !! a
            end
        end
    | None =>
        match settings st !! "FLICKR_API_KEY" with
        | Some v => if decide ("API_KEY" = a) then Some v else
            match settings st !! "FLICKR_API_TOKEN" with
            | Some v => if decide ("API_TOKEN" = a) then Some v
                        else api_attrs st !! a
            | None => api_attrs st !! a
            end
        | None =>
            match settings st !! "FLICKR_API_TOKEN" with
            | Some v => if decide ("API_TOKEN" = a) then Some v
                        else api_attrs st !! a
            | None => api_attrs st !! a
            end
        end
    end.
Proof.
  rewrite setup_flickr_api_attrs. cbn [fold_left].
  rewrite !setup_credential_attrs, !setup_credential_settings.
  cbn [String.append].
  destruct (settings st !! "FLICKR_API_SECRET"),
    (settings st !! "FLICKR_API_KEY"), (settings st !! "FLICKR_API_TOKEN");
    done.
Qed.

(** The log after [setup_flickr]: one record for each thing it misses, in
    the order it looks for them. *)
Lemma setup_flickr_log (st : setup_state) :
  setup_log (setup_flickr st)
  = (setup_log st
     ++ match settings st !! "FLICKR_API_TOKEN" with
        | Some _ => [] | None => [credential_warning "TOKEN"] end
     ++ match settings st !! "FLICKR_API_KEY" with
        | Some _ => [] | None => [credential_warning "KEY"] end
     ++ match settings st !! "FLICKR_API_SECRET" with
        | Some _ => [] | None => [credential_warning "SECRET"] end
     ++ match settings st !! "FLICKR_TAG_PLACE_HOLDER_PICT" with
        | Some _ => []
        | None => [(ERROR, "[flickrtag]: FLICKR_TAG_PLACE_HOLDER_PICT variable is mandatory in your config")]
        end
     ++ match settings st !! "FLICKR_TAG_PLACE_HOLDER_LINK" with
        | Some _ => [] | None => [link_warning] end)%list.
Proof.
  unfold setup_flickr, getitem.
  rewrite (setup_credentials_settings st ["TOKEN"; "KEY"; "SECRET"]).
  cbn [fold_left].
  assert (setup_log
            (setup_credential
               (setup_credential (setup_credential st "TOKEN") "KEY") "SECRET")
          = (setup_log st
             ++ match settings st !! "FLICKR_API_TOKEN" with
                | Some _ => [] | None => [credential_warning "TOKEN"] end
             ++ match settings st !! "FLICKR_API_KEY" with
                | Some _ => [] | None => [credential_warning "KEY"] end
             ++ match settings st !! "FLICKR_API_SECRET" with
                | Some _ => [] | None => [credential_warning "SECRET"] end)%list)
    as ->.
  { rewrite !setup_credential_log, !setup_credential_settings.
    cbn [String.append]. by rewrite <- !app_assoc. }
  destruct (settings st !! "FLICKR_TAG_PLACE_HOLDER_LINK"),
    (settings st !! "FLICKR_TAG_PLACE_HOLDER_PICT");
    cbn [setup_log]; rewrite <- ?app_assoc, ?app_nil_r; done.
Qed.

Lemma elem_of_if_missing {A B} (o : option B) (x y : A) :
  y ∈ match o with Some _ => [] | None => [x] end ↔ o = None ∧ y = x.
Proof.
  destruct o; [rewrite elem_of_nil | rewrite list_elem_of_singleton].
  - split; [done | by intros [? _]].
  - split; [done | by intros [_ ?]].
Qed.

Lemma credential_warning_inj (a b : string) :
  credential_warning a = credential_warning b ↔ a = b.
Proof.
  split; [| by intros ->]. unfold credential_warning. intros [= Heq].
  assert (∀ x y t, x +:+ t = y +:+ t → x = y) as Hcancel.
  { intros x y t Hxy.
    assert (String.length x = String.length y) as Hlen.
    { apply (f_equal String.length) in Hxy.
      rewrite !PyStrFacts.str_length_app in Hxy. lia. }
    revert y Hxy Hlen. induction x as [|c x IH]; intros [|d y] Hxy Hlen;
      try done. cbn [String.append] in Hxy. injection Hxy as -> Hxy.
    f_equal. apply IH; [done | by injection Hlen]. }
  by eapply Hcancel.
Qed.

(** The warning for a credential is in the log after [setup_flickr] when
    it was there before or the credential is missing. *)
Lemma credential_warning_logged (st : setup_state) (key : string) :
  credential_warning key ∈ setup_log (setup_flickr st)
  ↔ credential_warning key ∈ setup_log st
    ∨ (key ∈ ["TOKEN"; "KEY"; "SECRET"]
       ∧ settings st !! ("FLICKR_API_" +:+ key) = None).
Proof.
  rewrite setup_flickr_log, !elem_of_app, !elem_of_if_missing.
  rewrite !credential_warning_inj, !elem_of_cons, elem_of_nil.
  split.
  - intros [? | [[? ->] | [[? ->] | [[? ->] | [[_ ?] | [_ ?]]]]]];
      try discriminate; auto 8.
  - intros [? | [[-> | [-> | [-> | []]]] ?]]; auto 8.
Qed.

(** X2.  For each of the three credentials: when the settings hold it,
    [setup_flickr] sets the attribute of the client module to its value and
    logs no warning for it; when they do not, the attribute is left as it
    was and one warning is logged for it.  No other attribute is touched, and
    nothing is raised to the caller. *)
Theorem setup_flickr_credentials (st : setup_state) (key : string) :
  key ∈ ["TOKEN"; "KEY"; "SECRET"] →
  match settings st !! ("FLICKR_API_" +:+ key) with
  | Some v =>
      api_attrs (setup_flickr st) !! ("API_" +:+ key) = Some v
      ∧ (credential_warning key ∉ setup_log st →
         credential_warning key ∉ setup_log (setup_flickr st))
  | None =>
      api_attrs (setup_flickr st) !! ("API_" +:+ key)
      = api_attrs st !! ("API_" +:+ key)
      ∧ credential_warning key ∈ setup_log (setup_flickr st)
  end
  ∧ ∀ a, a ∉ ["API_TOKEN"; "API_KEY"; "API_SECRET"] →
         api_attrs (setup_flickr st) !! a = api_attrs st !! a.
Proof.
  intros Hkey. split.
  - destruct (settings st !! ("FLICKR_API_" +:+ key)) as [v|] eqn:Hv.
    + split.
      * rewrite setup_flickr_attr_lookup.
        repeat (apply elem_of_cons in Hkey as [-> | Hkey]);
          [| | | by apply elem_of_nil in Hkey];
          cbn [String.append] in Hv |- *; rewrite Hv;
          destruct (settings st !! "FLICKR_API_SECRET"),
            (settings st !! "FLICKR_API_KEY");
          by repeat case_decide.
      * intros Hno. rewrite credential_warning_logged.
        intros [? | [_ ?]]; [done | congruence].
    + split; [| rewrite credential_warning_logged; by right].
      rewrite setup_flickr_attr_lookup.
      repeat (apply elem_of_cons in Hkey as [-> | Hkey]);
        [| | | by apply elem_of_nil in Hkey];
        cbn [String.append] in Hv |- *; rewrite Hv;
        destruct (settings st !! "FLICKR_API_SECRET"),
          (settings st !! "FLICKR_API_KEY"),
          (settings st !! "FLICKR_API_TOKEN");
        by repeat case_decide.
  - intros a Ha. rewrite setup_flickr_attr_lookup.
    destruct (settings st !! "FLICKR_API_SECRET"),
      (settings st !! "FLICKR_API_KEY"),
      (settings st !! "FLICKR_API_TOKEN");
      repeat case_decide; try done; subst; exfalso; apply Ha;
      rewrite ?elem_of_cons; auto.
Qed.

Lemma setup_flickr_settings_other (st : setup_state) (k : string) :
  k ∉ setup_defaults.*1 →
  settings (setup_flickr st) !! k = settings st !! k.
Proof.
  intros Hk. rewrite setup_flickr_settings, !lookup_setdefault.
  repeat case_decide; try done; subst; exfalso; apply Hk;
    unfold setup_defaults; cbn; rewrite ?elem_of_cons; auto.
Qed.

Lemma setup_flickr_link_present (st : setup_state) :
  is_Some (settings (setup_flickr st) !! "FLICKR_TAG_PLACE_HOLDER_LINK").
Proof.
  rewrite setup_flickr_settings, !lookup_setdefault.
  repeat case_decide; done.
Qed.

(** X3.  Running [setup_flickr] a second time changes neither the settings
    nor the attributes of the client module, and the second run does not
    log the warning about the default link again. *)
Theorem setup_flickr_twice (st : setup_state) :
  settings (setup_flickr (setup_flickr st)) = settings (setup_flickr st)
  ∧ api_attrs (setup_flickr (setup_flickr st)) = api_attrs (setup_flickr st)
  ∧ ∃ l, setup_log (setup_flickr (setup_flickr st))
         = (setup_log (setup_flickr st) ++ l)%list
         ∧ link_warning ∉ l.
Proof.
  split; [| split].
  - apply map_eq. intros k.
    rewrite (setup_flickr_settings (setup_flickr st)).
    rewrite !lookup_setdefault.
    repeat case_decide; try done; subst;
      rewrite setup_flickr_settings, !lookup_setdefault;
      repeat case_decide; try done;
      by destruct (settings st !! _).
  - apply map_eq. intros a.
    rewrite (setup_flickr_attr_lookup (setup_flickr st)).
    rewrite !setup_flickr_settings_other
      by (unfold setup_defaults; cbn; rewrite !elem_of_cons, elem_of_nil;
          intros H; repeat destruct H as [H | H]; done).
    rewrite (setup_flickr_attr_lookup st).
    destruct (settings st !! "FLICKR_API_SECRET"),
      (settings st !! "FLICKR_API_KEY"),
      (settings st !! "FLICKR_API_TOKEN");
      repeat case_decide; done.
  - rewrite (setup_flickr_log (setup_flickr st)).
    destruct (setup_flickr_link_present st) as [v ->].
    eexists. split; [reflexivity |].
    rewrite !elem_of_app.
    unfold link_warning, credential_warning.
    repeat match goal with
           | |- context [match ?x with Some _ => _ | None => _ end] =>
               destruct x
           end;
      rewrite ?elem_of_cons, ?elem_of_nil; intuition discriminate.
Qed.

End setup_facts.

(** * [size_for_alias] and [url_for_alias] *)

Section alias_facts.
Import PyStr PyStrFacts.

Lemma with_label_ok (sizes kept : list (gmap string pyval)) (alias : pyval) :
  with_label sizes alias = Ok kept →
  Forall (λ s, is_Some (s !! "label")) sizes
  ∧ kept = List.filter
             (λ s, match s !! "label" with
                   | Some l => py_eq l alias
                   | None => false
                   end) sizes.
Proof.
  revert kept. induction sizes as [|s sizes IH]; intros kept.
  - intros [= <-]. by split.
  - cbn [with_label List.filter]. unfold getitem.
    destruct (s !! "label") as [l|] eqn:Hl; [| done]. cbn.
    destruct (with_label sizes alias) as [kept'|e]; [| done]. cbn.
    intros [= <-]. destruct (IH kept' eq_refl) as [Hall ->].
    split; [constructor; [by eexists | done] | done].
Qed.

Lemma with_label_raise (sizes : list (gmap string pyval)) (alias : pyval)
    (e : exn) :
  with_label sizes alias = Raise e →
  e = KeyError ∧ Exists (λ s, s !! "label" = None) sizes.
Proof.
  induction sizes as [|s sizes IH]; [done |].
  cbn [with_label]. unfold getitem.
  destruct (s !! "label") as [l|] eqn:Hl; cbn.
  - destruct (with_label sizes alias) as [kept'|e']; [done |]. cbn.
    intros [= <-]. destruct (IH eq_refl) as [-> Hex].
    split; [done | by apply Exists_cons_tl].
  - intros [= <-]. split; [done | by apply Exists_cons_hd].
Qed.

Lemma with_label_missing (sizes : list (gmap string pyval)) (alias : pyval) :
  Exists (λ s, s !! "label" = None) sizes →
  with_label sizes alias = Raise KeyError.
Proof.
  induction 1 as [s sizes Hs | s sizes _ IH]; cbn [with_label]; unfold getitem.
  - by rewrite Hs.
  - destruct (s !! "label"); [| done]. cbn. by rewrite IH.
Qed.

Lemma filter_first {A} (f : A → bool) (l : list A) (x : A) (rest : list A) :
  List.filter f l = x :: rest →
  ∃ pre post, l = (pre ++ x :: post)%list ∧ f x = true
              ∧ Forall (λ y, f y = false) pre.
Proof.
  induction l as [|y l IH]; [done |]. cbn [List.filter].
  destruct (f y) eqn:Hy.
  - intros [= -> _]. by exists [], l.
  - intros (pre & post & -> & Hx & Hpre)%IH.
    exists (y :: pre), post. split; [done |]. split; [done |].
    by constructor.
Qed.

Lemma size_for_alias_unfold (sizes : list (gmap string pyval))
    (alias : pyval) :
  size_for_alias sizes alias
  = match with_label sizes (effective_alias alias) with
    | Ok (s :: _) => Ok s
    | Ok [] => Raise IndexError
    | Raise e => Raise e
    end.
Proof.
  unfold size_for_alias, effective_alias.
  by destruct (with_label sizes _) as [[|s kept]|e].
Qed.

(** X4.  When [size_for_alias] returns an entry, it is the first entry of
    the list whose label equals the alias looked for (["Medium"] unless the
    alias is ["Medium 640"] or ["Medium"]), and every entry of the list,
    also those after it, has a label. *)
Theorem size_for_alias_first_match (sizes : list (gmap string pyval))
    (alias : pyval) (s : gmap string pyval) :
  size_for_alias sizes alias = Ok s →
  ∃ pre post l,
    sizes = (pre ++ s :: post)%list
    ∧ s !! "label" = Some l
    ∧ py_eq l (effective_alias alias) = true
    ∧ Forall (λ t, ∃ l', t !! "label" = Some l'
                         ∧ py_eq l' (effective_alias alias) = false) pre
    ∧ Forall (λ t, is_Some (t !! "label")) post.
Proof.
  rewrite size_for_alias_unfold.
  destruct (with_label sizes (effective_alias alias)) as [[|s' kept]|e] eqn:Hw;
    try done.
  intros [= ->]. apply with_label_ok in Hw as [Hall Hkept].
  symmetry in Hkept.
  apply filter_first in Hkept as (pre & post & -> & Hs & Hpre).
  apply Forall_app in Hall as [Hall_pre Hall_post].
  apply Forall_cons in Hall_post as [[l Hl] Hall_post].
  rewrite Hl in Hs. exists pre, post, l.
  split; [done |]. split; [done |]. split; [done |]. split; [| done].
  apply Forall_forall. intros t Ht.
  destruct (proj1 (Forall_forall _ _) Hall_pre t Ht) as [l' Hl'].
  pose proof (proj1 (Forall_forall _ _) Hpre t Ht) as Hf. cbn in Hf.
  rewrite Hl' in Hf. by exists l'.
Qed.

(** X5.  [size_for_alias] raises [KeyError] exactly when some entry of the
    list has no label, whether or not another entry matches; it raises
    [IndexError] exactly when every entry has a label and none equals the
    alias looked for; it raises nothing else. *)
Theorem size_for_alias_errors (sizes : list (gmap string pyval))
    (alias : pyval) :
  (size_for_alias sizes alias = Raise KeyError
   ↔ Exists (λ s, s !! "label" = None) sizes)
  ∧ (size_for_alias sizes alias = Raise IndexError
     ↔ Forall (λ s, ∃ l, s !! "label" = Some l
                         ∧ py_eq l (effective_alias alias) = false) sizes)
  ∧ (∀ e, size_for_alias sizes alias = Raise e →
          e = KeyError ∨ e = IndexError).
Proof.
  rewrite size_for_alias_unfold.
  split; [| split].
  - split.
    + destruct (with_label sizes (effective_alias alias))
        as [[|s' kept]|e] eqn:Hw; try done.
      intros [= ->]. by apply with_label_raise in Hw as [_ ?].
    + intros Hex. by rewrite with_label_missing.
  - split.
    + destruct (with_label sizes (effective_alias alias))
        as [[|s' kept]|e] eqn:Hw; try done.
      * intros _. apply with_label_ok in Hw as [Hall Hkept].
        apply Forall_forall. intros t Ht.
        destruct (proj1 (Forall_forall _ _) Hall t Ht) as [l Hl].
        exists l. split; [done |].
        destruct (py_eq l (effective_alias alias)) eqn:Hm; [| done].
        assert (In t []) as [].
        { rewrite Hkept. apply filter_In. split; [by apply list_elem_of_In |].
          by rewrite Hl. }
      * intros [= ->]. by apply with_label_raise in Hw as [? _].
    + intros Hall. by rewrite with_label_none.
  - intros e.
    destruct (with_label sizes (effective_alias alias))
      as [[|s' kept]|e'] eqn:Hw; try done.
    + intros [= <-]. by right.
    + intros [= <-]. apply with_label_raise in Hw as [-> _]. by left.
Qed.

Lemma size_for_alias_first_match_witness :
  size_for_alias two_sizes (PyStr "Large")
  = Ok {[ "label" := PyStr "Medium"; "width" := PyInt 500;
          "height" := PyInt 375 ]}
  ∧ ∃ pre post l,
      two_sizes
      = (pre ++ {[ "label" := PyStr "Medium"; "width" := PyInt 500;
                   "height" := PyInt 375 ]} :: post)%list
      ∧ ({[ "label" := PyStr "Medium"; "width" := PyInt 500;
            "height" := PyInt 375 ]} : gmap string pyval) !! "label" = Some l
      ∧ py_eq l (effective_alias (PyStr "Large")) = true
      ∧ Forall (λ t, ∃ l', t !! "label" = Some l'
                           ∧ py_eq l' (effective_alias (PyStr "Large")) = false)
               pre
      ∧ Forall (λ t : gmap string pyval, is_Some (t !! "label")) post.
Proof.
  split; [vm_compute; reflexivity |].
  apply (size_for_alias_first_match two_sizes (PyStr "Large")).
  vm_compute. reflexivity.
Defined.

Lemma length_replace_delete (old s : string) :
  old ≠ "" → (String.length (replace old "" s) ≤ String.length s)%nat.
Proof.
  intros Hold.
  remember (String.length s) as n eqn:Hn. revert s Hn.
  induction n as [n IH] using lt_wf_ind. intros s ->.
  destruct s as [|c s]; [by rewrite replace_nil |].
  rewrite replace_cons by done.
  destruct (startswith old (String c s)).
  - cbn [String.append].
    assert (String.length (drop (String.length old) (String c s))
            < String.length (String c s))%nat as Hlt.
    { rewrite length_drop. destruct old; [done |]. simpl. lia. }
    specialize (IH _ Hlt _ eq_refl). lia.
  - cbn [String.length]. specialize (IH (String.length s) ltac:(simpl; lia) s eq_refl).
    lia.
Qed.

Lemma variant_url_eq (p : photo) (alias : pyval) :
  (if py_eq alias (PyStr "Medium 640") then getMedium640 p else getMedium p)
  = variant_url p alias.
Proof. unfold variant_url. by rewrite py_eq_str. Qed.

(** X6.  [url_for_alias] asks the photo for one variant only.  When that
    call raises, so does [url_for_alias], with the same exception; when it
    returns something that is not a string, [url_for_alias] raises
    [AttributeError]; when it returns a string, [url_for_alias] returns a
    string that is never longer, and the very same string when neither
    ["http:"] nor ["https:"] occurs in it. *)
Theorem url_for_alias_outcomes (p : photo) (alias : pyval) :
  (∀ e, variant_url p alias = Raise e → url_for_alias p alias = Raise e)
  ∧ (∀ v, variant_url p alias = Ok v → is_str v = false →
          url_for_alias p alias = Raise AttributeError)
  ∧ (∀ u, variant_url p alias = Ok (PyStr u) →
          ∃ r, url_for_alias p alias = Ok (PyStr r)
               ∧ (String.length r ≤ String.length u)%nat
               ∧ (contains "http:" u = false → contains "https:" u = false →
                  r = u)).
Proof.
  unfold url_for_alias. rewrite variant_url_eq.
  split; [| split].
  - by intros e ->.
  - intros v -> Hv. by destruct v.
  - intros u ->. eexists. split; [reflexivity |]. split.
    + etrans; [apply length_replace_delete; done |].
      by apply length_replace_delete.
    + intros H1 H2. by rewrite (replace_absent "http:"), replace_absent.
Qed.

End alias_facts.

(** * The pass, phase by phase *)

Section pass_exact.
Context `{Pickle}.

Lemma found_matches_app (pm : gmap string (gmap string pyval))
    (l1 l2 : list (string * string)) :
  found_matches pm (l1 ++ l2) = (found_matches pm l1 ++ found_matches pm l2)%list.
Proof. unfold found_matches. apply List.filter_app. Qed.

Lemma lost_matches_app (pm : gmap string (gmap string pyval))
    (l1 l2 : list (string * string)) :
  lost_matches pm (l1 ++ l2) = (lost_matches pm l1 ++ lost_matches pm l2)%list.
Proof. unfold lost_matches. apply List.filter_app. Qed.

(** The loop over the items: the items it leaves, one error record for each
    match without a record, one rendering for each of the others. *)
Lemma substitute_items_exact (tpl : template)
    (pm : gmap string (gmap string pyval)) (items : list item) (w : world) :
  substitute_items tpl pm items w
  = Normal (substituted tpl (context w) pm (renders w) items)
      (touch (const lost_message <$> lost_matches pm (all_matches items)) []
             (length (found_matches pm (all_matches items))) w).
Proof.
  revert w. induction items as [|it items IH]; intros w.
  - cbn. by rewrite touch_nil.
  - cbn [substitute_items substituted]. rewrite bind_run, substitute_matches_run.
    rewrite bind_run, IH, touch_touch. cbn [mret M_ret].
    cbn [all_matches].
    rewrite found_matches_app, lost_matches_app, fmap_app, length_app.
    reflexivity.
Qed.

Lemma choose_template_exact (w : world) :
  choose_template w
  = match chosen_template w with
    | Ok t => Normal t (touch (template_log w) [] 0 w)
    | Raise e => Raised e w
    end.
Proof.
  unfold choose_template, chosen_template, template_log, template_message.
  rewrite bind_run. cbn [get_world].
  case_bool_decide; [by rewrite touch_nil |].
  unfold try_except, lift.
  destruct (get_template w _) as [t|e]; [by rewrite touch_nil |].
  cbn [raise]. destruct (is_Exception e); [| done].
  by rewrite bind_run, logger_run.
Qed.

Lemma chosen_template_touch l c n (w : world) :
  chosen_template (touch l c n w) = chosen_template w
  ∧ template_log (touch l c n w) = template_log w.
Proof. done. Qed.

Lemma substitute_phase_exact (ct : string) (a : bool) (items : list item)
    (pm : gmap string (gmap string pyval)) (w : world) :
  ∃ l,
    Forall not_lost l ∧
    substitute_phase ct a items pm w
    = match chosen_template w with
      | Ok t =>
          Normal tt
            (with_items a (substituted t (context w) pm (renders w) items)
               (touch (l ++ (const lost_message
                             <$> lost_matches pm (all_matches items))) []
                      (length (found_matches pm (all_matches items))) w))
      | Raise e => Raised e w
      end.
Proof.
  exists (template_log w ++
          [(INFO, "[flickrtag]: Inserting photo information into "
                  +:+ ct +:+ "s...")])%list.
  split.
  - apply Forall_app. split; [| by repeat constructor].
    unfold template_log. case_bool_decide; [constructor |].
    destruct (get_template w _) as [t|e]; [constructor |].
    destruct (is_Exception e); [| constructor].
    repeat constructor. unfold not_lost, template_message, lost_message.
    intros [= Heq].
  - unfold substitute_phase. rewrite bind_run, choose_template_exact.
    destruct (chosen_template w) as [t|e]; [| done].
    rewrite bind_run, logger_run, touch_touch, bind_run.
    rewrite substitute_items_exact, touch_touch. unfold set_items.
    cbn [context renders touch with_renders with_photo_calls with_log].
    by rewrite !Nat.add_0_r.
Qed.

Lemma is_article_page (ct_type : string) :
  is_article ct_type = negb (String.eqb ct_type "page").
Proof.
  unfold is_article, norm_kind.
  destruct (String.eqb_spec ct_type "article") as [->|Ha]; [done |].
  destruct (String.eqb_spec ct_type "page") as [->|Hp]; done.
Qed.

Lemma generic_replace_exact (ct_type : string) (w : world)
    (api : string → photo) :
  flickr_api_client w = Some api →
  ∃ l,
    Forall not_lost l ∧
    generic_replace ct_type w =
      match cache_phase api (cache_location w) (include_dimensions_of w)
              (size_alias_of w) (scan_ids (kind_items ct_type w))
              (touch l [] 0 w) with
      | Normal pm w3 =>
          substitute_phase (norm_kind ct_type) (is_article ct_type)
            (kind_items ct_type w) pm w3
      | Raised e w3 => Raised e w3
      end.
Proof.
  intros Hapi. unfold generic_replace. rewrite bind_run. cbn [get_world].
  rewrite Hapi, bind_run, logger_run, bind_run. unfold scan_items at 1.
  cbn [touch with_renders with_photo_calls with_log articles pages].
  rewrite (kind_items_norm ct_type w).
  rewrite bind_run, logger_run, touch_touch, bind_run.
  eexists. split; [| reflexivity].
  by repeat constructor.
Qed.

Lemma cache_phase_exact (api : string → photo) (incl alias : pyval)
    (ids : gset string) (w w1 : world)
    (pm0 : gmap string (gmap string pyval)) (p : string) :
  start_mapping w = Some pm0 → fs w1 = fs w → cache_location w = PyStr p →
  let todo := elements (ids ∖ dom pm0) in
  let pm := resolve_all api (context w1) incl alias todo pm0 in
  ∃ l,
    Forall not_lost l ∧
    cache_phase api (cache_location w) incl alias ids w1
    = match todo with
      | [] => Normal pm0 (touch l [] 0 w1)
      | _ :: _ =>
          if bool_decide (p ∈ unwritable w1)
          then Raised IOError (touch l todo 0 w1)
          else Normal pm (with_file p (pickle_dumps pm) (touch l todo 0 w1))
      end.
Proof.
  intros Hstart Hfs Hpath todo pm. unfold cache_phase.
  rewrite bind_run, (load_cache_start _ _ _ _ Hstart Hfs).
  fold todo. unfold fetch_and_store.
  destruct todo as [|id rest] eqn:Htodo.
  - rewrite bind_run, logger_run. eexists. split; [| reflexivity].
    by repeat constructor.
  - rewrite bind_run, logger_run, bind_run, fetch_loop_run, touch_touch.
    cbn [context touch with_renders with_photo_calls with_log].
    fold pm. rewrite bind_run, Hpath. unfold dump_cache.
    cbn [unwritable touch with_renders with_photo_calls with_log].
    eexists. split;
      [| destruct (bool_decide (p ∈ unwritable w1)); reflexivity].
    apply Forall_app. split; [by repeat constructor |].
    apply Forall_fmap, Forall_forall. intros d _. by cbn.
Qed.

(** The pass after a load that completes, in one equation. *)
Lemma generic_replace_run (ct_type : string) (w : world)
    (api : string → photo) (pm0 : gmap string (gmap string pyval))
    (p : string) :
  flickr_api_client w = Some api →
  start_mapping w = Some pm0 →
  cache_location w = PyStr p →
  let todo := elements (missing ct_type w pm0) in
  let pm := fetched_mapping api ct_type w pm0 in
  let items := kind_items ct_type w in
  ∃ l1 l2,
    Forall not_lost l1 ∧ Forall not_lost l2 ∧
    generic_replace ct_type w =
      match todo with
      | [] =>
          match chosen_template w with
          | Raise e => Raised e (touch l1 [] 0 w)
          | Ok t =>
              Normal tt
                (with_items (is_article ct_type)
                   (substituted t (context w) pm0 (renders w) items)
                   (touch (l2 ++ (const lost_message
                                  <$> lost_matches pm0 (all_matches items)))
                          []
                          (length (found_matches pm0 (all_matches items)))
                          (touch l1 [] 0 w)))
          end
      | _ :: _ =>
          if bool_decide (p ∈ unwritable w)
          then Raised IOError (touch l1 todo 0 w)
          else
            match chosen_template w with
            | Raise e =>
                Raised e (with_file p (pickle_dumps pm) (touch l1 todo 0 w))
            | Ok t =>
                Normal tt
                  (with_items (is_article ct_type)
                     (substituted t (context w) pm (renders w) items)
                     (touch (l2 ++ (const lost_message
                                    <$> lost_matches pm (all_matches items)))
                            []
                            (length (found_matches pm (all_matches items)))
                            (with_file p (pickle_dumps pm)
                               (touch l1 todo 0 w))))
            end
      end.
Proof.
  intros Hapi Hstart Hpath todo pm items.
  destruct (generic_replace_exact ct_type w api Hapi) as (l & Hl & ->).
  destruct (cache_phase_exact api (include_dimensions_of w) (size_alias_of w)
              (scan_ids (kind_items ct_type w)) w (touch l [] 0 w) pm0 p
              Hstart eq_refl Hpath) as (l' & Hl' & ->).
  fold (missing ct_type w pm0). fold todo.
  cbn [context unwritable touch with_renders with_photo_calls with_log].
  unfold pm, fetched_mapping. fold todo. clear pm.
  destruct todo as [|id rest] eqn:Htodo.
  - match goal with
    | |- context [substitute_phase ?c ?a ?its ?m ?w3] =>
        destruct (substitute_phase_exact c a its m w3) as (l2 & Hl2 & ->)
    end.
    rewrite touch_touch.
    exists (l ++ l')%list, l2.
    split; [by apply Forall_app |]. split; [done |].
    change (chosen_template (touch (l ++ l') ([] ++ []) (0 + 0) w))
      with (chosen_template w).
    destruct (chosen_template w); [| reflexivity].
    cbn [context renders touch with_renders with_photo_calls with_log].
    by rewrite Nat.add_0_r.
  - destruct (bool_decide (p ∈ unwritable w)).
    + rewrite touch_touch. exists (l ++ l')%list, [].
      split; [by apply Forall_app |]. split; [constructor |]. reflexivity.
    + match goal with
      | |- context [substitute_phase ?c ?a ?its ?m ?w3] =>
          destruct (substitute_phase_exact c a its m w3) as (l2 & Hl2 & ->)
      end.
      rewrite touch_touch.
      exists (l ++ l')%list, l2.
      split; [by apply Forall_app |]. split; [done |].
      match goal with
      | |- context [chosen_template (with_file ?a ?b ?c)] =>
          change (chosen_template (with_file a b c))
            with (chosen_template w)
      end.
      destruct (chosen_template w); [| reflexivity].
      cbn [context renders touch with_file with_renders with_photo_calls
             with_log].
      by rewrite Nat.add_0_r.
Qed.

End pass_exact.

(** * What a pass does and does not do *)

Section pass_extras.
Context `{Pickle}.

Lemma all_matches_scanned (items : list item) (m : string * string) :
  m ∈ all_matches items → m.2 ∈ scan_ids items.
Proof.
  intros Hm.
  assert (∃ it, it ∈ items ∧ m ∈ findall (_content it)) as (it & Hit & Hin).
  { induction items as [|it items IH]; [by apply elem_of_nil in Hm |].
    cbn [all_matches] in Hm. apply elem_of_app in Hm as [Hm | Hm].
    - exists it. split; [left | done].
    - destruct (IH Hm) as (it' & Hit' & Hm'). exists it'.
      split; [by right | done]. }
  apply elem_of_scan_ids. exists it. split; [done |].
  destruct (findall_sound _ _ Hin) as [(Hfull & _) _].
  destruct m as [full d]. simpl in *. by subst full.
Qed.

(** After the cache phase every identifier named in the items has a
    record. *)
Lemma fetched_mapping_covers (api : string → photo) (ct_type : string)
    (w : world) (pm0 : gmap string (gmap string pyval)) (d : string) :
  d ∈ scan_ids (kind_items ct_type w) →
  is_Some (fetched_mapping api ct_type w pm0 !! d).
Proof.
  intros Hd. apply elem_of_dom.
  destruct (fetched_mapping_complete api ct_type w pm0) as [_ ->].
  unfold missing. destruct (decide (d ∈ dom pm0)); set_solver.
Qed.

Lemma lost_matches_nil (pm : gmap string (gmap string pyval))
    (ms : list (string * string)) :
  (∀ m, m ∈ ms → is_Some (pm !! m.2)) → lost_matches pm ms = [].
Proof.
  intros Hall. unfold lost_matches.
  induction ms as [|m ms IH]; [done |]. cbn [List.filter].
  destruct (Hall m ltac:(left)) as [r Hr]. rewrite Hr.
  rewrite bool_decide_false by done. apply IH.
  intros m' Hm'. apply Hall. by right.
Qed.

Lemma found_matches_all (pm : gmap string (gmap string pyval))
    (ms : list (string * string)) :
  (∀ m, m ∈ ms → is_Some (pm !! m.2)) → found_matches pm ms = ms.
Proof.
  intros Hall. unfold found_matches.
  induction ms as [|m ms IH]; [done |]. cbn [List.filter].
  rewrite bool_decide_true by (apply Hall; left). f_equal. apply IH.
  intros m' Hm'. apply Hall. by right.
Qed.

Lemma fetched_mapping_nothing_missing (api : string → photo)
    (ct_type : string) (w : world) (pm0 : gmap string (gmap string pyval)) :
  elements (missing ct_type w pm0) = [] →
  fetched_mapping api ct_type w pm0 = pm0.
Proof. intros Hnil. unfold fetched_mapping. by rewrite Hnil. Qed.

(** X7.  In a pass that has an API object and gets past its load, the
    remote service is asked for each referenced identifier that the starting
    mapping lacks exactly once, and for no other identifier; this holds also
    when the pass ends with an exception after the fetch. *)
Theorem remote_called_once_per_missing (ct_type : string) (w : world)
    (api : string → photo) (pm0 : gmap string (gmap string pyval)) :
  flickr_api_client w = Some api →
  start_mapping w = Some pm0 →
  ∃ todo,
    photo_calls (world_of (generic_replace ct_type w))
    = (photo_calls w ++ todo)%list
    ∧ NoDup todo
    ∧ ∀ d, d ∈ todo
           ↔ d ∈ scan_ids (kind_items ct_type w) ∧ pm0 !! d = None.
Proof.
  intros Hapi Hstart.
  destruct (start_mapping_path w pm0 Hstart) as [p Hpath].
  exists (elements (missing ct_type w pm0)).
  split; [| split].
  - destruct (generic_replace_run ct_type w api pm0 p Hapi Hstart Hpath)
      as (l1 & l2 & _ & _ & ->).
    destruct (elements (missing ct_type w pm0)) as [|id rest].
    + destruct (chosen_template w); cbn; by rewrite !app_nil_r.
    + destruct (bool_decide (p ∈ unwritable w)); [done |].
      destruct (chosen_template w); cbn; by rewrite ?app_nil_r.
  - apply NoDup_elements.
  - intros d. rewrite elem_of_elements. unfold missing.
    rewrite elem_of_difference, not_elem_of_dom. done.
Qed.

(** X8.  When the context holds no cache location (the key is missing, or
    its value is [None]), a pass that has an API object ends with
    [TypeError] before anything is fetched, written or substituted: only
    the log has grown. *)
Theorem pass_without_cache_location (ct_type : string) (w : world)
    (api : string → photo) :
  flickr_api_client w = Some api →
  cache_location w = PyNone →
  ∃ l, generic_replace ct_type w = Raised TypeError (touch l [] 0 w).
Proof.
  intros Hapi Hnone.
  destruct (generic_replace_exact ct_type w api Hapi) as (l & _ & ->).
  unfold cache_phase. rewrite bind_run, load_cache_run.
  cbn [fs touch with_renders with_photo_calls with_log].
  exists l. unfold read_cache. by rewrite Hnone.
Qed.

(** X9.  When identifiers are missing and the cache path cannot be
    written, a pass that has an API object and gets past its load ends with
    [IOError] after it has asked the remote service for every missing
    identifier: no file is changed and no item is substituted. *)
Theorem pass_with_unwritable_cache (ct_type : string) (w : world)
    (api : string → photo) (pm0 : gmap string (gmap string pyval))
    (p : string) :
  flickr_api_client w = Some api →
  start_mapping w = Some pm0 →
  cache_location w = PyStr p →
  p ∈ unwritable w →
  missing ct_type w pm0 ≠ ∅ →
  ∃ l, generic_replace ct_type w
       = Raised IOError (touch l (elements (missing ct_type w pm0)) 0 w).
Proof.
  intros Hapi Hstart Hpath Hw Hm.
  destruct (generic_replace_run ct_type w api pm0 p Hapi Hstart Hpath)
    as (l1 & l2 & _ & _ & ->).
  destruct (elements (missing ct_type w pm0)) as [|id rest] eqn:Htodo.
  { by apply elements_empty_inv, leibniz_equiv in Htodo. }
  rewrite bool_decide_true by done. by exists l1.
Qed.

Lemma substituted_length (tpl : template) (ctx : gmap string pyval)
    (pm : gmap string (gmap string pyval)) (n : nat) (items : list item) :
  length (substituted tpl ctx pm n items) = length items.
Proof.
  revert n. induction items as [|it items IH]; intros n; [done |].
  cbn [substituted length]. by rewrite IH.
Qed.

(** The cache phase touches neither the items nor the context, however it
    ends. *)
Lemma cache_phase_items_kept (api : string → photo)
    (tmp incl alias : pyval) (ids : gset string) (w : world) :
  items_kept w (world_of (cache_phase api tmp incl alias ids w)).
Proof.
  unfold cache_phase. rewrite bind_run, load_cache_run.
  assert (∀ todo pm,
    items_kept w (world_of (fetch_and_store api tmp incl alias todo pm w)))
    as Hfetch.
  { intros todo pm. unfold fetch_and_store. destruct todo as [|id rest].
    - by rewrite bind_run, logger_run.
    - rewrite bind_run, logger_run, bind_run, fetch_loop_run, touch_touch.
      rewrite bind_run. unfold dump_cache.
      destruct tmp as [| |z|p]; try done.
      by destruct (bool_decide _). }
  destruct (read_cache (fs w) tmp) as [pm|e]; [apply Hfetch |].
  destruct (load_caught e); [apply Hfetch | done].
Qed.

(** Where a pass leaves the world: the items of the other kind and the
    context as they were, the items of its kind as they were or replaced by
    as many. *)
Lemma generic_replace_shape (ct_type : string) (w : world) :
  ∃ w2,
    items_kept w w2
    ∧ (world_of (generic_replace ct_type w) = w2
       ∨ ∃ l, length l = length (kind_items ct_type w)
              ∧ world_of (generic_replace ct_type w)
                = with_items (is_article ct_type) l w2).
Proof.
  destruct (flickr_api_client w) as [api|] eqn:Hapi.
  - destruct (generic_replace_exact ct_type w api Hapi) as (l & _ & ->).
    pose proof (cache_phase_items_kept api (cache_location w)
                  (include_dimensions_of w) (size_alias_of w)
                  (scan_ids (kind_items ct_type w)) (touch l [] 0 w)) as Hk.
    destruct (cache_phase _ _ _ _ _ _) as [pm w3|e w3]; cbn [world_of] in Hk.
    + match goal with
      | |- context [substitute_phase ?c ?a ?its ?m ?w3] =>
          destruct (substitute_phase_exact c a its m w3) as (l2 & _ & ->)
      end.
      destruct (chosen_template w3) as [t|e].
      * eexists. split; [| right; eexists; split; [| reflexivity]].
        -- exact Hk.
        -- apply substituted_length.
      * exists w3. split; [exact Hk | by left].
    + exists w3. split; [exact Hk | by left].
  - rewrite (generic_replace_no_api ct_type w Hapi).
    eexists. split; [| by left]. done.
Qed.

Lemma generic_replace_frame (ct_type : string) (w : world) :
  (ct_type ≠ "page" →
     generic_replace ct_type w = generic_replace "article" w
     ∧ pages (world_of (generic_replace ct_type w)) = pages w)
  ∧ (ct_type = "page" →
       articles (world_of (generic_replace ct_type w)) = articles w)
  ∧ length (articles (world_of (generic_replace ct_type w)))
    = length (articles w)
  ∧ length (pages (world_of (generic_replace ct_type w))) = length (pages w)
  ∧ context (world_of (generic_replace ct_type w)) = context w.
Proof.
  assert (ct_type ≠ "page" →
          generic_replace ct_type w = generic_replace "article" w) as Hart.
  { intros Hct. unfold generic_replace.
    destruct (String.eqb_spec ct_type "article") as [->|?]; [done |].
    by destruct (String.eqb_spec ct_type "page"). }
  destruct (generic_replace_shape ct_type w)
    as (w2 & (Ha & Hp & Hc) & [Hw | (l & Hl & Hw)]); rewrite !Hw.
  - rewrite Ha, Hp, Hc. split; [| done]. intros Hct. split; [| done].
    by apply Hart.
  - clear Hw. rewrite is_article_page. unfold kind_items in Hl.
    destruct (String.eqb_spec ct_type "page") as [->|Hct];
      cbn [negb with_items articles pages context].
    + repeat split; try done; congruence.
    + repeat split; try done; try congruence. by apply Hart.
Qed.

(** X10.  A pass for a kind other than ['page'] is the article pass, and
    it leaves the pages as they are; the page pass leaves the articles as
    they are: so [replace_article_tags] keeps the pages and
    [replace_page_tags] keeps the articles.  Whatever the kind and however
    the pass ends, it keeps the number of articles and of pages, and it does
    not touch the context. *)
Theorem pass_kind_frame (ct_type : string) (w : world) :
  (ct_type ≠ "page" →
     generic_replace ct_type w = generic_replace "article" w
     ∧ pages (world_of (generic_replace ct_type w)) = pages w)
  ∧ (ct_type = "page" →
       articles (world_of (generic_replace ct_type w)) = articles w)
  ∧ pages (world_of (replace_article_tags w)) = pages w
  ∧ articles (world_of (replace_page_tags w)) = articles w
  ∧ length (articles (world_of (generic_replace ct_type w)))
    = length (articles w)
  ∧ length (pages (world_of (generic_replace ct_type w))) = length (pages w)
  ∧ context (world_of (generic_replace ct_type w)) = context w.
Proof.
  destruct (generic_replace_frame ct_type w) as (Hart & Hpage & Hrest).
  destruct (generic_replace_frame "article" w) as (Ha & _).
  destruct (generic_replace_frame "page" w) as (_ & Hp & _).
  split; [exact Hart |]. split; [exact Hpage |].
  split; [by apply Ha |]. split; [by apply Hp |]. exact Hrest.
Qed.

Lemma findall_nil_of_scan (items : list item) :
  scan_ids items = ∅ → ∀ it, it ∈ items → findall (_content it) = [].
Proof.
  intros Hscan it Hit.
  destruct (findall (_content it)) as [|[full d] ms] eqn:Hf; [done |].
  assert (d ∈ scan_ids items) as Hd.
  { apply elem_of_scan_ids. exists it. split; [done |].
    assert ((full, d) ∈ findall (_content it)) as Hin by (rewrite Hf; left).
    destruct (findall_sound _ _ Hin) as [(Hfull & _) _]. simpl in Hfull.
    by subst full. }
  rewrite Hscan in Hd. by apply elem_of_empty in Hd.
Qed.

Lemma all_matches_nil (items : list item) :
  (∀ it, it ∈ items → findall (_content it) = []) → all_matches items = [].
Proof.
  induction items as [|it items IH]; intros Hall; [done |].
  cbn [all_matches]. rewrite (Hall it) by left. apply IH.
  intros it' Hit'. apply Hall. by right.
Qed.

Lemma substituted_no_matches (tpl : template) (ctx : gmap string pyval)
    (pm : gmap string (gmap string pyval)) (n : nat) (items : list item) :
  (∀ it, it ∈ items → findall (_content it) = []) →
  substituted tpl ctx pm n items = items.
Proof.
  revert n. induction items as [|it items IH]; intros n Hall; [done |].
  cbn [substituted]. rewrite (Hall it) by left. cbn [replace_loop].
  rewrite IH by (intros it' Hit'; apply Hall; by right).
  by destruct it.
Qed.

Lemma kind_items_with_items (ct_type : string) (l : list item) (w : world) :
  kind_items ct_type (with_items (is_article ct_type) l w) = l.
Proof.
  rewrite is_article_page. unfold kind_items.
  by destruct (String.eqb ct_type "page").
Qed.

Lemma with_items_same (ct_type : string) (w w2 : world) :
  articles w2 = articles w → pages w2 = pages w →
  articles (with_items (is_article ct_type) (kind_items ct_type w) w2)
  = articles w
  ∧ pages (with_items (is_article ct_type) (kind_items ct_type w) w2)
    = pages w.
Proof.
  intros Ha Hp. rewrite is_article_page. unfold kind_items.
  by destruct (String.eqb ct_type "page").
Qed.

(** X11.  When no item of the kind holds a tag, a pass that has an API
    object and gets past its load reads the cache and does nothing else
    but log: it calls no service, writes no file (an absent cache file is
    not created), renders nothing and leaves every item as it is. *)
Theorem pass_without_tags (ct_type : string) (w : world)
    (api : string → photo) (pm0 : gmap string (gmap string pyval)) :
  flickr_api_client w = Some api →
  start_mapping w = Some pm0 →
  scan_ids (kind_items ct_type w) = ∅ →
  fs (world_of (generic_replace ct_type w)) = fs w
  ∧ writes (world_of (generic_replace ct_type w)) = writes w
  ∧ photo_calls (world_of (generic_replace ct_type w)) = photo_calls w
  ∧ renders (world_of (generic_replace ct_type w)) = renders w
  ∧ articles (world_of (generic_replace ct_type w)) = articles w
  ∧ pages (world_of (generic_replace ct_type w)) = pages w.
Proof.
  intros Hapi Hstart Hscan.
  destruct (start_mapping_path w pm0 Hstart) as [p Hpath].
  destruct (generic_replace_run ct_type w api pm0 p Hapi Hstart Hpath)
    as (l1 & l2 & _ & _ & ->).
  assert (elements (missing ct_type w pm0) = []) as ->.
  { unfold missing. rewrite Hscan.
    replace (∅ ∖ dom pm0 : gset string) with (∅ : gset string);
      [apply elements_empty |].
    apply set_eq. intros x. rewrite elem_of_difference.
    split; [by intros ?%elem_of_empty | by intros [?%elem_of_empty _]]. }
  pose proof (findall_nil_of_scan _ Hscan) as Hnil.
  destruct (chosen_template w) as [t|e].
  - rewrite substituted_no_matches, all_matches_nil by done.
    cbn [world_of found_matches lost_matches List.filter length fmap
           list_fmap].
    destruct (with_items_same ct_type w
                (touch (l2 ++ []) [] 0 (touch l1 [] 0 w)) eq_refl eq_refl)
      as [-> ->].
    cbn. by rewrite !app_nil_r, !Nat.add_0_r.
  - cbn. by rewrite !app_nil_r, !Nat.add_0_r.
Qed.

Lemma not_lost_log (l1 l2 : list (level * string)) :
  Forall not_lost l2 → lost_message ∉ l1 → lost_message ∉ (l1 ++ l2)%list.
Proof.
  intros Hl2 Hl1 [? | Hin]%elem_of_app; [done |].
  by apply (proj1 (Forall_forall _ _) Hl2 _ Hin).
Qed.

(** X12.  In a pass that has an API object and gets past its load, every
    match of every item of the kind has a record when the substitution
    begins, so the error of a match without a record is never logged:
    a log without it stays without it, however the pass ends. *)
Theorem pass_never_misses_a_record (ct_type : string) (w : world)
    (api : string → photo) (pm0 : gmap string (gmap string pyval)) :
  flickr_api_client w = Some api →
  start_mapping w = Some pm0 →
  (∀ m, m ∈ all_matches (kind_items ct_type w) →
        is_Some (fetched_mapping api ct_type w pm0 !! m.2))
  ∧ (lost_message ∉ log w →
     lost_message ∉ log (world_of (generic_replace ct_type w))).
Proof.
  intros Hapi Hstart.
  assert (∀ m, m ∈ all_matches (kind_items ct_type w) →
               is_Some (fetched_mapping api ct_type w pm0 !! m.2)) as Hcov.
  { intros m Hm. by apply fetched_mapping_covers, all_matches_scanned. }
  split; [done |]. intros Hlog.
  destruct (start_mapping_path w pm0 Hstart) as [p Hpath].
  destruct (generic_replace_run ct_type w api pm0 p Hapi Hstart Hpath)
    as (l1 & l2 & Hl1 & Hl2 & ->).
  destruct (elements (missing ct_type w pm0)) as [|id rest] eqn:Htodo.
  - rewrite (fetched_mapping_nothing_missing _ _ _ _ Htodo) in Hcov.
    destruct (chosen_template w) as [t|e]; cbn.
    + rewrite (lost_matches_nil _ _ Hcov). cbn. rewrite app_nil_r.
      by apply not_lost_log, not_lost_log.
    + by apply not_lost_log.
  - destruct (bool_decide (p ∈ unwritable w)); [by apply not_lost_log |].
    destruct (chosen_template w) as [t|e]; cbn.
    + rewrite (lost_matches_nil _ _ Hcov). cbn. rewrite app_nil_r.
      by apply not_lost_log, not_lost_log.
    + by apply not_lost_log.
Qed.

(** X13.  When a pass that has an API object and got past its load
    returns, the items of its kind are those that the loop of [replace]
    calls gives with the mapping after the cache phase and the chosen
    template, and the template has been rendered once for every match of
    every item, occurrences of one identifier counted each. *)
Theorem pass_renders_every_match (ct_type : string) (w w' : world)
    (api : string → photo) (pm0 : gmap string (gmap string pyval)) :
  flickr_api_client w = Some api →
  start_mapping w = Some pm0 →
  generic_replace ct_type w = Normal tt w' →
  ∃ t,
    chosen_template w = Ok t
    ∧ kind_items ct_type w'
      = substituted t (context w) (fetched_mapping api ct_type w pm0)
          (renders w) (kind_items ct_type w)
    ∧ renders w'
      = renders w + length (all_matches (kind_items ct_type w)).
Proof.
  intros Hapi Hstart.
  assert (∀ m, m ∈ all_matches (kind_items ct_type w) →
               is_Some (fetched_mapping api ct_type w pm0 !! m.2)) as Hcov.
  { intros m Hm. by apply fetched_mapping_covers, all_matches_scanned. }
  destruct (start_mapping_path w pm0 Hstart) as [p Hpath].
  destruct (generic_replace_run ct_type w api pm0 p Hapi Hstart Hpath)
    as (l1 & l2 & _ & _ & ->).
  destruct (elements (missing ct_type w pm0)) as [|id rest] eqn:Htodo.
  - rewrite (fetched_mapping_nothing_missing _ _ _ _ Htodo) in Hcov |- *.
    destruct (chosen_template w) as [t|e]; [| done].
    intros [= <-]. exists t. split; [done |].
    rewrite kind_items_with_items, (found_matches_all _ _ Hcov).
    split; [done |]. cbn. lia.
  - destruct (bool_decide (p ∈ unwritable w)); [done |].
    destruct (chosen_template w) as [t|e]; [| done].
    intros [= <-]. exists t. split; [done |].
    rewrite kind_items_with_items, (found_matches_all _ _ Hcov).
    split; [done |]. cbn. lia.
Qed.

End pass_extras.

(** * The tags that a substitution leaves *)

Section tags_left.
Import PyStr PyStrFacts.

Lemma findall_skip (u x : string) :
  has_char "[" u = false → findall (u +:+ x) = findall x.
Proof.
  induction u as [|c u IH]; cbn [has_char String.append]; [done |].
  intros [Hc Hu]%orb_false_iff.
  by rewrite findall_cons, match_at_bracket, IH.
Qed.

Lemma findall_tag_app (d x : string) :
  all_digits d = true → d ≠ "" →
  findall (tag d +:+ x) = (tag d, d) :: findall x.
Proof.
  intros Hd Hne. rewrite tag_unfold. cbn [String.append].
  rewrite findall_cons.
  change (String "[" (tag_inner d +:+ x)) with (tag d +:+ x).
  by rewrite match_at_tag.
Qed.

(** Where the pattern fails before the substitution, it fails after. *)
Lemma match_at_after_subst (f : gmap string string) (c : ascii) (s : string) :
  good_fragments f →
  match_at (String c s) = None →
  match_at (String c (subst_pass f s)) = None.
Proof.
  intros Hf Hm.
  destruct (match_at (String c (subst_pass f s))) as [[d r]|] eqn:Hm';
    [| done].
  apply match_at_spec in Hm' as (Heq & Hd & Hne).
  pose proof (no_tag_after_subst f d c s Hf Hd Hne Hm) as Hno.
  by rewrite Heq, startswith_app in Hno.
Qed.

(** The matches of the substituted text are the matches of the text whose
    identifier has no fragment. *)
Lemma findall_subst_pass (f : gmap string string) (s : string) :
  good_fragments f →
  findall (subst_pass f s)
  = List.filter (λ m : string * string, bool_decide (f !! m.2 = None))
      (findall s).
Proof.
  intros Hf.
  remember (String.length s) as n eqn:Hn. revert s Hn.
  induction n as [n IH] using lt_wf_ind. intros s ->.
  destruct s as [|c s]; [done |].
  rewrite subst_pass_cons, findall_cons.
  destruct (match_at (String c s)) as [[d r]|] eqn:Hm.
  - pose proof (match_at_shorter _ _ _ Hm) as Hlt.
    apply match_at_spec in Hm as (Hs & Hd & Hne).
    cbn [List.filter snd].
    destruct (f !! d) as [frag|] eqn:Hfd.
    + rewrite bool_decide_false by done.
      pose proof (Hf _ _ Hfd) as (x & fr & -> & _ & Hb)%good_fragment_inv.
      rewrite findall_skip by done. by eapply IH.
    + rewrite bool_decide_true by done.
      rewrite findall_tag_app by done. f_equal. by eapply IH.
  - rewrite findall_cons, match_at_after_subst by done.
    eapply IH; [| done]. simpl. lia.
Qed.

Lemma first_renders_lookup_None (tpl : template) (ctx : gmap string pyval)
    (pm : gmap string (gmap string pyval)) (ids : list string) (n : nat)
    (f : gmap string string) (d : string) :
  first_renders tpl ctx pm n ids f !! d = None
  ↔ f !! d = None ∧ (d ∉ ids ∨ pm !! d = None).
Proof.
  revert n f. induction ids as [|d0 ids IH]; intros n f.
  - cbn. split; [intros ?; split; [done | left; apply not_elem_of_nil]
                | by intros [? _]].
  - cbn [first_renders]. destruct (pm !! d0) as [rec|] eqn:Hrec.
    + rewrite IH, lookup_union_None, not_elem_of_cons.
      destruct (decide (d = d0)) as [->|Hne].
      * rewrite lookup_singleton_eq, Hrec. intuition congruence.
      * rewrite lookup_singleton_ne by done. intuition congruence.
    + rewrite IH, not_elem_of_cons.
      destruct (decide (d = d0)) as [->|Hne]; intuition congruence.
Qed.

(** The matches of a body after the loop of [replace] calls are its
    matches without a record. *)
Lemma findall_replace_loop (tpl : template) (ctx : gmap string pyval)
    (pm : gmap string (gmap string pyval)) (n : nat) (body : string) :
  (∀ k d rec, pm !! d = Some rec → good_fragment (tpl k (rec ∪ ctx)) = true) →
  findall (replace_loop tpl ctx pm n body (findall body))
  = lost_matches pm (findall body).
Proof.
  intros Hgood.
  rewrite <- (subst_pass_empty body) at 1.
  rewrite replace_loop_subst_pass;
    [| done | apply findall_tag_match | apply map_Forall_empty].
  rewrite findall_subst_pass.
  - unfold lost_matches. apply filter_ext_in. intros m Hm.
    apply bool_decide_ext. rewrite first_renders_lookup_None, lookup_empty.
    split; [| by intros ?; split; [| right]].
    intros [_ [Hnot | ?]]; [| done]. exfalso. apply Hnot.
    apply list_elem_of_fmap. exists m. split; [done |].
    by apply list_elem_of_In.
  - assert (∀ ids k f,
      good_fragments f →
      good_fragments (first_renders tpl ctx pm k ids f)) as Hall.
    { induction ids as [|d0 ids IH]; intros k f Hf; [done |].
      cbn [first_renders]. destruct (pm !! d0) as [rec|] eqn:Hrec;
        [| by apply IH].
      apply IH. intros d' frag' [Hl | [_ Hl]]%lookup_union_Some_raw;
        [by eapply Hf |].
      apply lookup_singleton_Some in Hl as [_ <-]. by eapply Hgood. }
    apply Hall, map_Forall_empty.
Qed.

(** X14.  For every item body, when the fragments rendered for the records
    of the mapping start with a character that no tag contains and hold no
    opening bracket, the tags that the pattern finds in the body after the
    inner loop of the substitution are the matches without a record, in
    their order: no tag with a record is left, and the fragments bring in
    none. *)
Theorem tags_left_after_substitution (tpl : template)
    (pm : gmap string (gmap string pyval)) (body : string) (w : world) :
  (∀ k d rec, pm !! d = Some rec →
              good_fragment (tpl k (rec ∪ context w)) = true) →
  ∃ content' w',
    substitute_matches tpl pm body (findall body) w = Normal content' w'
    ∧ findall content' = lost_matches pm (findall body).
Proof.
  intros Hgood. rewrite substitute_matches_run. eexists _, _.
  split; [reflexivity |]. by apply findall_replace_loop.
Qed.

Lemma substituted_no_tags (tpl : template) (ctx : gmap string pyval)
    (pm : gmap string (gmap string pyval)) (n : nat) (items : list item) :
  (∀ k d rec, pm !! d = Some rec → good_fragment (tpl k (rec ∪ ctx)) = true) →
  (∀ m, m ∈ all_matches items → is_Some (pm !! m.2)) →
  ∀ it, it ∈ substituted tpl ctx pm n items → findall (_content it) = [].
Proof.
  intros Hgood. revert n. induction items as [|it0 items IH];
    intros n Hcov it Hit; [by apply elem_of_nil in Hit |].
  cbn [substituted] in Hit. apply elem_of_cons in Hit as [-> | Hit].
  - cbn [_content]. rewrite findall_replace_loop by done.
    apply lost_matches_nil. intros m Hm. apply Hcov.
    cbn [all_matches]. apply elem_of_app. by left.
  - eapply IH; [| exact Hit]. intros m Hm. apply Hcov.
    cbn [all_matches]. apply elem_of_app. by right.
Qed.

Lemma scan_ids_nil (items : list item) :
  (∀ it, it ∈ items → findall (_content it) = []) → scan_ids items = ∅.
Proof.
  intros Hall. apply set_eq. intros d. rewrite elem_of_scan_ids.
  split; [| by intros ?%elem_of_empty].
  intros (it & Hit & Hm). rewrite (Hall it Hit) in Hm.
  by apply elem_of_nil in Hm.
Qed.

End tags_left.

(** * A pass that returns, and the pass after it *)

Section pass_again.
Context `{Pickle}.

(** The world a pass leaves when no item of its kind holds a tag. *)
Lemma generic_replace_no_tags_world (ct_type : string) (w : world)
    (api : string → photo) (pm0 : gmap string (gmap string pyval)) :
  flickr_api_client w = Some api →
  start_mapping w = Some pm0 →
  scan_ids (kind_items ct_type w) = ∅ →
  ∃ l,
    world_of (generic_replace ct_type w) = touch l [] 0 w
    ∨ world_of (generic_replace ct_type w)
      = with_items (is_article ct_type) (kind_items ct_type w)
          (touch l [] 0 w).
Proof.
  intros Hapi Hstart Hscan.
  destruct (start_mapping_path w pm0 Hstart) as [p Hpath].
  destruct (generic_replace_run ct_type w api pm0 p Hapi Hstart Hpath)
    as (l1 & l2 & _ & _ & ->).
  assert (elements (missing ct_type w pm0) = []) as ->.
  { unfold missing. rewrite Hscan.
    replace (∅ ∖ dom pm0 : gset string) with (∅ : gset string);
      [apply elements_empty |].
    apply set_eq. intros x. rewrite elem_of_difference.
    split; [by intros ?%elem_of_empty | by intros [?%elem_of_empty _]]. }
  pose proof (findall_nil_of_scan _ Hscan) as Hnil.
  destruct (chosen_template w) as [t|e].
  - rewrite substituted_no_matches, all_matches_nil by done.
    exists (l1 ++ l2)%list. right. cbn [world_of]. f_equal.
    cbn. rewrite touch_touch. by rewrite !app_nil_r.
  - exists l1. by left.
Qed.

(** The world a pass leaves when it returns. *)
Lemma generic_replace_returns (ct_type : string) (w w' : world)
    (api : string → photo) (pm0 : gmap string (gmap string pyval)) :
  flickr_api_client w = Some api →
  start_mapping w = Some pm0 →
  generic_replace ct_type w = Normal tt w' →
  ∃ t w2,
    chosen_template w = Ok t
    ∧ w' = with_items (is_article ct_type)
             (substituted t (context w) (fetched_mapping api ct_type w pm0)
                (renders w) (kind_items ct_type w)) w2
    ∧ flickr_api_client w2 = Some api
    ∧ context w2 = context w.
Proof.
  intros Hapi Hstart.
  destruct (start_mapping_path w pm0 Hstart) as [p Hpath].
  destruct (generic_replace_run ct_type w api pm0 p Hapi Hstart Hpath)
    as (l1 & l2 & _ & _ & ->).
  destruct (elements (missing ct_type w pm0)) as [|id rest] eqn:Htodo.
  - rewrite (fetched_mapping_nothing_missing _ _ _ _ Htodo).
    destruct (chosen_template w) as [t|e]; [| done].
    intros [= <-]. by eexists _, _.
  - destruct (bool_decide (p ∈ unwritable w)); [done |].
    destruct (chosen_template w) as [t|e]; [| done].
    intros [= <-]. by eexists _, _.
Qed.

(** X15.  When a pass that has an API object and got past its load
    returns, and the fragments its template renders for the records start
    with a character that no tag contains and hold no opening bracket, no
    item of its kind holds a tag any more. *)
Theorem pass_leaves_no_tag (ct_type : string) (w w' : world)
    (api : string → photo) (pm0 : gmap string (gmap string pyval))
    (t : template) :
  flickr_api_client w = Some api →
  start_mapping w = Some pm0 →
  generic_replace ct_type w = Normal tt w' →
  chosen_template w = Ok t →
  (∀ k d rec, fetched_mapping api ct_type w pm0 !! d = Some rec →
              good_fragment (t k (rec ∪ context w)) = true) →
  scan_ids (kind_items ct_type w') = ∅.
Proof.
  intros Hapi Hstart Hrun Ht Hgood.
  destruct (generic_replace_returns ct_type w w' api pm0 Hapi Hstart Hrun)
    as (t' & w2 & Ht' & -> & _ & _).
  rewrite Ht in Ht'. injection Ht' as <-.
  rewrite kind_items_with_items. apply scan_ids_nil.
  apply substituted_no_tags; [done |].
  intros m Hm. by apply fetched_mapping_covers, all_matches_scanned.
Qed.

(** X16.  Under the same conditions, a second pass of the same kind whose
    load completes changes nothing but the log: it calls no service, writes
    no file, renders nothing and leaves every item as the first pass left
    it. *)
Theorem second_pass_changes_nothing (ct_type : string) (w w' : world)
    (api : string → photo) (pm0 pm1 : gmap string (gmap string pyval))
    (t : template) :
  flickr_api_client w = Some api →
  start_mapping w = Some pm0 →
  generic_replace ct_type w = Normal tt w' →
  chosen_template w = Ok t →
  (∀ k d rec, fetched_mapping api ct_type w pm0 !! d = Some rec →
              good_fragment (t k (rec ∪ context w)) = true) →
  start_mapping w' = Some pm1 →
  fs (world_of (generic_replace ct_type w')) = fs w'
  ∧ writes (world_of (generic_replace ct_type w')) = writes w'
  ∧ photo_calls (world_of (generic_replace ct_type w')) = photo_calls w'
  ∧ renders (world_of (generic_replace ct_type w')) = renders w'
  ∧ articles (world_of (generic_replace ct_type w')) = articles w'
  ∧ pages (world_of (generic_replace ct_type w')) = pages w'.
Proof.
  intros Hapi Hstart Hrun Ht Hgood Hstart'.
  assert (scan_ids (kind_items ct_type w') = ∅) as Hscan.
  { destruct (generic_replace_returns ct_type w w' api pm0 Hapi Hstart Hrun)
      as (t' & w2 & Ht' & -> & _ & _).
    rewrite Ht in Ht'. injection Ht' as <-.
    rewrite kind_items_with_items. apply scan_ids_nil.
    apply substituted_no_tags; [done |].
    intros m Hm. by apply fetched_mapping_covers, all_matches_scanned. }
  assert (flickr_api_client w' = Some api) as Hapi'.
  { destruct (generic_replace_returns ct_type w w' api pm0 Hapi Hstart Hrun)
      as (t' & w2 & _ & -> & Hapi2 & _). exact Hapi2. }
  destruct (generic_replace_no_tags_world ct_type w' api pm1 Hapi' Hstart'
              Hscan) as [l [-> | ->]].
  - cbn. by rewrite !app_nil_r, Nat.add_0_r.
  - destruct (with_items_same ct_type w' (touch l [] 0 w') eq_refl eq_refl)
      as [-> ->].
    cbn. by rewrite !app_nil_r, Nat.add_0_r.
Qed.

End pass_again.

(** * Records and the order of the fetch *)

Section record_facts.

(** X17.  The record that [resolve] stores for an identifier has the three
    keys title, raw_url and url, or these three and both width and height,
    the latter only when dimensions are asked for: no record is stored with
    a width and no height. *)
Theorem resolved_record_shape (ctx : gmap string pyval) (p : photo)
    (id : string) (incl alias : pyval)
    (pm : gmap string (gmap string pyval)) :
  ∃ r,
    resolve ctx p id incl alias pm !! id = Some r
    ∧ (dom r = {[ "title"; "raw_url"; "url" ]}
       ∨ (truthy incl = true
          ∧ dom r = {[ "title"; "raw_url"; "url"; "width"; "height" ]})).
Proof.
  rewrite resolve_insert, lookup_insert_eq. eexists. split; [done |].
  unfold resolved_record, placeholder.
  destruct (base_fields p alias) as [[[title raw] url]|e];
    [| left; rewrite !dom_insert_L, dom_singleton_L; set_solver].
  destruct (truthy incl);
    [| left; rewrite !dom_insert_L, dom_singleton_L; set_solver].
  destruct (lookup_size p alias) as [size|e];
    [| left; rewrite !dom_insert_L, dom_singleton_L; set_solver].
  destruct (size !! "width") as [wd|];
    [| left; rewrite !dom_insert_L, dom_singleton_L; set_solver].
  destruct (size !! "height") as [ht|];
    [| left; rewrite !dom_insert_L, dom_singleton_L; set_solver].
  right. split; [done |].
  rewrite !dom_insert_L, dom_singleton_L. set_solver.
Qed.

(** X18.  The mapping after the fetch loop does not depend on the order in
    which the identifiers are walked, nor on an identifier coming twice:
    two lists with the same elements give the same mapping. *)
Theorem resolve_all_order (api : string → photo) (ctx : gmap string pyval)
    (incl alias : pyval) (ids ids' : list string)
    (pm : gmap string (gmap string pyval)) :
  (∀ d, d ∈ ids ↔ d ∈ ids') →
  resolve_all api ctx incl alias ids pm
  = resolve_all api ctx incl alias ids' pm.
Proof.
  intros Hsame. apply map_eq. intros d. rewrite !resolve_all_lookup.
  destruct (decide (d ∈ ids)) as [Hin | Hin].
  - rewrite !bool_decide_true; [done | by apply Hsame | done].
  - rewrite !bool_decide_false; [done | by rewrite <- Hsame | done].
Qed.

End record_facts.

(** * Templates whose output does not change *)

Section pure_templates.
Import PyStr PyStrFacts.

Lemma subst_pass_ext (f g : gmap string string) (s : string) :
  (∀ m, m ∈ findall s → f !! m.2 = g !! m.2) →
  subst_pass f s = subst_pass g s.
Proof.
  remember (String.length s) as n eqn:Hn. revert s Hn.
  induction n as [n IH] using lt_wf_ind. intros s -> Hext.
  destruct s as [|c s]; [done |].
  rewrite !subst_pass_cons. rewrite findall_cons in Hext.
  destruct (match_at (String c s)) as [[d r]|] eqn:Hm.
  - pose proof (match_at_shorter _ _ _ Hm) as Hlt.
    pose proof (Hext (tag d, d) ltac:(left)) as Hd. cbn [snd] in Hd.
    rewrite <- Hd.
    rewrite (IH _ Hlt r eq_refl) by (intros m Hin; apply Hext; by right).
    done.
  - f_equal. eapply IH; [| done | done]. simpl. lia.
Qed.

Lemma first_renders_pure_lookup (tpl : template) (ctx : gmap string pyval)
    (pm : gmap string (gmap string pyval)) (ids : list string) (n : nat)
    (f : gmap string string) (d : string) :
  (∀ k c, tpl k c = tpl 0 c) →
  first_renders tpl ctx pm n ids f !! d
  = match f !! d with
    | Some x => Some x
    | None => if bool_decide (d ∈ ids)
              then record_fragments tpl ctx pm !! d else None
    end.
Proof.
  intros Hpure. unfold record_fragments. revert n f.
  induction ids as [|d0 ids IH]; intros n f.
  - cbn. by destruct (f !! d).
  - cbn [first_renders]. destruct (pm !! d0) as [rec|] eqn:Hrec.
    + rewrite IH. destruct (f !! d) as [x|] eqn:Hfd.
      * by rewrite (lookup_union_Some_l _ _ _ _ Hfd).
      * rewrite lookup_union_r by done.
        destruct (decide (d = d0)) as [->|Hne].
        -- rewrite lookup_singleton_eq, bool_decide_true by left.
           by rewrite lookup_fmap, Hrec, Hpure.
        -- rewrite lookup_singleton_ne by done.
           destruct (decide (d ∈ ids)) as [Hin | Hin].
           ++ by rewrite !bool_decide_true by (done || by right).
           ++ rewrite !bool_decide_false; [done | | done].
              by intros [? | ?]%elem_of_cons.
    + rewrite IH. destruct (f !! d) as [x|]; [done |].
      destruct (decide (d = d0)) as [->|Hne].
      * rewrite (bool_decide_true (d0 ∈ d0 :: ids)) by left.
        rewrite lookup_fmap, Hrec. cbn. by destruct (bool_decide _).
      * destruct (decide (d ∈ ids)) as [Hin | Hin].
        -- by rewrite !bool_decide_true by (done || by right).
        -- rewrite !bool_decide_false; [done | | done].
           by intros [? | ?]%elem_of_cons.
Qed.

(** X19.  For a template whose output does not depend on the renderings
    made before (the built-in one is such a template) and whose fragments
    start with a character that no tag contains and hold no opening
    bracket, the inner loop of the substitution ends with the body in which
    every tag whose identifier has a record is replaced by the fragment of
    that record and everything else is copied. *)
Theorem pure_template_substitution (tpl : template)
    (pm : gmap string (gmap string pyval)) (body : string) (w : world) :
  (∀ k c, tpl k c = tpl 0 c) →
  (∀ k d rec, pm !! d = Some rec →
              good_fragment (tpl k (rec ∪ context w)) = true) →
  ∃ w',
    substitute_matches tpl pm body (findall body) w
    = Normal (subst_pass (record_fragments tpl (context w) pm) body) w'.
Proof.
  intros Hpure Hgood. rewrite substitute_matches_run. eexists. f_equal.
  rewrite <- (subst_pass_empty body) at 1.
  rewrite replace_loop_subst_pass;
    [| done | apply findall_tag_match | apply map_Forall_empty].
  apply subst_pass_ext. intros m Hm.
  rewrite first_renders_pure_lookup, lookup_empty by done.
  rewrite bool_decide_true; [done |].
  apply list_elem_of_fmap. by exists m.
Qed.

End pure_templates.

(** * Concrete runs of these properties *)

Section more_runs.

Lemma setup_flickr_credentials_witness :
  settings bare_setup !! "FLICKR_API_TOKEN" = None
  ∧ api_attrs (setup_flickr bare_setup) !! "API_TOKEN"
    = api_attrs bare_setup !! "API_TOKEN"
  ∧ credential_warning "TOKEN" ∈ setup_log (setup_flickr bare_setup).
Proof.
  split; [reflexivity |].
  pose proof (setup_flickr_credentials bare_setup "TOKEN" ltac:(left))
    as [Hkey _].
  exact Hkey.
Defined.

Lemma remote_called_once_per_missing_witness :
  ∃ todo,
    photo_calls (world_of (generic_replace "article" mixed_world))
    = (photo_calls mixed_world ++ todo)%list
    ∧ NoDup todo
    ∧ ∀ d, d ∈ todo
           ↔ d ∈ scan_ids (kind_items "article" mixed_world)
             ∧ (∅ : gmap string (gmap string pyval)) !! d = None.
Proof.
  apply (remote_called_once_per_missing "article" mixed_world mixed_api ∅).
  - reflexivity.
  - reflexivity.
Defined.

Lemma pass_without_cache_location_witness :
  cache_location pathless_world = PyNone
  ∧ ∃ l, generic_replace "article" pathless_world
         = Raised TypeError (touch l [] 0 pathless_world).
Proof.
  split; [reflexivity |].
  apply (pass_without_cache_location "article" pathless_world
           (λ _, sunset_photo)).
  - reflexivity.
  - reflexivity.
Defined.

Lemma pass_with_unwritable_cache_witness :
  ∃ l, generic_replace "article" readonly_world
       = Raised IOError
           (touch l (elements (missing "article" readonly_world ∅)) 0
              readonly_world).
Proof.
  apply (pass_with_unwritable_cache "article" readonly_world
           (λ _, sunset_photo) ∅ "/tmp/cache").
  - reflexivity.
  - reflexivity.
  - reflexivity.
  - unfold readonly_world. cbn [unwritable]. apply elem_of_singleton.
    reflexivity.
  - intros Heq. vm_compute in Heq. discriminate Heq.
Defined.

Lemma pass_without_tags_witness :
  scan_ids (kind_items "article" plain_world) = ∅
  ∧ fs (world_of (generic_replace "article" plain_world)) = fs plain_world
  ∧ writes (world_of (generic_replace "article" plain_world))
    = writes plain_world
  ∧ photo_calls (world_of (generic_replace "article" plain_world))
    = photo_calls plain_world
  ∧ renders (world_of (generic_replace "article" plain_world))
    = renders plain_world
  ∧ articles (world_of (generic_replace "article" plain_world))
    = articles plain_world
  ∧ pages (world_of (generic_replace "article" plain_world))
    = pages plain_world.
Proof.
  split; [vm_compute; reflexivity |].
  apply (pass_without_tags "article" plain_world (λ _, sunset_photo) ∅).
  - reflexivity.
  - reflexivity.
  - vm_compute. reflexivity.
Defined.

Lemma pass_never_misses_a_record_witness :
  (∀ m, m ∈ all_matches (kind_items "article" mixed_world) →
        is_Some (fetched_mapping mixed_api "article" mixed_world ∅ !! m.2))
  ∧ (lost_message ∉ log mixed_world →
     lost_message ∉ log (world_of (generic_replace "article" mixed_world))).
Proof.
  apply (pass_never_misses_a_record "article" mixed_world mixed_api ∅).
  - reflexivity.
  - reflexivity.
Defined.

Lemma pass_renders_every_match_witness :
  ∃ t,
    chosen_template twice_world = Ok t
    ∧ kind_items "article"
        (world_of (generic_replace "article" twice_world))
      = substituted t (context twice_world)
          (fetched_mapping (λ _, dead_photo) "article" twice_world
             twice_mapping)
          (renders twice_world) (kind_items "article" twice_world)
    ∧ renders (world_of (generic_replace "article" twice_world))
      = renders twice_world
        + length (all_matches (kind_items "article" twice_world)).
Proof.
  apply (pass_renders_every_match "article" twice_world
           (world_of (generic_replace "article" twice_world))
           (λ _, dead_photo) twice_mapping).
  - reflexivity.
  - vm_compute. reflexivity.
  - vm_compute. reflexivity.
Defined.

Lemma tags_left_after_substitution_witness :
  ∃ content' w',
    substitute_matches two_faced_template twice_mapping
      "[flickr:id=1] and [flickr:id=2]"
      (findall "[flickr:id=1] and [flickr:id=2]") twice_world
    = Normal content' w'
    ∧ findall content'
      = lost_matches twice_mapping (findall "[flickr:id=1] and [flickr:id=2]").
Proof.
  apply (tags_left_after_substitution two_faced_template twice_mapping
           "[flickr:id=1] and [flickr:id=2]" twice_world).
  intros k d rec _. unfold two_faced_template.
  destruct (k =? 0)%nat; reflexivity.
Defined.

Lemma sunset_fetched :
  fetched_mapping (λ _, sunset_photo) "article" sunset_world ∅
  = {[ "12345" := sunset_record ]}.
Proof. vm_compute. reflexivity. Qed.

Lemma sunset_fragments_good (k : nat) (d : string)
    (rec : gmap string pyval) :
  fetched_mapping (λ _, sunset_photo) "article" sunset_world ∅ !! d
  = Some rec →
  good_fragment (default_template k (rec ∪ context sunset_world)) = true.
Proof.
  rewrite sunset_fetched. intros [_ <-]%lookup_singleton_Some.
  vm_compute. reflexivity.
Qed.

Lemma pass_leaves_no_tag_witness :
  scan_ids (kind_items "article"
              (world_of (generic_replace "article" sunset_world))) = ∅.
Proof.
  apply (pass_leaves_no_tag "article" sunset_world
           (world_of (generic_replace "article" sunset_world))
           (λ _, sunset_photo) ∅ default_template).
  - reflexivity.
  - reflexivity.
  - vm_compute. reflexivity.
  - reflexivity.
  - apply sunset_fragments_good.
Defined.

Lemma second_pass_changes_nothing_witness :
  let w' := world_of (generic_replace "article" sunset_world) in
  start_mapping w' = Some {[ "12345" := sunset_record ]}
  ∧ fs (world_of (generic_replace "article" w')) = fs w'
  ∧ writes (world_of (generic_replace "article" w')) = writes w'
  ∧ photo_calls (world_of (generic_replace "article" w')) = photo_calls w'
  ∧ renders (world_of (generic_replace "article" w')) = renders w'
  ∧ articles (world_of (generic_replace "article" w')) = articles w'
  ∧ pages (world_of (generic_replace "article" w')) = pages w'.
Proof.
  split; [vm_compute; reflexivity |].
  apply (second_pass_changes_nothing "article" sunset_world
           (world_of (generic_replace "article" sunset_world))
           (λ _, sunset_photo) ∅ {[ "12345" := sunset_record ]}
           default_template).
  - reflexivity.
  - reflexivity.
  - vm_compute. reflexivity.
  - reflexivity.
  - apply sunset_fragments_good.
  - vm_compute. reflexivity.
Defined.

Lemma resolve_all_order_witness :
  resolve_all mixed_api sunset_context (PyBool false) (PyStr "Medium 640")
    ["1"; "2"] ∅
  = resolve_all mixed_api sunset_context (PyBool false) (PyStr "Medium 640")
      ["2"; "1"; "2"] ∅.
Proof.
  apply (resolve_all_order mixed_api sunset_context (PyBool false)
           (PyStr "Medium 640") ["1"; "2"] ["2"; "1"; "2"] ∅).
  intros d. rewrite !elem_of_cons, elem_of_nil. tauto.
Defined.

Lemma pure_template_substitution_witness :
  ∃ w',
    substitute_matches default_template {[ "12345" := sunset_record ]}
      "See [flickr:id=12345] here" (findall "See [flickr:id=12345] here")
      sunset_world
    = Normal
        (subst_pass
           (record_fragments default_template (context sunset_world)
              {[ "12345" := sunset_record ]})
           "See [flickr:id=12345] here") w'.
Proof.
  apply (pure_template_substitution default_template
           {[ "12345" := sunset_record ]} "See [flickr:id=12345] here"
           sunset_world).
  - reflexivity.
  - intros k d rec [_ <-]%lookup_singleton_Some. vm_compute. reflexivity.
Defined.

End more_runs.
